(** * SO100 evaluation script: a shallow embedding and its properties

    The development follows [getting_started/examples/eval_gr00t_so100.py].
    The script is glue code over third-party libraries (lerobot, numpy,
    torch, matplotlib, rerun, the policy service).  The libraries are not
    modelled: a call into one of them is an entry of a trace, it may raise
    according to a fault schedule, and the values it returns (sensor
    readings, policy answers) come from oracles.  Everything the script
    itself computes (slicing, concatenation, the index map, the grid of the
    viewer, the control flow and the exception handling) is translated from
    the source.  Console output ([print]) and wall-clock reads
    ([time.time]) are left out. *)

From Stdlib Require Import ZArith List String Lia.
From Stdlib Require QArith_base.
From stdpp Require Import base gmap strings list.

Local Open Scope string_scope.
Local Open Scope list_scope.
Local Open Scope Z_scope.

(** ** Values *)

(** Numbers held by tensors and arrays.  Literals are kept as the source
    writes them; the widening [astype(np.float64)] keeps the value and
    changes the dtype tag. *)
Definition scalar := QArith_base.Q.
Definition dec (units : Z) (den : positive) : scalar := QArith_base.Qmake units den.

Inductive dtype := float32 | float64.

(** A numpy array of shape [(n,)]. *)
Record ndarray1 := { dtype1 : dtype; data1 : list scalar }.
(** A numpy array of shape [(m, n)], row by row. *)
Record ndarray2 := { dtype2 : dtype; rows2 : list (list scalar) }.

(** A camera frame; the library owns the pixels, the script only swaps the
    channel order. *)
Inductive image := Bgr (frame : nat) | Rgb (frame : nat).

(** ** Exceptions *)

Inductive exn :=
| FileNotFoundError
| RobotDeviceAlreadyConnectedError
| KeyError (key : string)
| IndexError
| TypeError
| ZeroDivisionError
| AssertionError
| LibraryError (what : string)   (* an [Exception] raised inside a library *)
| KeyboardInterrupt.             (* a [BaseException] that is no [Exception] *)

(** [isinstance(e, Exception)]: what an [except Exception] clause catches. *)
Definition is_Exception (e : exn) : bool :=
  match e with
  | KeyboardInterrupt => false
  | _ => true
  end.

Inductive result (A : Type) :=
| Ok (a : A)
| Raise (e : exn).
Arguments Ok {A} a.
Arguments Raise {A} e.

Definition rbind {A B} (r : result A) (k : A -> result B) : result B :=
  match r with
  | Ok a => k a
  | Raise e => Raise e
  end.

Definition raised {A} (r : result A) : bool :=
  match r with Ok _ => false | Raise _ => true end.

(** ** Python dictionaries in insertion order *)

Section Dict.
Context {V : Type}.

Definition dict := list (string * V).

Fixpoint dict_get (k : string) (d : dict) : option V :=
  match d with
  | [] => None
  | (k', v) :: d' => if decide (k = k') then Some v else dict_get k d'
  end.

(** [d[k] = v]: an existing key keeps its place, a new one goes last. *)
Fixpoint dict_set (k : string) (v : V) (d : dict) : dict :=
  match d with
  | [] => [(k, v)]
  | (k', v') :: d' =>
      if decide (k = k') then (k, v) :: d' else (k', v') :: dict_set k v d'
  end.

Definition dict_keys (d : dict) : list string := map fst d.
Definition dict_values (d : dict) : list V := map snd d.

(** [d[k]] as an expression. *)
Definition dict_index (k : string) (d : dict) : result V :=
  match dict_get k d with
  | Some v => Ok v
  | None => Raise (KeyError k)
  end.
End Dict.
Arguments dict V : clear implicits.

(** [range(n)] for a Python integer: empty when [n <= 0]. *)
Definition range (n : Z) : list Z := map Z.of_nat (seq 0 (Z.to_nat n)).

(** [a[i]] on a sequence; a negative index counts from the end. *)
Definition seq_index {A} (l : list A) (i : Z) : result A :=
  let j := if i <? 0 then i + Z.of_nat (length l) else i in
  if j <? 0 then Raise IndexError
  else match l !! Z.to_nat j with
       | Some x => Ok x
       | None => Raise IndexError
       end.

(** [a[i:j]] for [0 <= i <= j]. *)
Definition slice {A} (i j : nat) (l : list A) : list A := take (j - i) (drop i l).

(** [a // b] *)
Definition floordiv (a b : Z) : result Z :=
  if b =? 0 then Raise ZeroDivisionError else Ok (a / b).

(** ** The library's robot object, as far as the script reads it *)

Record MotorsBus := { port : string; motor_names : list string }.
Record Camera := { camera_index : Z }.

Record So100RobotConfig := {
  calibration_dir : string;
  cfg_leader_arms : dict MotorsBus;
  cfg_follower_arms : dict MotorsBus;
  cfg_cameras : dict Camera
}.

Record ManipulatorRobot := {
  robot_leader_arms : dict MotorsBus;
  robot_follower_arms : dict MotorsBus;
  cameras : dict Camera;
  is_connected : bool
}.

Record index_entry := {
  idx_start : Z;
  idx_end : Z;
  idx_motor_names : list string
}.

Record SO100Robot := {
  config : So100RobotConfig;
  enable_camera : bool;
  robot : ManipulatorRobot;
  follower_arms : dict MotorsBus;
  leader_arms : dict MotorsBus;
  motor_indices : dict index_entry
}.

(** The loop of [__init__] that fills [motor_indices]; [acc] is the map so
    far and [start_idx] the running index. *)
Fixpoint build_motor_indices (arms : dict MotorsBus) (start_idx : Z)
    (acc : dict index_entry) : dict index_entry :=
  match arms with
  | [] => acc
  | (arm_name, arm) :: rest =>
      let num_motors := Z.of_nat (length (motor_names arm)) in
      build_motor_indices rest (start_idx + num_motors)
        (dict_set arm_name
           {| idx_start := start_idx;
              idx_end := start_idx + num_motors;
              idx_motor_names := motor_names arm |} acc)
  end.

(** What the loop is meant to leave behind, for comparison: one entry per
    arm, each starting where the previous one stops. *)
Fixpoint index_entries (arms : dict MotorsBus) (start : Z) : dict index_entry :=
  match arms with
  | [] => []
  | (arm_name, arm) :: rest =>
      let stop := start + Z.of_nat (length (motor_names arm)) in
      (arm_name, {| idx_start := start; idx_end := stop;
                    idx_motor_names := motor_names arm |})
      :: index_entries rest stop
  end.

(** ** The viewer's grid *)

(** [cols] and [rows] of [view_imgs] for [num_imgs] images. *)
Definition view_grid (num_imgs : Z) : result (Z * Z) :=
  let cols := Z.min 3 num_imgs in
  rbind (floordiv (num_imgs + cols - 1) cols) (fun rows => Ok (rows, cols)).

(** The argument of [view_imgs]: a dictionary or a list of images. *)
Inductive imgs_arg :=
| ImgDict (d : dict (option image))
| ImgList (l : list (option image)).

(** The first statement of [view_imgs]. *)
Definition imgs_list (imgs : imgs_arg) : list (option image) :=
  match imgs with
  | ImgDict d => dict_values d
  | ImgList l => l
  end.

(** ** Observations sent to the policy *)

Inductive obs_value :=
| Video (batch : list image)          (* leading batch axis added *)
| StateArray (a : ndarray2)
| Annotation (texts : list string).

(** [x[np.newaxis, :]] on a one-dimensional array. *)
Definition newaxis (a : ndarray1) : ndarray2 :=
  {| dtype2 := dtype1 a; rows2 := [data1 a] |}.

Definition astype (dt : dtype) (a : ndarray2) : ndarray2 :=
  {| dtype2 := dt; rows2 := rows2 a |}.

Definition slice1 (i j : nat) (a : ndarray1) : ndarray1 :=
  {| dtype1 := dtype1 a; data1 := slice i j (data1 a) |}.

(** [imgs[name][np.newaxis, :, :, :]] *)
Definition video_entry (imgs : dict (option image)) (name : string)
    : result obs_value :=
  rbind (dict_index name imgs) (fun img =>
    match img with
    | Some f => Ok (Video [f])
    | None => Raise TypeError
    end).

(** The dictionary literal of [CustomGr00tRobotInferenceClient.get_action]. *)
Definition build_obs_dict (language_instruction : string)
    (imgs : dict (option image)) (state : ndarray1)
    : result (gmap string obs_value) :=
  rbind (video_entry imgs "webcam") (fun webcam =>
  rbind (video_entry imgs "main") (fun main =>
  rbind (video_entry imgs "cv") (fun cv =>
  Ok (<["video.webcam" := webcam]>
     (<["video.main" := main]>
     (<["video.cv" := cv]>
     (<["state.main_arm" := StateArray (astype float64 (newaxis (slice1 0 5 state)))]>
     (<["state.main_gripper" := StateArray (astype float64 (newaxis (slice1 5 6 state)))]>
     (<["state.cv_arm" := StateArray (astype float64 (newaxis (slice1 6 11 state)))]>
     (<["state.cv_gripper" := StateArray (astype float64 (newaxis (slice1 11 12 state)))]>
     (<["annotation.human.action.task_description" :=
          Annotation [language_instruction]]> ∅))))))))))).

(** ** Action chunks returned by the policy *)

(** [action[key][i]]: a row of a two-dimensional array, or a number when the
    array of the modality is one-dimensional. *)
Inductive step_value :=
| Number (x : scalar)
| Row (xs : list scalar).

Definition atleast_1d (v : step_value) : list scalar :=
  match v with
  | Number x => [x]
  | Row xs => xs
  end.

Definition step_width (v : step_value) : nat := length (atleast_1d v).

Definition action_chunk := gmap string (list step_value).

Definition MODALITY_KEYS : list string :=
  ["action.main_arm"; "action.main_gripper"; "action.cv_arm"; "action.cv_gripper"].

Definition action_index (action : action_chunk) (key : string) (i : Z)
    : result step_value :=
  match action !! key with
  | Some steps => seq_index steps i
  | None => Raise (KeyError key)
  end.

(** The list comprehension [[np.atleast_1d(action[key][i]) for key in keys]]. *)
Fixpoint modality_parts (action : action_chunk) (keys : list string) (i : Z)
    : result (list (list scalar)) :=
  match keys with
  | [] => Ok []
  | key :: keys' =>
      rbind (action_index action key i) (fun v =>
      rbind (modality_parts action keys' i) (fun parts =>
      Ok (atleast_1d v :: parts)))
  end.

(** [np.concatenate(..., axis=0)] followed by the shape assertion. *)
Definition concat_action (action : action_chunk) (i : Z) : result (list scalar) :=
  rbind (modality_parts action MODALITY_KEYS i) (fun parts =>
    let concat := concat parts in
    if decide (length concat = 12%nat) then Ok concat else Raise AssertionError).

(** ** Library calls, faults and oracles *)

(** What [robot.capture_observation()] returns: the joint positions under
    ["observation.state"] and one frame per camera under
    ["observation.images.<camera>"]. *)
Record observation := {
  observation_state : list scalar;
  observation_images : gmap string image
}.

(** A completed call into a library. *)
Inductive event :=
| RobotConnect                                          (* robot.connect() *)
| RobotDisconnect                                       (* robot.disconnect() *)
| BusWrite (bus : MotorsBus) (register : string) (value : Z)
| BusRead (bus : MotorsBus) (register : string)
| CaptureObservation                                    (* robot.capture_observation() *)
| SendAction (target : list scalar)                     (* robot.send_action(t) *)
| Sleep (seconds : scalar)                              (* time.sleep(s) *)
| CvtColor (img : image)                                (* cv2.cvtColor(img, COLOR_BGR2RGB) *)
| PolicyGetAction (obs : gmap string obs_value)         (* policy.get_action(obs) *)
| PltSubplot (rows cols index : Z)
| PltImshow (img : option image)
| PltAxisOff
| PltPause (seconds : scalar)
| PltClf
| RrSetTime                                             (* rr.set_time_seconds *)
| RrLog (entity : string) (index : Z) (value : scalar). (* rr.log(f"{entity}{index}", Scalar) *)

(** The behaviour of everything outside the script.  Library calls are
    numbered in the order the script makes them. *)
Record world := {
  fault : nat -> option exn;              (* the n-th call raises *)
  sensed : nat -> observation;            (* answer of the n-th call, a capture *)
  inferred : nat -> gmap string obs_value -> action_chunk
                                          (* answer of the n-th call, a policy query *)
}.

Record machine := {
  self : SO100Robot;
  ticks : nat;               (* library calls made so far *)
  trace : list event         (* those that completed, oldest first *)
}.

(** The machine after a call that raised, and after one that completed. *)
Definition ticked (m : machine) : machine :=
  {| self := self m; ticks := S (ticks m); trace := trace m |}.
Definition logged (e : event) (m : machine) : machine :=
  {| self := self m; ticks := S (ticks m); trace := trace m ++ [e] |}.

Definition M (A : Type) : Type := machine -> result A * machine.

Definition ret {A} (a : A) : M A := fun m => (Ok a, m).
Definition raise {A} (e : exn) : M A := fun m => (Raise e, m).
Definition bind {A B} (c : M A) (k : A -> M B) : M B :=
  fun m => match c m with
           | (Ok a, m') => k a m'
           | (Raise e, m') => (Raise e, m')
           end.
Definition lift {A} (r : result A) : M A := fun m => (r, m).

Notation "x <- c ;; k" := (bind c (fun x => k))
  (at level 100, c at next level, right associativity).
Notation "c ;;; k" := (bind c (fun _ => k))
  (at level 100, k at level 200, right associativity).

(** [for x in l: body(x)] *)
Fixpoint for_each {A} (l : list A) (body : A -> M unit) : M unit :=
  match l with
  | [] => ret tt
  | x :: l' => body x ;;; for_each l' body
  end.

(** [try: body finally: final] *)
Definition try_finally {A} (body : M A) (final : M unit) : M A :=
  fun m => match body m with
           | (r, m1) => match final m1 with
                        | (Ok _, m2) => (r, m2)
                        | (Raise e, m2) => (Raise e, m2)
                        end
           end.

(** [try: body except Exception as e: handler(e)] *)
Definition try_except_Exception (body : M unit) (handler : exn -> M unit) : M unit :=
  fun m => match body m with
           | (Ok a, m1) => (Ok a, m1)
           | (Raise e, m1) => if is_Exception e then handler e m1 else (Raise e, m1)
           end.

Definition get_self : M SO100Robot := fun m => (Ok (self m), m).

Definition with_is_connected (b : bool) (r : ManipulatorRobot) : ManipulatorRobot :=
  {| robot_leader_arms := robot_leader_arms r;
     robot_follower_arms := robot_follower_arms r;
     cameras := cameras r;
     is_connected := b |}.

Definition with_robot (r : ManipulatorRobot) (s : SO100Robot) : SO100Robot :=
  {| config := config s; enable_camera := enable_camera s; robot := r;
     follower_arms := follower_arms s; leader_arms := leader_arms s;
     motor_indices := motor_indices s |}.

(** [self.robot.is_connected = b] *)
Definition set_is_connected (b : bool) : M unit :=
  fun m => (Ok tt, {| self := with_robot (with_is_connected b (robot (self m))) (self m);
                      ticks := ticks m; trace := trace m |}).

(** [TorqueMode.ENABLED.value] and [TorqueMode.DISABLED.value], an enumeration
    of the motor library. *)
Definition TorqueMode_ENABLED : Z := 1.
Definition TorqueMode_DISABLED : Z := 0.

Definition INITIAL_POSE : list scalar :=
  [dec 0 1; dec 1836914 10000; dec 1625098 10000; dec 601953 10000;
   dec (-32520) 10000; dec (-10989) 10000].

Definition HOME_POSE : list scalar :=
  [dec 0 1; dec 1836914 10000; dec 1625098 10000; dec 1001953 10000;
   dec (-32520) 10000; dec (-10989) 10000].

(** [t.repeat(k)] on a one-dimensional tensor. *)
Definition tensor_repeat (k : nat) (t : list scalar) : list scalar :=
  concat (replicate k t).

(** The channel swap computed by [cv2.cvtColor(img, cv2.COLOR_BGR2RGB)]. *)
Definition cvtColor_BGR2RGB (img : image) : image :=
  match img with
  | Bgr f => Rgb f
  | Rgb f => Bgr f
  end.

Section Script.
Variable w : world.

(** A library call that returns [answer n] when it is the [n]-th one. *)
Definition call_with {A} (e : event) (answer : nat -> A) : M A :=
  fun m =>
    match fault w (ticks m) with
    | Some x => (Raise x, ticked m)
    | None => (Ok (answer (ticks m)), logged e m)
    end.

Definition call (e : event) : M unit := call_with e (fun _ => tt).

(** *** class SO100Robot *)

Definition set_so100_robot_preset (motor_bus : MotorsBus) : M unit :=
  call (BusWrite motor_bus "Mode" 0) ;;;
  call (BusWrite motor_bus "P_Coefficient" 10) ;;;
  call (BusWrite motor_bus "I_Coefficient" 0) ;;;
  call (BusWrite motor_bus "D_Coefficient" 32) ;;;
  call (BusWrite motor_bus "Lock" 0) ;;;
  call (BusWrite motor_bus "Maximum_Acceleration" 254) ;;;
  call (BusWrite motor_bus "Acceleration" 254).

Definition connect : M unit :=
  s <- get_self ;;
  if is_connected (robot s) then raise RobotDeviceAlreadyConnectedError
  else
    call RobotConnect ;;;
    for_each (follower_arms s) (fun '(arm_name, arm) =>
      set_so100_robot_preset arm ;;;
      call (BusRead arm "Present_Position")) ;;;
    set_is_connected true.

Definition capture_observation : M observation :=
  call_with CaptureObservation (sensed w).

Definition set_target_state (target_state : list scalar) : M unit :=
  call (SendAction target_state).

Definition move_to_initial_pose : M unit :=
  s <- get_self ;;
  obs <- capture_observation ;;
  let current_state := observation_state obs in
  _ <- capture_observation ;;
  let target_state := current_state in
  let current_state := INITIAL_POSE in
  let current_state := tensor_repeat (length (follower_arms s)) current_state in
  call (SendAction current_state) ;;;
  call (Sleep (dec 2 1)).

Definition go_home : M unit :=
  s <- get_self ;;
  let home_state := HOME_POSE in
  let num_follower_arms := length (robot_follower_arms (robot s)) in
  let home_state := tensor_repeat num_follower_arms home_state in
  set_target_state home_state ;;;
  call (Sleep (dec 2 1)).

Definition get_observation : M observation := capture_observation.

Definition get_current_state : M ndarray1 :=
  obs <- get_observation ;;
  ret {| dtype1 := float32; data1 := observation_state obs |}.

Definition get_current_img (camera_name : string) : M (option image) :=
  s <- get_self ;;
  match dict_get camera_name (cameras (robot s)) with
  | Some _ =>
      obs <- get_observation ;;
      let key := String.append "observation.images." camera_name in
      match observation_images obs !! key with
      | Some img =>
          img <- call_with (CvtColor img) (fun _ => cvtColor_BGR2RGB img) ;;
          ret (Some img)
      | None => raise (KeyError key)
      end
  | None => ret None
  end.

(** The loop of [get_all_camera_images]; [images] is the dictionary so far. *)
Fixpoint collect_images (names : list string) (images : dict (option image))
    : M (dict (option image)) :=
  match names with
  | [] => ret images
  | cam_name :: names' =>
      img <- get_current_img cam_name ;;
      collect_images names' (dict_set cam_name img images)
  end.

Definition get_all_camera_images : M (dict (option image)) :=
  s <- get_self ;;
  collect_images (dict_keys (cameras (robot s))) [].

Definition enable : M unit :=
  s <- get_self ;;
  if negb (is_connected (robot s)) then ret tt
  else for_each (follower_arms s) (fun '(arm_name, arm) =>
         call (BusWrite arm "Torque_Enable" TorqueMode_ENABLED)).

Definition disable : M unit :=
  s <- get_self ;;
  if negb (is_connected (robot s)) then ret tt
  else for_each (follower_arms s) (fun '(arm_name, arm) =>
         call (BusWrite arm "Torque_Enable" TorqueMode_DISABLED)).

(** The [try] block of [disconnect]. *)
Definition disconnect_body : M unit :=
  s <- get_self ;;
  if is_connected (robot s) then
    disable ;;;
    call RobotDisconnect ;;;
    set_is_connected false
  else ret tt.

Definition disconnect : M unit :=
  try_except_Exception disconnect_body (fun e => ret tt).

(** [with robot.activate(): body]: the generator runs up to its [yield],
    the body runs, and the [finally] clause runs however the [try] part
    or the body ended. *)
Definition activate {A} (body : M A) : M A :=
  try_finally (connect ;;; move_to_initial_pose ;;; body) disconnect.

(** *** class CustomGr00tRobotInferenceClient *)

Definition client_get_action (language_instruction : string)
    (imgs : dict (option image)) (state : ndarray1) : M action_chunk :=
  obs_dict <- lift (build_obs_dict language_instruction imgs state) ;;
  call_with (PolicyGetAction obs_dict) (fun n => inferred w n obs_dict).

(** *** view_imgs *)

(** The body of the [enumerate] loop, from index [i] on. *)
Fixpoint show_each (rows cols : Z) (i : Z) (imgs : list (option image)) : M unit :=
  match imgs with
  | [] => ret tt
  | img :: imgs' =>
      call (PltSubplot rows cols (i + 1)) ;;;
      call (PltImshow img) ;;;
      call PltAxisOff ;;;
      show_each rows cols (i + 1) imgs'
  end.

Definition view_imgs (imgs : imgs_arg) : M unit :=
  let imgs := imgs_list imgs in
  let num_imgs := Z.of_nat (length imgs) in
  grid <- lift (view_grid num_imgs) ;;
  let '(rows, cols) := grid in
  show_each rows cols 0 imgs ;;;
  call (PltPause (dec 1 1000)) ;;;
  call PltClf.

(** *** The main block *)

(** The innermost loop: one pair of scalars logged per joint. *)
Definition log_joint (state : ndarray1) (concat_action : list scalar) (i : Z)
    : M unit :=
  x <- lift (seq_index (data1 state) i) ;;
  call (RrLog "gr00t_so100/joint_positions" i x) ;;;
  a <- lift (seq_index concat_action i) ;;
  call (RrLog "gr00t_so100/action" i a).

(** One pass of [for i in range(ACTION_HORIZON)]. *)
Definition execute_step (action : action_chunk) (i : Z) : M unit :=
  concat_action <- lift (concat_action action i) ;;
  set_target_state concat_action ;;;
  call (Sleep (dec 1 100)) ;;;
  imgs <- get_all_camera_images ;;
  view_imgs (ImgDict imgs) ;;;
  state <- get_current_state ;;
  call RrSetTime ;;;
  for_each (range (Z.of_nat (length concat_action))) (log_joint state concat_action).

(** One pass of [for i in tqdm(range(ACTIONS_TO_EXECUTE))]. *)
Definition iteration (language_instruction : string) (ACTION_HORIZON : Z) : M unit :=
  imgs <- get_all_camera_images ;;
  view_imgs (ImgDict imgs) ;;;
  state <- get_current_state ;;
  action <- client_get_action language_instruction imgs state ;;
  for_each (range ACTION_HORIZON) (execute_step action).

Definition main_loop (language_instruction : string)
    (ACTIONS_TO_EXECUTE ACTION_HORIZON : Z) : M unit :=
  for_each (range ACTIONS_TO_EXECUTE)
    (fun _ => iteration language_instruction ACTION_HORIZON).

Definition LANGUAGE_INSTRUCTION : string :=
  "Grasp items from white bowl and place in black tray".

(** The [with] statement of the main block, on the robot already built. *)
Definition main (ACTIONS_TO_EXECUTE ACTION_HORIZON : Z) : M unit :=
  activate (main_loop LANGUAGE_INSTRUCTION ACTIONS_TO_EXECUTE ACTION_HORIZON).
End Script.

(** ** Reading traces *)

#[global] Instance scalar_eq_dec : EqDecision scalar.
Proof. unfold scalar. solve_decision. Defined.

(** The steps the main loop is made of. *)
Inductive step :=
| Setup      (* connecting, presets, torque, disconnecting *)
| Sense      (* robot.capture_observation() *)
| Convert    (* cv2.cvtColor *)
| Request    (* policy.get_action *)
| Actuate    (* robot.send_action *)
| Pause      (* time.sleep *)
| Display    (* matplotlib *)
| Log.       (* rerun *)

#[global] Instance step_eq_dec : EqDecision step.
Proof. solve_decision. Defined.

Definition step_of (e : event) : step :=
  match e with
  | RobotConnect | RobotDisconnect | BusWrite _ _ _ | BusRead _ _ => Setup
  | CaptureObservation => Sense
  | CvtColor _ => Convert
  | PolicyGetAction _ => Request
  | SendAction _ => Actuate
  | Sleep _ => Pause
  | PltSubplot _ _ _ | PltImshow _ | PltAxisOff | PltPause _ | PltClf => Display
  | RrSetTime | RrLog _ _ _ => Log
  end.

(** [in_order pattern steps]: the steps of [pattern] occur in [steps], in
    this order, possibly with other steps around and between them. *)
Fixpoint in_order (pattern steps : list step) : bool :=
  match pattern, steps with
  | [], _ => true
  | _ :: _, [] => false
  | p :: pattern', s :: steps' =>
      if decide (p = s) then in_order pattern' steps' else in_order pattern steps'
  end.

(** The steps of one camera sweep, one call of the viewer, one pass of the
    inner loop and one pass of the outer loop, for [c] cameras and a
    horizon of [h] steps. *)
Definition sweep_steps (c : nat) : list step := concat (replicate c [Sense; Convert]).
Definition viewer_steps (c : nat) : list step := replicate (3 * c + 2) Display.
Definition execute_steps (c : nat) : list step :=
  [Actuate; Pause] ++ sweep_steps c ++ viewer_steps c ++ [Sense] ++ replicate 25 Log.
Definition iteration_steps (c h : nat) : list step :=
  sweep_steps c ++ viewer_steps c ++ [Sense; Request]
  ++ concat (replicate h (execute_steps c)).

(** The order of steps the main loop is described with: read the sensors,
    request an action, command the actuators, display, log. *)
Definition CLAIMED_ORDER : list step := [Sense; Request; Actuate; Display; Log].

(** The outline of a run: pauses and conversions left out, a step repeated
    without interruption counted once. *)
Fixpoint outline (steps : list step) : list step :=
  match steps with
  | [] => []
  | s :: rest =>
      match s with
      | Pause | Convert => outline rest
      | _ =>
          match outline rest with
          | [] => [s]
          | s' :: o => if decide (s = s') then s' :: o else s :: s' :: o
          end
      end
  end.

(** The outline of one pass of the outer loop with at least one camera. *)
Definition iteration_outline (h : nat) : list step :=
  [Sense; Display; Sense; Request]
  ++ concat (replicate h [Actuate; Sense; Display; Sense; Log]).

(** The pacing monitor.  It reads a trace from the left; [pending] says
    that the last event was a [send_action] still waiting for its sleep.
    [None]: something other than [time.sleep(0.01)] came right after a
    [send_action]. *)
Definition PACE : scalar := dec 1 100.

Definition pace_step (pending : bool) (e : event) : option bool :=
  if pending then
    match e with
    | Sleep d => if decide (d = PACE) then Some false else None
    | _ => None
    end
  else
    match e with
    | SendAction _ => Some true
    | _ => Some false
    end.

Fixpoint pace (pending : bool) (tr : list event) : option bool :=
  match tr with
  | [] => Some pending
  | e :: tr' =>
      match pace_step pending e with
      | Some p => pace p tr'
      | None => None
      end
  end.

(** Every [send_action] of the trace that has a successor is followed at
    once by [time.sleep(0.01)]. *)
Definition sleep_follows_send (tr : list event) : Prop :=
  forall pre t e post, tr = pre ++ SendAction t :: e :: post -> e = Sleep PACE.

(** Between two [send_action] calls of the trace there is a
    [time.sleep(0.01)]. *)
Definition sleep_between_sends (tr : list event) : Prop :=
  forall pre t1 mid t2 post,
    tr = pre ++ SendAction t1 :: mid ++ SendAction t2 :: post ->
    Sleep PACE ∈ mid.

(** An event that neither commands the actuators nor sleeps. *)
Definition quiet (e : event) : bool :=
  match e with
  | SendAction _ | Sleep _ => false
  | _ => true
  end.

(** Every [time.sleep] of the trace lasts 0.01 seconds. *)
Definition sleeps_fixed (tr : list event) : Prop :=
  forall d, Sleep d ∈ tr -> d = PACE.

(** The machine has appended to [t0] a segment the monitor accepts, with
    only sleeps of 0.01 seconds, and is left in state [pending]. *)
Definition pacing (t0 : list event) (pending : bool) (m : machine) : Prop :=
  exists seg, trace m = t0 ++ seg /\ pace false seg = Some pending /\ sleeps_fixed seg.

(** How a pass of a loop, or the loop, may leave the monitor: ready for the
    next command when it returns, in either state when it raises. *)
Definition paced_exit (t0 : list event) (r : result unit) (m : machine) : Prop :=
  match r with
  | Ok _ => pacing t0 false m
  | Raise _ => exists p, pacing t0 p m
  end.

(** ** Specifications of computations *)

(** From a machine satisfying [P], the computation ends, normally or by an
    exception, in a result and a machine satisfying [Q]. *)
Definition triple {A} (P : machine -> Prop) (c : M A)
    (Q : result A -> machine -> Prop) : Prop :=
  forall m, P m -> Q (c m).1 (c m).2.

(** [c] maintains [I] however it ends. *)
Definition keeps {A} (I : machine -> Prop) (c : M A) : Prop :=
  triple I c (fun _ m => I m).

(** [c] returns [a] normally from [m], leaving [m']. *)
Definition yields {A} (c : M A) (m : machine) (a : A) (m' : machine) : Prop :=
  c m = (Ok a, m').

(** The machine after the calls of [seg] completed one after the other. *)
Definition appended (seg : list event) (m : machine) : machine :=
  fold_left (fun m e => logged e m) seg m.

(** [m'] is [m] after completed calls whose steps are [steps]. *)
Definition stepped (m m' : machine) (steps : list step) : Prop :=
  exists seg, m' = appended seg m /\ map step_of seg = steps.

(** No library call raises. *)
Definition calm (w : world) : Prop := forall n, fault w n = None.

(** The calls of [set_so100_robot_preset] on one bus, and of [connect] on
    the follower arms, as they appear in a trace when none of them raises. *)
Definition preset_events (motor_bus : MotorsBus) : list event :=
  [BusWrite motor_bus "Mode" 0;
   BusWrite motor_bus "P_Coefficient" 10;
   BusWrite motor_bus "I_Coefficient" 0;
   BusWrite motor_bus "D_Coefficient" 32;
   BusWrite motor_bus "Lock" 0;
   BusWrite motor_bus "Maximum_Acceleration" 254;
   BusWrite motor_bus "Acceleration" 254].

Definition connect_events (arms : dict MotorsBus) : list event :=
  RobotConnect
  :: flat_map (fun arm => preset_events arm ++ [BusRead arm "Present_Position"])
       (dict_values arms).

(** An exception that leaves a computation was raised by a library call. *)
Definition from_library (w : world) {A} (r : result A) (m : machine) : Prop :=
  match r with
  | Ok _ => True
  | Raise e => exists n, fault w n = Some e
  end.

Definition faulty (w : world) {A} (c : M A) : Prop :=
  triple (fun _ => True) c (from_library w).

(** Every exception a library call raises derives from [Exception]. *)
Definition only_Exceptions (w : world) : Prop :=
  forall n e, fault w n = Some e -> is_Exception e = true.

(** ** SO100Robot.__init__ *)

Definition CALIBRATION_PATH : string :=
  "/home/jasonx/Dropbox/repos/apple_pie/lerobot/.cache/calibration/so100".

(** [config.cameras = c] *)
Definition with_cameras (c : dict Camera) (cfg : So100RobotConfig) : So100RobotConfig :=
  {| calibration_dir := calibration_dir cfg;
     cfg_leader_arms := cfg_leader_arms cfg;
     cfg_follower_arms := cfg_follower_arms cfg;
     cfg_cameras := c |}.

Section Init.
(** The three things [__init__] asks of its environment:
    [os.path.exists], the constructor [So100RobotConfig(calibration_dir=p)]
    with the library's defaults, and [make_robot_from_config]. *)
Variable path_exists : string -> bool.
Variable So100RobotConfig_new : string -> So100RobotConfig.
Variable make_robot_from_config : So100RobotConfig -> ManipulatorRobot.

Definition SO100Robot_init (enable_camera : bool) : result SO100Robot :=
  let calibration_path := CALIBRATION_PATH in
  if negb (path_exists calibration_path) then Raise FileNotFoundError
  else
    let config := So100RobotConfig_new calibration_path in
    let config := if negb enable_camera then with_cameras [] config else config in
    let robot := make_robot_from_config config in
    let follower_arms := robot_follower_arms robot in
    let leader_arms := robot_leader_arms robot in
    Ok {| config := config;
          enable_camera := enable_camera;
          robot := robot;
          follower_arms := follower_arms;
          leader_arms := leader_arms;
          motor_indices := build_motor_indices follower_arms 0 [] |}.
End Init.

(** ** A concrete bench: two arms of six motors, three cameras *)

Module Bench.
Definition SO100_MOTORS : list string :=
  ["shoulder_pan"; "shoulder_lift"; "elbow_flex"; "wrist_flex"; "wrist_roll"; "gripper"].

Definition main_bus : MotorsBus :=
  {| port := "/dev/ttyACM0"; motor_names := SO100_MOTORS |}.
Definition cv_bus : MotorsBus :=
  {| port := "/dev/ttyACM1"; motor_names := SO100_MOTORS |}.

Definition default_config (calibration_dir : string) : So100RobotConfig :=
  {| calibration_dir := calibration_dir;
     cfg_leader_arms := [];
     cfg_follower_arms := [("main", main_bus); ("cv", cv_bus)];
     cfg_cameras := [("webcam", {| camera_index := 0 |});
                     ("main", {| camera_index := 2 |});
                     ("cv", {| camera_index := 4 |})] |}.

Definition make_robot (cfg : So100RobotConfig) : ManipulatorRobot :=
  {| robot_leader_arms := cfg_leader_arms cfg;
     robot_follower_arms := cfg_follower_arms cfg;
     cameras := cfg_cameras cfg;
     is_connected := false |}.

Definition build (enable_camera : bool) : result SO100Robot :=
  SO100Robot_init (fun _ => true) default_config make_robot enable_camera.

Definition so100 : SO100Robot :=
  match build true with
  | Ok s => s
  | Raise _ =>
      {| config := default_config ""; enable_camera := true;
         robot := make_robot (default_config "");
         follower_arms := []; leader_arms := []; motor_indices := [] |}
  end.

Definition boot (s : SO100Robot) : machine :=
  {| self := s; ticks := 0; trace := [] |}.

Definition connected (m : machine) : machine :=
  {| self := with_robot (with_is_connected true (robot (self m))) (self m);
     ticks := ticks m; trace := trace m |}.

Definition reading : observation :=
  {| observation_state :=
       [dec 1 1; dec 2 1; dec 3 1; dec 4 1; dec 5 1; dec 6 1;
        dec 7 1; dec 8 1; dec 9 1; dec 10 1; dec 11 1; dec 12 1];
     observation_images :=
       <["observation.images.webcam" := Bgr 0]>
       (<["observation.images.main" := Bgr 1]>
       (<["observation.images.cv" := Bgr 2]> ∅)) |}.

Definition arm_row : step_value := Row [dec 0 1; dec 0 1; dec 0 1; dec 0 1; dec 0 1].
Definition gripper_step : step_value := Number (dec 1 2).

Definition chunk : action_chunk :=
  <["action.main_arm" := replicate 16 arm_row]>
  (<["action.main_gripper" := replicate 16 gripper_step]>
  (<["action.cv_arm" := replicate 16 arm_row]>
  (<["action.cv_gripper" := replicate 16 gripper_step]> ∅))).

(** No call fails. *)
Definition calm : world :=
  {| fault := fun _ => None; sensed := fun _ => reading; inferred := fun _ _ => chunk |}.

(** The [n]-th call raises [e], the others succeed. *)
Definition failing_at (n : nat) (e : exn) : world :=
  {| fault := fun k => if decide (k = n) then Some e else None;
     sensed := fun _ => reading; inferred := fun _ _ => chunk |}.
End Bench.


(** ** class Gr00tRobotInferenceClient *)



(** ** Reading traces, continued *)

(** The targets of the [send_action] calls of a trace, oldest first. *)
Definition sent_targets (tr : list event) : list (list scalar) :=
  omap (fun e => match e with SendAction t => Some t | _ => None end) tr.

(** The policy queries of a trace. *)
Definition policy_queries (tr : list event) : list (gmap string obs_value) :=
  omap (fun e => match e with PolicyGetAction o => Some o | _ => None end) tr.

(** The values logged to rerun under [entity], with their index. *)
Definition logged_values (entity : string) (tr : list event) : list (Z * scalar) :=
  omap (fun e => match e with
                 | RrLog entity' i x =>
                     if decide (entity' = entity) then Some (i, x) else None
                 | _ => None
                 end) tr.

(** A [plt.subplot(rows, cols, index)] that matplotlib accepts: the index
    lies on a grid of at most three columns. *)
Definition subplot_in_grid (e : event) : Prop :=
  match e with
  | PltSubplot rows cols index => 1 <= index <= rows * cols /\ 1 <= cols <= 3
  | _ => True
  end.

(** A call the main loop may make: no set-up call, and an actuator command
    only with twelve numbers. *)
Definition loop_event (e : event) : Prop :=
  match e with
  | SendAction t => length t = 12%nat
  | e => step_of e <> Setup
  end.

(** The machine has appended to [t0] only events satisfying [P]. *)
Definition confined (P : event -> Prop) (t0 : list event) (m : machine) : Prop :=
  exists seg, trace m = t0 ++ seg /\ Forall P seg.

(** The torque writes of [enable] and [disable], and the calls of
    [disconnect] on a connected robot, when none of them raises. *)
Definition torque_events (value : Z) (arms : dict MotorsBus) : list event :=
  map (fun arm => BusWrite arm "Torque_Enable" value) (dict_values arms).

Definition disconnect_events (arms : dict MotorsBus) : list event :=
  torque_events TorqueMode_DISABLED arms ++ [RobotDisconnect].

(** The calls of [move_to_initial_pose] on [k] follower arms. *)
Definition initial_pose_events (k : nat) : list event :=
  [CaptureObservation; CaptureObservation;
   SendAction (tensor_repeat k INITIAL_POSE); Sleep (dec 2 1)].

(** From [m], [c] makes the calls [events], in this order, and returns, or
    it stops at the first call that raises, having made the calls before
    it; it leaves the robot object alone. *)
Definition made (c : M unit) (m : machine) (events : list event) : Prop :=
  exists seg,
    trace (c m).2 = trace m ++ seg /\
    self (c m).2 = self m /\
    (((c m).1 = Ok tt /\ seg = events) \/
     (exists e rest, (c m).1 = Raise e /\ events = seg ++ rest /\ rest <> [])).

Definition performs (c : M unit) (events : list event) : Prop :=
  forall m, made c m events.

(** The number of motors of all arms. *)
Definition total_motors (arms : dict MotorsBus) : Z :=
  fold_right (fun arm n => Z.of_nat (length (motor_names arm)) + n) 0 (dict_values arms).

(** A disconnected robot without cameras, as [SO100Robot()] builds it on the
    bench. *)
Module Blind.
Definition so100 : SO100Robot :=
  match Bench.build false with
  | Ok s => s
  | Raise _ => Bench.so100
  end.
End Blind.


(** ** Library calls against the fault schedule *)

(** None of the next [k] library calls from [m] raises. *)
Definition clear_for (w : world) (m : machine) (k : nat) : Prop :=
  forall j, (j < k)%nat -> fault w (ticks m + j) = None.

(** Of the library calls from [m], the first to raise is call number [k]
    (counted from 0), and it raises [e]. *)
Definition first_fault_at (w : world) (m : machine) (k : nat) (e : exn) : Prop :=
  clear_for w m k /\ fault w (ticks m + k) = Some e.

(** [c] makes exactly the calls [events], in this order, and returns; and
    when call number [k] is the first to raise, it has made the [k] calls
    before it and passes that exception on. *)
Definition runs_calls (w : world) (c : M unit) (events : list event) : Prop :=
  forall m,
    (clear_for w m (length events) -> c m = (Ok tt, appended events m)) /\
    (forall k e, (k < length events)%nat -> first_fault_at w m k e ->
       c m = (Raise e, ticked (appended (take k events) m))).

(** The durations of the [time.sleep] calls of a trace, oldest first. *)
Definition slept (tr : list event) : list scalar :=
  omap (fun e => match e with Sleep d => Some d | _ => None end) tr.



(** The actuator commands and the sleeps of a trace, in order, the other
    calls left out. *)
Definition pacing_calls (tr : list event) : list event :=
  List.filter (fun e => negb (quiet e)) tr.

(** A trace in which every actuator command is paired with the sleep of
    0.01 seconds after it, and no other [time.sleep] occurs. *)
Definition send_then_sleep (tr : list event) : Prop :=
  pacing_calls tr = flat_map (fun t => [SendAction t; Sleep PACE]) (sent_targets tr).

(** * Properties *)

(** ** The grid of [view_imgs] *)

Lemma ceil_div_bounds (n c : Z) :
  0 < c -> (((n + c - 1) / c) - 1) * c < n <= ((n + c - 1) / c) * c.
Proof.
  intros Hc.
  pose proof (Z.div_mod (n + c - 1) c ltac:(lia)) as Hdm.
  pose proof (Z.mod_pos_bound (n + c - 1) c Hc) as Hmod.
  nia.
Qed.

(** Without an image the row count divides by zero, before any plot call. *)
Lemma view_imgs_empty (w : world) (m : machine) :
  view_imgs w (ImgDict []) m = (Raise ZeroDivisionError, m).
Proof. reflexivity. Qed.


(** ** The motor index map *)

Section MotorIndices.

Lemma dict_set_fresh {V} (k : string) (v : V) (d : dict V) :
  k ∉ dict_keys d -> dict_set k v d = d ++ [(k, v)].
Proof.
  induction d as [|[k' v'] d IH]; simpl; intros Hk; [reflexivity|].
  rewrite not_elem_of_cons in Hk. destruct Hk as [Hne Hk].
  destruct (decide (k = k')) as [->|_]; [contradiction|].
  rewrite IH by exact Hk. reflexivity.
Qed.

Lemma index_entries_keys arms start :
  dict_keys (index_entries arms start) = dict_keys arms.
Proof.
  revert start. induction arms as [|[k a] arms IH]; intros start; simpl;
    [reflexivity|]. f_equal. apply IH.
Qed.

Lemma build_motor_indices_app arms : forall start acc,
  NoDup (dict_keys acc ++ dict_keys arms) ->
  build_motor_indices arms start acc = acc ++ index_entries arms start.
Proof.
  induction arms as [|[k a] arms IH]; intros start acc Hnd; simpl.
  - rewrite app_nil_r. reflexivity.
  - simpl in Hnd.
    assert (Hk : k ∉ dict_keys acc).
    { apply NoDup_app in Hnd as (_ & Hdisj & _).
      intros Hin. apply (Hdisj k Hin). left. }
    rewrite dict_set_fresh by exact Hk.
    rewrite IH.
    + rewrite <- app_assoc. reflexivity.
    + unfold dict_keys in *. rewrite map_app. simpl.
      rewrite <- app_assoc. exact Hnd.
Qed.

Lemma index_entries_lookup arms : forall start i name e,
  index_entries arms start !! i = Some (name, e) ->
  exists arm, arms !! i = Some (name, arm) /\
    start <= idx_start e /\
    idx_end e = idx_start e + Z.of_nat (length (motor_names arm)) /\
    idx_motor_names e = motor_names arm.
Proof.
  induction arms as [|[k a] arms IH]; intros start i name e Hi;
    [discriminate|].
  destruct i as [|i]; simpl in Hi.
  - injection Hi as <- <-. exists a. simpl. repeat split; lia.
  - apply IH in Hi as (arm & Harm & Hle & Hend & Hnames).
    exists arm. simpl. repeat split; try assumption. lia.
Qed.

Lemma index_entries_first arms start name e :
  index_entries arms start !! 0%nat = Some (name, e) -> idx_start e = start.
Proof.
  destruct arms as [|[k a] arms]; simpl; [discriminate|].
  intros H. injection H as <- <-. reflexivity.
Qed.

Lemma index_entries_next arms : forall start i n1 e1 n2 e2,
  index_entries arms start !! i = Some (n1, e1) ->
  index_entries arms start !! S i = Some (n2, e2) ->
  idx_start e2 = idx_end e1.
Proof.
  induction arms as [|[k a] arms IH]; intros start i n1 e1 n2 e2 H1 H2;
    [discriminate|].
  destruct i as [|i].
  - simpl in H1. injection H1 as <- <-.
    change (index_entries arms (start + Z.of_nat (length (motor_names a))) !! 0%nat
            = Some (n2, e2)) in H2.
    apply index_entries_first in H2. simpl. exact H2.
  - exact (IH _ i n1 e1 n2 e2 H1 H2).
Qed.

Lemma index_entries_ordered arms : forall start i j n1 e1 n2 e2,
  (i < j)%nat ->
  index_entries arms start !! i = Some (n1, e1) ->
  index_entries arms start !! j = Some (n2, e2) ->
  idx_end e1 <= idx_start e2.
Proof.
  induction arms as [|[k a] arms IH]; intros start i j n1 e1 n2 e2 Hij H1 H2;
    [discriminate|].
  destruct j as [|j]; [lia|].
  destruct i as [|i].
  - simpl in H1. injection H1 as <- <-. simpl in H2.
    apply index_entries_lookup in H2 as (_ & _ & Hle & _). simpl. exact Hle.
  - simpl in H1, H2. eapply (IH _ i j n1 e1 n2 e2); [lia|eassumption..].
Qed.

End MotorIndices.

(** C10.  After [__init__] the index map has one entry per follower arm, in
    the order of the arms; the first entry starts at 0, every entry ends at
    its start plus the number of its arm's motors, every entry starts where
    the one before it ends, and so the ranges of two different arms do not
    overlap.  The keys of the arms are those of a dictionary: pairwise
    different. *)
Theorem motor_indices_partition
    (path_exists : string -> bool)
    (So100RobotConfig_new : string -> So100RobotConfig)
    (make_robot_from_config : So100RobotConfig -> ManipulatorRobot)
    (enable_camera : bool) (s : SO100Robot) :
  SO100Robot_init path_exists So100RobotConfig_new make_robot_from_config
    enable_camera = Ok s ->
  NoDup (dict_keys (follower_arms s)) ->
  dict_keys (motor_indices s) = dict_keys (follower_arms s) /\
  (forall name e, motor_indices s !! 0%nat = Some (name, e) -> idx_start e = 0) /\
  (forall i name e, motor_indices s !! i = Some (name, e) ->
     exists arm, follower_arms s !! i = Some (name, arm) /\
       idx_end e = idx_start e + Z.of_nat (length (motor_names arm)) /\
       idx_motor_names e = motor_names arm) /\
  (forall i n1 e1 n2 e2,
     motor_indices s !! i = Some (n1, e1) ->
     motor_indices s !! S i = Some (n2, e2) ->
     idx_start e2 = idx_end e1) /\
  (forall i j n1 e1 n2 e2, (i < j)%nat ->
     motor_indices s !! i = Some (n1, e1) ->
     motor_indices s !! j = Some (n2, e2) ->
     idx_end e1 <= idx_start e2).
Proof.
  unfold SO100Robot_init. intros Hinit Hnd.
  destruct (negb (path_exists CALIBRATION_PATH)); [discriminate|].
  injection Hinit as <-. simpl in *.
  rewrite build_motor_indices_app by exact Hnd. simpl.
  split; [apply index_entries_keys|].
  split; [intros name e; apply index_entries_first|].
  split.
  { intros i name e Hi.
    apply index_entries_lookup in Hi as (arm & Harm & _ & Hend & Hnames).
    exists arm. auto. }
  split; [apply index_entries_next|apply index_entries_ordered].
Qed.

Lemma motor_indices_partition_witness :
  NoDup (dict_keys (follower_arms Bench.so100)) /\
  dict_keys (motor_indices Bench.so100) = dict_keys (follower_arms Bench.so100) /\
  (forall i n1 e1 n2 e2,
     motor_indices Bench.so100 !! i = Some (n1, e1) ->
     motor_indices Bench.so100 !! S i = Some (n2, e2) ->
     idx_start e2 = idx_end e1).
Proof.
  assert (Hnd : NoDup (dict_keys (follower_arms Bench.so100))).
  { apply (bool_decide_unpack _). vm_compute. exact I. }
  destruct (motor_indices_partition (fun _ => true) Bench.default_config
              Bench.make_robot true Bench.so100 eq_refl Hnd)
    as (Hkeys & _ & _ & Hnext & _).
  auto.
Defined.

(** ** The observation built by [get_action] *)

(** C2.  For a state vector of twelve elements the observation that
    [CustomGr00tRobotInferenceClient.get_action] builds, and passes to the
    policy, holds elements 0..4 under [state.main_arm], element 5 under
    [state.main_gripper], elements 6..10 under [state.cv_arm] and element 11
    under [state.cv_gripper], each as a float64 array with one leading row
    (shape [(1, 5)] or [(1, 1)]). *)
Theorem get_action_state_split (w : world) (language_instruction : string)
    (imgs : dict (option image)) (state : ndarray1)
    (x0 x1 x2 x3 x4 x5 x6 x7 x8 x9 x10 x11 : scalar)
    (obs : gmap string obs_value) :
  data1 state = [x0; x1; x2; x3; x4; x5; x6; x7; x8; x9; x10; x11] ->
  build_obs_dict language_instruction imgs state = Ok obs ->
  obs !! "state.main_arm" =
    Some (StateArray {| dtype2 := float64; rows2 := [[x0; x1; x2; x3; x4]] |}) /\
  obs !! "state.main_gripper" =
    Some (StateArray {| dtype2 := float64; rows2 := [[x5]] |}) /\
  obs !! "state.cv_arm" =
    Some (StateArray {| dtype2 := float64; rows2 := [[x6; x7; x8; x9; x10]] |}) /\
  obs !! "state.cv_gripper" =
    Some (StateArray {| dtype2 := float64; rows2 := [[x11]] |}) /\
  client_get_action w language_instruction imgs state =
    call_with w (PolicyGetAction obs) (fun n => inferred w n obs).
Proof.
  intros Hstate Hobs.
  assert (Hcall : client_get_action w language_instruction imgs state =
                  call_with w (PolicyGetAction obs) (fun n => inferred w n obs)).
  { unfold client_get_action. rewrite Hobs. reflexivity. }
  unfold build_obs_dict in Hobs.
  destruct (video_entry imgs "webcam") as [webcam|]; [|discriminate].
  destruct (video_entry imgs "main") as [main|]; [|discriminate].
  destruct (video_entry imgs "cv") as [cv|]; [|discriminate].
  simpl in Hobs. injection Hobs as <-.
  repeat split; try exact Hcall;
    rewrite ?lookup_insert_ne by done; rewrite lookup_insert_eq;
    unfold astype, newaxis, slice1, slice; simpl; rewrite Hstate; reflexivity.
Qed.

Lemma get_action_state_split_witness :
  exists obs,
    build_obs_dict LANGUAGE_INSTRUCTION
      [("webcam", Some (Rgb 0)); ("main", Some (Rgb 1)); ("cv", Some (Rgb 2))]
      {| dtype1 := float32; data1 := observation_state Bench.reading |} = Ok obs /\
    obs !! "state.main_gripper" =
      Some (StateArray {| dtype2 := float64; rows2 := [[dec 6 1]] |}) /\
    obs !! "state.cv_gripper" =
      Some (StateArray {| dtype2 := float64; rows2 := [[dec 12 1]] |}).
Proof.
  eexists. split; [reflexivity|].
  destruct (get_action_state_split Bench.calm LANGUAGE_INSTRUCTION
              [("webcam", Some (Rgb 0)); ("main", Some (Rgb 1)); ("cv", Some (Rgb 2))]
              {| dtype1 := float32; data1 := observation_state Bench.reading |}
              (dec 1 1) (dec 2 1) (dec 3 1) (dec 4 1) (dec 5 1) (dec 6 1)
              (dec 7 1) (dec 8 1) (dec 9 1) (dec 10 1) (dec 11 1) (dec 12 1)
              _ eq_refl eq_refl)
    as (_ & Hg & _ & Hcg & _).
  split; [exact Hg|exact Hcg].
Defined.

(** ** The concatenated action *)

Lemma seq_index_width {A} (P : A -> Prop) (l : list A) (i : Z) (v : A) :
  Forall P l -> seq_index l i = Ok v -> P v.
Proof.
  intros Hall. unfold seq_index. cbv zeta.
  destruct (_ <? 0); [discriminate|].
  destruct (l !! _) as [x|] eqn:Hx; [|discriminate].
  intros H. injection H as <-.
  exact (proj1 (Forall_lookup P l) Hall _ _ Hx).
Qed.

Lemma seq_index_in_range {A} (l : list A) (i : Z) :
  0 <= i < Z.of_nat (length l) -> exists v, seq_index l i = Ok v.
Proof.
  intros Hi. unfold seq_index. cbv zeta.
  destruct (Z.ltb_spec i 0); [lia|].
  destruct (Z.ltb_spec i 0); [lia|].
  destruct (l !! Z.to_nat i) as [x|] eqn:Hx; [eauto|].
  apply lookup_ge_None in Hx. lia.
Qed.

Lemma seq_index_not_assertion {A} (l : list A) (i : Z) :
  seq_index l i <> Raise AssertionError.
Proof.
  unfold seq_index. cbv zeta. destruct (_ <? 0); [discriminate|].
  destruct (l !! _); discriminate.
Qed.

(** C3.  When the four modalities of an action chunk have steps of widths
    5, 1, 5 and 1, concatenating them at a step index never trips the shape
    assertion, and at every index the four arrays have, the result is the
    four pieces in the order of [MODALITY_KEYS], twelve numbers long. *)
Theorem concat_action_shape (action : action_chunk)
    (main_arm main_gripper cv_arm cv_gripper : list step_value) (i : Z) :
  action !! "action.main_arm" = Some main_arm ->
  action !! "action.main_gripper" = Some main_gripper ->
  action !! "action.cv_arm" = Some cv_arm ->
  action !! "action.cv_gripper" = Some cv_gripper ->
  Forall (fun v => step_width v = 5%nat) main_arm ->
  Forall (fun v => step_width v = 1%nat) main_gripper ->
  Forall (fun v => step_width v = 5%nat) cv_arm ->
  Forall (fun v => step_width v = 1%nat) cv_gripper ->
  concat_action action i <> Raise AssertionError /\
  (0 <= i < Z.of_nat (length main_arm) ->
   0 <= i < Z.of_nat (length main_gripper) ->
   0 <= i < Z.of_nat (length cv_arm) ->
   0 <= i < Z.of_nat (length cv_gripper) ->
   exists a g a' g',
     seq_index main_arm i = Ok a /\ seq_index main_gripper i = Ok g /\
     seq_index cv_arm i = Ok a' /\ seq_index cv_gripper i = Ok g' /\
     concat_action action i =
       Ok (atleast_1d a ++ atleast_1d g ++ atleast_1d a' ++ atleast_1d g') /\
     length (atleast_1d a ++ atleast_1d g ++ atleast_1d a' ++ atleast_1d g') = 12%nat).
Proof.
  intros H1 H2 H3 H4 W1 W2 W3 W4.
  assert (Hgen : forall a g a' g',
    seq_index main_arm i = Ok a -> seq_index main_gripper i = Ok g ->
    seq_index cv_arm i = Ok a' -> seq_index cv_gripper i = Ok g' ->
    concat_action action i =
      Ok (atleast_1d a ++ atleast_1d g ++ atleast_1d a' ++ atleast_1d g') /\
    length (atleast_1d a ++ atleast_1d g ++ atleast_1d a' ++ atleast_1d g') = 12%nat).
  { intros a g a' g' Ea Eg Ea' Eg'.
    assert (Hlen : length (atleast_1d a ++ atleast_1d g ++ atleast_1d a' ++ atleast_1d g')
                   = 12%nat).
    { rewrite !length_app.
      pose proof (seq_index_width _ _ _ _ W1 Ea) as L1.
      pose proof (seq_index_width _ _ _ _ W2 Eg) as L2.
      pose proof (seq_index_width _ _ _ _ W3 Ea') as L3.
      pose proof (seq_index_width _ _ _ _ W4 Eg') as L4.
      unfold step_width in *. simpl in *. lia. }
    split; [|exact Hlen].
    unfold concat_action, MODALITY_KEYS, modality_parts, action_index.
    rewrite H1, H2, H3, H4, Ea, Eg, Ea', Eg'. simpl.
    rewrite app_nil_r.
    destruct (decide _) as [_|Hne]; [reflexivity|contradiction]. }
  split.
  - destruct (seq_index main_arm i) as [a|e1] eqn:Ea;
    [destruct (seq_index main_gripper i) as [g|e2] eqn:Eg;
     [destruct (seq_index cv_arm i) as [a'|e3] eqn:Ea';
      [destruct (seq_index cv_gripper i) as [g'|e4] eqn:Eg'|]|]|].
    + destruct (Hgen a g a' g' eq_refl eq_refl eq_refl eq_refl) as [-> _].
      discriminate.
    + unfold concat_action, MODALITY_KEYS, modality_parts, action_index.
      rewrite H1, H2, H3, H4, Ea, Eg, Ea', Eg'. simpl.
      intros E. injection E as ->. exact (seq_index_not_assertion _ _ Eg').
    + unfold concat_action, MODALITY_KEYS, modality_parts, action_index.
      rewrite H1, H2, H3, Ea, Eg, Ea'. simpl.
      intros E. injection E as ->. exact (seq_index_not_assertion _ _ Ea').
    + unfold concat_action, MODALITY_KEYS, modality_parts, action_index.
      rewrite H1, H2, Ea, Eg. simpl.
      intros E. injection E as ->. exact (seq_index_not_assertion _ _ Eg).
    + unfold concat_action, MODALITY_KEYS, modality_parts, action_index.
      rewrite H1, Ea. simpl.
      intros E. injection E as ->. exact (seq_index_not_assertion _ _ Ea).
  - intros R1 R2 R3 R4.
    destruct (seq_index_in_range _ _ R1) as [a Ea].
    destruct (seq_index_in_range _ _ R2) as [g Eg].
    destruct (seq_index_in_range _ _ R3) as [a' Ea'].
    destruct (seq_index_in_range _ _ R4) as [g' Eg'].
    exists a, g, a', g'. repeat split; try assumption; apply (Hgen a g a' g'); assumption.
Qed.

(** ** Rules for computations *)

Section Rules.
Variable w : world.

Lemma triple_bind {A B} (P : machine -> Prop) (R : result A -> machine -> Prop)
    (Q : result B -> machine -> Prop) (c : M A) (k : A -> M B) :
  triple P c R ->
  (forall a, triple (R (Ok a)) (k a) Q) ->
  (forall e m, R (Raise e) m -> Q (Raise e) m) ->
  triple P (bind c k) Q.
Proof.
  intros Hc Hk Hraise m HP. specialize (Hc m HP).
  unfold bind. destruct (c m) as [[a|e] m']; simpl in *.
  - apply Hk. exact Hc.
  - apply Hraise. exact Hc.
Qed.

Lemma triple_for_each {A} (I : machine -> Prop) (Q : result unit -> machine -> Prop)
    (l : list A) (body : A -> M unit) :
  (forall x, triple I (body x)
               (fun r m => match r with Ok _ => I m | Raise e => Q (Raise e) m end)) ->
  (forall m, I m -> Q (Ok tt) m) ->
  triple I (for_each l body) Q.
Proof.
  intros Hbody Hdone. induction l as [|x l IH]; simpl.
  - intros m HI. apply Hdone. exact HI.
  - eapply triple_bind.
    + apply Hbody.
    + intros []. exact IH.
    + intros e m H. exact H.
Qed.

Lemma keeps_ret {A} I (a : A) : keeps I (ret a).
Proof. intros m HI. exact HI. Qed.

Lemma keeps_raise {A} I e : keeps I (@raise A e).
Proof. intros m HI. exact HI. Qed.

Lemma keeps_lift {A} I (r : result A) : keeps I (lift r).
Proof. intros m HI. exact HI. Qed.

Lemma keeps_get_self I : keeps I get_self.
Proof. intros m HI. exact HI. Qed.

Lemma keeps_bind {A B} I (c : M A) (k : A -> M B) :
  keeps I c -> (forall a, keeps I (k a)) -> keeps I (bind c k).
Proof.
  intros Hc Hk. eapply triple_bind.
  - exact Hc.
  - exact Hk.
  - intros e m H. exact H.
Qed.

Lemma keeps_for_each {A} I (l : list A) (body : A -> M unit) :
  (forall x, keeps I (body x)) -> keeps I (for_each l body).
Proof.
  intros Hbody. apply triple_for_each.
  - intros x m HI. specialize (Hbody x m HI).
    destruct (body x m) as [[a|e] m']; exact Hbody.
  - auto.
Qed.

Lemma triple_call (P : machine -> Prop) (e : event)
    (Q : result unit -> machine -> Prop) :
  (forall m, P m -> fault w (ticks m) = None -> Q (Ok tt) (logged e m)) ->
  (forall m x, P m -> fault w (ticks m) = Some x -> Q (Raise x) (ticked m)) ->
  triple P (call w e) Q.
Proof.
  intros Hok Hraise m HP. unfold call, call_with.
  destruct (fault w (ticks m)) as [x|] eqn:F; simpl; auto.
Qed.

Lemma keeps_call_with {A} (I : machine -> Prop) (e : event) (answer : nat -> A) :
  (forall m, I m -> I (ticked m)) ->
  (forall m, I m -> I (logged e m)) ->
  keeps I (call_with w e answer).
Proof.
  intros Ht Hl m HI. unfold call_with.
  destruct (fault w (ticks m)); simpl; auto.
Qed.
End Rules.

(** ** Pacing of the main loop *)

Lemma pace_app (p : bool) (a b : list event) :
  pace p (a ++ b) = match pace p a with Some p' => pace p' b | None => None end.
Proof.
  revert p. induction a as [|e a IH]; intros p; simpl; [reflexivity|].
  destruct (pace_step p e); [apply IH|reflexivity].
Qed.

Lemma pace_sound (seg : list event) (p : bool) :
  pace false seg = Some p -> sleep_follows_send seg.
Proof.
  intros Hp pre t e post ->.
  rewrite pace_app in Hp.
  destruct (pace false pre) as [[|]|]; simpl in Hp; try discriminate.
  destruct e; simpl in Hp; try discriminate.
  destruct (decide (seconds = PACE)) as [->|]; [reflexivity|discriminate].
Qed.

Lemma sleep_follows_between (seg : list event) :
  sleep_follows_send seg -> sleep_between_sends seg.
Proof.
  intros H pre t1 mid t2 post ->.
  destruct mid as [|e mid]; simpl in H.
  - specialize (H pre t1 (SendAction t2) post eq_refl). discriminate.
  - rewrite (H pre t1 e (mid ++ SendAction t2 :: post) eq_refl). left.
Qed.

Section Pacing.
Variable w : world.
Variable t0 : list event.

Lemma pacing_ticked p m : pacing t0 p m -> pacing t0 p (ticked m).
Proof. intros H. exact H. Qed.

Lemma sleeps_fixed_snoc seg e :
  sleeps_fixed seg -> (forall d, e = Sleep d -> d = PACE) -> sleeps_fixed (seg ++ [e]).
Proof.
  intros Hs He d Hin. apply elem_of_app in Hin as [Hin|Hin]; [auto|].
  apply list_elem_of_singleton in Hin. symmetry in Hin. auto.
Qed.

Lemma pacing_logged p p' e m :
  pace_step p e = Some p' ->
  (forall d, e = Sleep d -> d = PACE) ->
  pacing t0 p m -> pacing t0 p' (logged e m).
Proof.
  intros Hstep He (seg & Htr & Hp & Hs).
  exists (seg ++ [e]). simpl. rewrite Htr, <- app_assoc.
  split; [reflexivity|]. split.
  - rewrite pace_app, Hp. simpl. rewrite Hstep. reflexivity.
  - apply sleeps_fixed_snoc; assumption.
Qed.

Lemma pacing_quiet e m :
  quiet e = true -> pacing t0 false m -> pacing t0 false (logged e m).
Proof.
  intros Hq. apply pacing_logged.
  - destruct e; try reflexivity; discriminate.
  - intros d ->. discriminate.
Qed.

Lemma keeps_quiet_call {A} (e : event) (answer : nat -> A) :
  quiet e = true -> keeps (pacing t0 false) (call_with w e answer).
Proof.
  intros Hq. apply keeps_call_with.
  - apply pacing_ticked.
  - intros m. apply pacing_quiet. exact Hq.
Qed.

Lemma keeps_get_current_state : keeps (pacing t0 false) (get_current_state w).
Proof.
  apply keeps_bind; [|intros; apply keeps_ret].
  apply keeps_quiet_call. reflexivity.
Qed.

Lemma keeps_get_current_img name : keeps (pacing t0 false) (get_current_img w name).
Proof.
  apply keeps_bind; [apply keeps_get_self|]. intros s.
  destruct (dict_get name (cameras (robot s))); [|apply keeps_ret].
  apply keeps_bind; [apply keeps_quiet_call; reflexivity|]. intros obs.
  cbv zeta.
  match goal with
  | |- context [observation_images obs !! ?k] =>
      destruct (observation_images obs !! k); [|apply keeps_raise]
  end.
  apply keeps_bind; [apply keeps_quiet_call; reflexivity|].
  intros; apply keeps_ret.
Qed.

Lemma keeps_collect_images names :
  forall images, keeps (pacing t0 false) (collect_images w names images).
Proof.
  induction names as [|n names IH]; intros images; simpl.
  - apply keeps_ret.
  - apply keeps_bind; [apply keeps_get_current_img|]. intros img. apply IH.
Qed.

Lemma keeps_get_all_camera_images :
  keeps (pacing t0 false) (get_all_camera_images w).
Proof.
  apply keeps_bind; [apply keeps_get_self|]. intros s. apply keeps_collect_images.
Qed.

Lemma keeps_show_each rows cols imgs :
  forall i, keeps (pacing t0 false) (show_each w rows cols i imgs).
Proof.
  induction imgs as [|img imgs IH]; intros i; simpl.
  - apply keeps_ret.
  - repeat (apply keeps_bind; [apply keeps_quiet_call; reflexivity|intros _]).
    apply IH.
Qed.

Lemma keeps_view_imgs imgs : keeps (pacing t0 false) (view_imgs w imgs).
Proof.
  apply keeps_bind; [apply keeps_lift|]. intros [rows cols].
  apply keeps_bind; [apply keeps_show_each|]. intros _.
  apply keeps_bind; [apply keeps_quiet_call; reflexivity|]. intros _.
  apply keeps_quiet_call; reflexivity.
Qed.

Lemma keeps_client_get_action li imgs state :
  keeps (pacing t0 false) (client_get_action w li imgs state).
Proof.
  apply keeps_bind; [apply keeps_lift|]. intros obs.
  apply keeps_quiet_call; reflexivity.
Qed.

Lemma keeps_log_joint state concat i :
  keeps (pacing t0 false) (log_joint w state concat i).
Proof.
  apply keeps_bind; [apply keeps_lift|]. intros x.
  apply keeps_bind; [apply keeps_quiet_call; reflexivity|]. intros _.
  apply keeps_bind; [apply keeps_lift|]. intros a.
  apply keeps_quiet_call; reflexivity.
Qed.

Lemma keeps_paced_exit (c : M unit) :
  keeps (pacing t0 false) c -> triple (pacing t0 false) c (paced_exit t0).
Proof.
  intros Hc m Hm. specialize (Hc m Hm).
  destruct (c m) as [[[]|e] m']; simpl in *; [exact Hc|exists false; exact Hc].
Qed.

Lemma execute_step_paced action i :
  triple (pacing t0 false) (execute_step w action i) (paced_exit t0).
Proof.
  unfold execute_step.
  eapply triple_bind;
    [apply keeps_lift| |intros e m Hm; exists false; exact Hm].
  intros target.
  eapply triple_bind with
    (R := fun r m => match r with
                     | Ok _ => pacing t0 true m
                     | Raise _ => pacing t0 false m
                     end).
  - apply triple_call; intros m; [|intros x]; intros Hm _.
    + revert Hm. apply pacing_logged; [reflexivity|intros d; discriminate].
    + apply pacing_ticked. exact Hm.
  - intros _.
    eapply triple_bind with
      (R := fun r m => match r with
                       | Ok _ => pacing t0 false m
                       | Raise _ => pacing t0 true m
                       end).
    + apply triple_call; intros m; [|intros x]; intros Hm _.
      * revert Hm. apply pacing_logged.
        -- simpl. destruct (decide (dec 1 100 = PACE)); [reflexivity|contradiction].
        -- intros d E. injection E as <-. reflexivity.
      * apply pacing_ticked. exact Hm.
    + intros _. apply keeps_paced_exit.
      apply keeps_bind; [apply keeps_get_all_camera_images|]. intros imgs.
      apply keeps_bind; [apply keeps_view_imgs|]. intros _.
      apply keeps_bind; [apply keeps_get_current_state|]. intros state.
      apply keeps_bind; [apply keeps_quiet_call; reflexivity|]. intros _.
      apply keeps_for_each. intros j. apply keeps_log_joint.
    + intros e m Hm. exists true. exact Hm.
  - intros e m Hm. exists false. exact Hm.
Qed.

Lemma iteration_paced li H :
  triple (pacing t0 false) (iteration w li H) (paced_exit t0).
Proof.
  unfold iteration.
  eapply triple_bind; [apply keeps_get_all_camera_images| |intros e m Hm; exists false; exact Hm].
  intros imgs.
  eapply triple_bind; [apply keeps_view_imgs| |intros e m Hm; exists false; exact Hm].
  intros ?.
  eapply triple_bind; [apply keeps_get_current_state| |intros e m Hm; exists false; exact Hm].
  intros state.
  eapply triple_bind; [apply keeps_client_get_action| |intros e m Hm; exists false; exact Hm].
  intros action.
  apply triple_for_each; [|intros m Hm; exact Hm].
  intros i m Hm. pose proof (execute_step_paced action i m Hm) as Hs.
  destruct (execute_step w action i m) as [[[]|e] m']; exact Hs.
Qed.

Lemma main_loop_paced li N H :
  triple (pacing t0 false) (main_loop w li N H) (paced_exit t0).
Proof.
  unfold main_loop. apply triple_for_each; [|intros m Hm; exact Hm].
  intros i m Hm. pose proof (iteration_paced li H m Hm) as Hs.
  destruct (iteration w li H m) as [[[]|e] m']; exact Hs.
Qed.
End Pacing.


(** ** Normal returns *)

Lemma appended_app (a b : list event) (m : machine) :
  appended (a ++ b) m = appended b (appended a m).
Proof. unfold appended. apply fold_left_app. Qed.

Lemma appended_self (seg : list event) (m : machine) :
  self (appended seg m) = self m.
Proof.
  revert m. induction seg as [|e seg IH]; intros m; [reflexivity|].
  simpl. change (self (appended seg (logged e m)) = self m). rewrite IH. reflexivity.
Qed.

Lemma appended_trace (seg : list event) (m : machine) :
  trace (appended seg m) = trace m ++ seg.
Proof.
  revert m. induction seg as [|e seg IH]; intros m.
  - simpl. rewrite app_nil_r. reflexivity.
  - change (trace (appended seg (logged e m)) = trace m ++ e :: seg).
    rewrite IH. simpl. rewrite <- app_assoc. reflexivity.
Qed.

Section Returns.
Variable w : world.

Lemma yields_bind {A B} (c : M A) (k : A -> M B) m b m2 :
  yields (bind c k) m b m2 ->
  exists a m1, yields c m a m1 /\ yields (k a) m1 b m2.
Proof.
  unfold yields, bind. destruct (c m) as [[a|e] m1]; [|discriminate].
  intros H. exists a, m1. split; [reflexivity|exact H].
Qed.

Lemma yields_ret {A} (a a' : A) m m' : yields (ret a) m a' m' -> a' = a /\ m' = m.
Proof. unfold yields, ret. intros H. injection H as <- <-. auto. Qed.

Lemma yields_lift {A} (r : result A) (a : A) m m' :
  yields (lift r) m a m' -> r = Ok a /\ m' = m.
Proof. unfold yields, lift. intros H. injection H as -> <-. auto. Qed.

Lemma yields_get_self s m m' : yields get_self m s m' -> s = self m /\ m' = m.
Proof. unfold yields, get_self. intros H. injection H as <- <-. auto. Qed.

Lemma yields_call_with {A} (e : event) (answer : nat -> A) (a : A) m m' :
  yields (call_with w e answer) m a m' ->
  fault w (ticks m) = None /\ a = answer (ticks m) /\ m' = appended [e] m.
Proof.
  unfold yields, call_with. destruct (fault w (ticks m)); [discriminate|].
  intros H. injection H as <- <-. auto.
Qed.

Lemma yields_call (e : event) (u : unit) m m' :
  yields (call w e) m u m' -> m' = appended [e] m.
Proof. intros H. apply yields_call_with in H as (_ & _ & ->). reflexivity. Qed.

Lemma yields_for_each {A} (body : A -> M unit) (events : A -> list event)
    (l : list A) :
  (forall x m m', yields (body x) m tt m' -> m' = appended (events x) m) ->
  forall m m', yields (for_each l body) m tt m' ->
               m' = appended (flat_map events l) m.
Proof.
  intros Hbody. induction l as [|x l IH]; intros m m' H; simpl in *.
  - apply yields_ret in H as [_ ->]. reflexivity.
  - apply yields_bind in H as ([] & m1 & H1 & H2).
    apply Hbody in H1 as ->. apply IH in H2 as ->.
    rewrite appended_app. reflexivity.
Qed.

(** In a calm world a call returns. *)
Lemma calm_call_with {A} (e : event) (answer : nat -> A) m :
  calm w -> call_with w e answer m = (Ok (answer (ticks m)), appended [e] m).
Proof. intros Hc. unfold call_with. rewrite Hc. reflexivity. Qed.

Lemma calm_call (e : event) m : calm w -> call w e m = (Ok tt, appended [e] m).
Proof. apply calm_call_with. Qed.

Lemma yields_set_so100_robot_preset (bus : MotorsBus) m m' :
  yields (set_so100_robot_preset w bus) m tt m' ->
  m' = appended (preset_events bus) m.
Proof.
  unfold set_so100_robot_preset. intros H.
  repeat (apply yields_bind in H as ([] & ? & ?%yields_call & H); subst).
  apply yields_call in H. subst. reflexivity.
Qed.

Lemma calm_set_so100_robot_preset (bus : MotorsBus) m :
  calm w ->
  set_so100_robot_preset w bus m = (Ok tt, appended (preset_events bus) m).
Proof.
  intros Hc. unfold set_so100_robot_preset, bind.
  repeat rewrite (calm_call _ _ Hc). reflexivity.
Qed.

Lemma calm_for_each {A} (body : A -> M unit) (events : A -> list event)
    (l : list A) :
  (forall x m, body x m = (Ok tt, appended (events x) m)) ->
  forall m, for_each l body m = (Ok tt, appended (flat_map events l) m).
Proof.
  intros Hbody. induction l as [|x l IH]; intros m; simpl; [reflexivity|].
  unfold bind. rewrite Hbody, IH, appended_app. reflexivity.
Qed.
End Returns.

(** ** Connecting *)

Lemma flat_map_dict_values {V} (f : V -> list event) (d : dict V) :
  flat_map (fun kv : string * V => f kv.2) d = flat_map f (dict_values d).
Proof.
  induction d as [|[k v] d IH]; simpl; [reflexivity|]. rewrite IH. reflexivity.
Qed.

(** C8.  [connect] on a robot whose [is_connected] flag is set raises
    [RobotDeviceAlreadyConnectedError] and leaves the machine as it was: no
    library call, so no write to a motor bus.  On a robot whose flag is
    clear, a [connect] that returns has called [robot.connect()], then for
    every follower arm, in order, written the seven preset registers and
    read the present position, and has set the flag; and it does return
    when no library call raises. *)
Theorem connect_guard_and_preset (w : world) (m : machine) :
  (is_connected (robot (self m)) = true ->
   connect w m = (Raise RobotDeviceAlreadyConnectedError, m)) /\
  (is_connected (robot (self m)) = false ->
   forall m', yields (connect w) m tt m' ->
     trace m' = trace m ++ connect_events (follower_arms (self m)) /\
     is_connected (robot (self m')) = true /\
     follower_arms (self m') = follower_arms (self m)) /\
  (is_connected (robot (self m)) = false -> calm w ->
   exists m', yields (connect w) m tt m').
Proof.
  split; [|split].
  - intros Hc. unfold connect, bind, get_self. rewrite Hc. reflexivity.
  - intros Hc m' H. unfold connect in H.
    apply yields_bind in H as (s & m0 & [-> ->]%yields_get_self & H).
    rewrite Hc in H.
    apply yields_bind in H as ([] & m1 & ->%yields_call & H).
    apply yields_bind in H as ([] & m2 & Hloop & Hset).
    apply (yields_for_each _
             (fun kv => preset_events kv.2 ++ [BusRead kv.2 "Present_Position"])) in Hloop.
    + subst m2. unfold yields, set_is_connected in Hset. injection Hset as <-.
      cbn [self trace robot is_connected with_robot with_is_connected follower_arms].
      rewrite appended_self, !appended_trace. unfold connect_events.
      rewrite <- (flat_map_dict_values
                    (fun arm => preset_events arm ++ [BusRead arm "Present_Position"])).
      split; [|split; reflexivity].
      cbn [trace logged]. rewrite <- app_assoc. reflexivity.
    + intros [name arm] ma mb Hb.
      apply yields_bind in Hb as ([] & mc & ->%yields_set_so100_robot_preset & Hr).
      apply yields_call in Hr as ->. rewrite appended_app. reflexivity.
  - intros Hc Hcalm. unfold yields, connect.
    unfold bind at 1. unfold get_self. cbn beta iota. rewrite Hc.
    unfold bind at 1. rewrite (calm_call _ _ _ Hcalm).
    unfold bind at 1.
    rewrite (calm_for_each _
               (fun kv => preset_events kv.2 ++ [BusRead kv.2 "Present_Position"])).
    + eexists. reflexivity.
    + intros [name arm] ma. unfold bind.
      rewrite (calm_set_so100_robot_preset _ _ _ Hcalm), (calm_call _ _ _ Hcalm).
      rewrite appended_app. reflexivity.
Qed.

Lemma connect_guard_and_preset_witness :
  exists m',
    yields (connect Bench.calm) (Bench.boot Bench.so100) tt m' /\
    is_connected (robot (self m')) = true.
Proof.
  destruct (connect_guard_and_preset Bench.calm (Bench.boot Bench.so100))
    as (_ & Hshape & Hreturns).
  destruct (Hreturns eq_refl (fun n => eq_refl)) as [m' Hm'].
  exists m'. split; [exact Hm'|].
  apply (Hshape eq_refl m' Hm').
Defined.

(** ** The fixed poses *)

Lemma tensor_repeat_length (k : nat) (t : list scalar) :
  length (tensor_repeat k t) = (k * length t)%nat.
Proof.
  unfold tensor_repeat. induction k as [|k IH]; simpl; [reflexivity|].
  rewrite length_app, IH. reflexivity.
Qed.

(** C7.  A [move_to_initial_pose] that returns has captured two
    observations and then sent the six hard-coded numbers of the initial
    pose repeated once per follower arm, whatever was captured; a [go_home]
    that returns has sent the six numbers of the home pose repeated once
    per follower arm.  With [k] follower arms the tensor sent has [6 * k]
    elements.  Both return when no library call raises. *)
Theorem poses_repeated_per_arm (w : world) (m : machine) :
  let k := length (follower_arms (self m)) in
  let k' := length (robot_follower_arms (robot (self m))) in
  (forall m', yields (move_to_initial_pose w) m tt m' ->
     trace m' = trace m ++
       [CaptureObservation; CaptureObservation;
        SendAction (tensor_repeat k INITIAL_POSE); Sleep (dec 2 1)]) /\
  (forall m', yields (go_home w) m tt m' ->
     trace m' = trace m ++
       [SendAction (tensor_repeat k' HOME_POSE); Sleep (dec 2 1)]) /\
  length (tensor_repeat k INITIAL_POSE) = (6 * k)%nat /\
  length (tensor_repeat k' HOME_POSE) = (6 * k')%nat /\
  (calm w ->
   exists m1 m2, yields (move_to_initial_pose w) m tt m1 /\ yields (go_home w) m tt m2).
Proof.
  intros k k'. repeat split.
  - intros m' H. unfold move_to_initial_pose in H.
    apply yields_bind in H as (s & m0 & [-> ->]%yields_get_self & H).
    apply yields_bind in H as (obs & m1 & (_ & _ & ->)%yields_call_with & H).
    apply yields_bind in H as (obs' & m2 & (_ & _ & ->)%yields_call_with & H).
    apply yields_bind in H as ([] & m3 & ->%yields_call & ->%yields_call).
    rewrite !appended_trace, <- !app_assoc. reflexivity.
  - intros m' H. unfold go_home, set_target_state in H.
    apply yields_bind in H as (s & m0 & [-> ->]%yields_get_self & H).
    apply yields_bind in H as ([] & m3 & ->%yields_call & ->%yields_call).
    rewrite !appended_trace, <- !app_assoc. reflexivity.
  - rewrite tensor_repeat_length. simpl. lia.
  - rewrite tensor_repeat_length. simpl. lia.
  - intros Hcalm. eexists. eexists. split.
    + unfold yields, move_to_initial_pose, capture_observation, bind, get_self.
      rewrite !(calm_call_with _ _ _ _ Hcalm), !(calm_call _ _ _ Hcalm). reflexivity.
    + unfold yields, go_home, set_target_state, bind, get_self.
      rewrite !(calm_call _ _ _ Hcalm). reflexivity.
Qed.

Lemma poses_repeated_per_arm_witness :
  exists m1,
    yields (move_to_initial_pose Bench.calm) (Bench.boot Bench.so100) tt m1 /\
    trace m1 = [CaptureObservation; CaptureObservation;
                SendAction (INITIAL_POSE ++ INITIAL_POSE); Sleep (dec 2 1)].
Proof.
  destruct (poses_repeated_per_arm Bench.calm (Bench.boot Bench.so100))
    as (Hmove & _ & _ & _ & Hreturns).
  destruct (Hreturns (fun n => eq_refl)) as (m1 & m2 & H1 & _).
  exists m1. split; [exact H1|].
  rewrite (Hmove m1 H1). reflexivity.
Defined.

(** ** Disconnecting *)

Section Disconnect.
Variable w : world.

Lemma faulty_bind {A B} (c : M A) (k : A -> M B) :
  faulty w c -> (forall a, faulty w (k a)) -> faulty w (bind c k).
Proof.
  intros Hc Hk. eapply triple_bind.
  - exact Hc.
  - intros a m _. apply Hk. exact I.
  - intros e m H. exact H.
Qed.

Lemma faulty_call e : faulty w (call w e).
Proof.
  apply triple_call.
  - intros m _ _. exact I.
  - intros m x _ F. exists (ticks m). exact F.
Qed.

Lemma faulty_for_each {A} (l : list A) (body : A -> M unit) :
  (forall x, faulty w (body x)) -> faulty w (for_each l body).
Proof.
  intros Hbody. apply triple_for_each.
  - intros x m _. specialize (Hbody x m I).
    destruct (body x m) as [[a|e] m']; [exact I|exact Hbody].
  - intros m _. exact I.
Qed.

Lemma faulty_disable : faulty w (disable w).
Proof.
  unfold disable. apply faulty_bind; [intros m _; exact I|]. intros s.
  destruct (negb (is_connected (robot s))); [intros m _; exact I|].
  apply faulty_for_each. intros [name arm]. apply faulty_call.
Qed.

Lemma faulty_disconnect_body : faulty w (disconnect_body w).
Proof.
  unfold disconnect_body. apply faulty_bind; [intros m _; exact I|]. intros s.
  destruct (is_connected (robot s)); [|intros m _; exact I].
  apply faulty_bind; [apply faulty_disable|]. intros _.
  apply faulty_bind; [apply faulty_call|]. intros _.
  intros m _. exact I.
Qed.

Lemma disconnect_unfold m :
  disconnect w m =
    match disconnect_body w m with
    | (Ok a, m1) => (Ok a, m1)
    | (Raise e, m1) => if is_Exception e then (Ok tt, m1) else (Raise e, m1)
    end.
Proof. reflexivity. Qed.

Lemma disconnect_noop m :
  is_connected (robot (self m)) = false -> disconnect w m = (Ok tt, m).
Proof.
  intros Hc. rewrite disconnect_unfold.
  unfold disconnect_body, bind, get_self. rewrite Hc. reflexivity.
Qed.

Lemma disconnect_calm m :
  calm w ->
  exists m', disconnect w m = (Ok tt, m') /\ is_connected (robot (self m')) = false.
Proof.
  intros Hcalm.
  destruct (is_connected (robot (self m))) eqn:Hc.
  - rewrite disconnect_unfold. unfold disconnect_body.
    unfold bind at 1. unfold get_self. cbn beta iota. rewrite Hc.
    unfold bind at 1. unfold disable.
    unfold bind at 1. unfold get_self. cbn beta iota. rewrite Hc. cbn [negb].
    rewrite (calm_for_each _
               (fun kv => [BusWrite kv.2 "Torque_Enable" TorqueMode_DISABLED])).
    + unfold bind. rewrite (calm_call _ _ _ Hcalm).
      eexists. split; reflexivity.
    + intros [name arm] ma. apply (calm_call _ _ _ Hcalm).
  - exists m. split; [apply disconnect_noop; exact Hc|exact Hc].
Qed.
End Disconnect.

(** C9 as stated fails on two counts.  A [KeyboardInterrupt] raised by the
    first torque write is not caught by [except Exception] and leaves
    [disconnect].  And when the second torque write raises an [Exception],
    the first [disconnect] catches it and returns with the flag still set,
    so that a second [disconnect] is not a no-op: it writes to the buses
    again, disconnects and clears the flag. *)
Lemma disconnect_lets_KeyboardInterrupt_escape :
  (disconnect (Bench.failing_at 0 KeyboardInterrupt)
     (Bench.connected (Bench.boot Bench.so100))).1 = Raise KeyboardInterrupt /\
  (let w := Bench.failing_at 1 (LibraryError "port closed") in
   let once := disconnect w (Bench.connected (Bench.boot Bench.so100)) in
   let twice := disconnect w once.2 in
   once.1 = Ok tt /\
   is_connected (robot (self once.2)) = true /\
   trace once.2 = [BusWrite Bench.main_bus "Torque_Enable" 0] /\
   is_connected (robot (self twice.2)) = false /\
   trace twice.2 =
     [BusWrite Bench.main_bus "Torque_Enable" 0;
      BusWrite Bench.main_bus "Torque_Enable" 0;
      BusWrite Bench.cv_bus "Torque_Enable" 0;
      RobotDisconnect]).
Proof. repeat split; reflexivity. Qed.

(** ** The concatenated action on the bench *)

Lemma concat_action_shape_witness :
  exists c, concat_action Bench.chunk 3 = Ok c /\ length c = 12%nat.
Proof.
  destruct (concat_action_shape Bench.chunk
              (replicate 16 Bench.arm_row) (replicate 16 Bench.gripper_step)
              (replicate 16 Bench.arm_row) (replicate 16 Bench.gripper_step) 3
              eq_refl eq_refl eq_refl eq_refl)
    as [_ Hok].
  - apply Forall_replicate. reflexivity.
  - apply Forall_replicate. reflexivity.
  - apply Forall_replicate. reflexivity.
  - apply Forall_replicate. reflexivity.
  - destruct Hok as (a & g & a' & g' & _ & _ & _ & _ & Hc & Hlen);
      [simpl; lia..|].
    eexists. split; [exact Hc|exact Hlen].
Defined.

(** ** The order of steps in the main loop *)

Lemma stepped_nil m : stepped m m [].
Proof. exists []. split; reflexivity. Qed.

Lemma stepped_one e m : stepped m (appended [e] m) [step_of e].
Proof. exists [e]. split; reflexivity. Qed.

Lemma stepped_app m1 m2 m3 s1 s2 :
  stepped m1 m2 s1 -> stepped m2 m3 s2 -> stepped m1 m3 (s1 ++ s2).
Proof.
  intros (seg1 & -> & <-) (seg2 & -> & <-). exists (seg1 ++ seg2).
  rewrite appended_app, map_app. split; reflexivity.
Qed.

Lemma stepped_self m m' s : stepped m m' s -> self m' = self m.
Proof. intros (seg & -> & _). apply appended_self. Qed.

Lemma dict_get_key {V} (k : string) (d : dict V) :
  k ∈ dict_keys d -> is_Some (dict_get k d).
Proof.
  induction d as [|[k' v] d IH]; simpl; intros Hk; [inversion Hk|].
  destruct (decide (k = k')); [eauto|].
  apply IH. apply elem_of_cons in Hk as [Hk|Hk]; [contradiction|exact Hk].
Qed.

Lemma range_length (n : nat) : length (range (Z.of_nat n)) = n.
Proof. unfold range. rewrite length_map, length_seq, Nat2Z.id. reflexivity. Qed.

Lemma concat_action_length action i c :
  concat_action action i = Ok c -> length c = 12%nat.
Proof.
  unfold concat_action.
  destruct (modality_parts action MODALITY_KEYS i) as [parts|]; [|discriminate].
  simpl. destruct (decide _) as [Hlen|]; [|discriminate].
  intros H. injection H as <-. exact Hlen.
Qed.

Section Order.
Variable w : world.

Lemma yields_for_each_steps {A} (body : A -> M unit) (steps : list step)
    (l : list A) :
  (forall x m m', yields (body x) m tt m' -> stepped m m' steps) ->
  forall m m', yields (for_each l body) m tt m' ->
               stepped m m' (concat (replicate (length l) steps)).
Proof.
  intros Hbody. induction l as [|x l IH]; intros m m' H; simpl in *.
  - apply yields_ret in H as [_ ->]. apply stepped_nil.
  - apply yields_bind in H as ([] & m1 & H1 & H2).
    eapply stepped_app; [exact (Hbody _ _ _ H1)|exact (IH _ _ H2)].
Qed.

Lemma get_current_state_steps m st m' :
  yields (get_current_state w) m st m' -> stepped m m' [Sense].
Proof.
  unfold get_current_state, get_observation, capture_observation. intros H.
  apply yields_bind in H as (obs & m1 & (_ & _ & ->)%yields_call_with & H).
  apply yields_ret in H as [_ ->]. apply (stepped_one CaptureObservation).
Qed.

Lemma get_current_img_steps name m img m' :
  name ∈ dict_keys (cameras (robot (self m))) ->
  yields (get_current_img w name) m img m' -> stepped m m' [Sense; Convert].
Proof.
  intros Hname H. unfold get_current_img in H.
  apply yields_bind in H as (s & m0 & [-> ->]%yields_get_self & H).
  destruct (dict_get_key _ _ Hname) as [cam Hcam]. rewrite Hcam in H.
  unfold get_observation, capture_observation in H.
  apply yields_bind in H as (obs & m1 & (_ & _ & ->)%yields_call_with & H).
  cbv zeta in H.
  match type of H with
  | context [observation_images obs !! ?k] =>
      destruct (observation_images obs !! k) as [f|]; [|discriminate]
  end.
  apply yields_bind in H as (f' & m2 & (_ & _ & ->)%yields_call_with & H).
  apply yields_ret in H as [_ ->].
  eapply (stepped_app _ _ _ [Sense] [Convert]).
  - apply (stepped_one CaptureObservation).
  - apply (stepped_one (CvtColor f)).
Qed.

Lemma collect_images_steps names : forall images m imgs m',
  (forall n, n ∈ names -> n ∈ dict_keys (cameras (robot (self m)))) ->
  NoDup (dict_keys images ++ names) ->
  yields (collect_images w names images) m imgs m' ->
  stepped m m' (sweep_steps (length names)) /\
  dict_keys imgs = dict_keys images ++ names.
Proof.
  induction names as [|n names IH]; intros images m imgs m' Hin Hnd H; simpl in H.
  - apply yields_ret in H as [-> ->]. rewrite app_nil_r.
    split; [apply stepped_nil|reflexivity].
  - apply yields_bind in H as (img & m1 & H1 & H2).
    apply get_current_img_steps in H1; [|apply Hin; left].
    assert (Hfresh : n ∉ dict_keys images).
    { apply NoDup_app in Hnd as (_ & Hdisj & _).
      intros Hn. apply (Hdisj n Hn). left. }
    apply IH in H2 as [Hst Hkeys].
    + split.
      * exact (stepped_app _ _ _ _ _ H1 Hst).
      * rewrite Hkeys, dict_set_fresh by exact Hfresh.
        unfold dict_keys. rewrite map_app, <- app_assoc. reflexivity.
    + intros n' Hn'. rewrite (stepped_self _ _ _ H1). apply Hin. right. exact Hn'.
    + rewrite dict_set_fresh by exact Hfresh.
      unfold dict_keys in *. rewrite map_app, <- app_assoc. exact Hnd.
Qed.

Lemma get_all_camera_images_steps m imgs m' :
  NoDup (dict_keys (cameras (robot (self m)))) ->
  yields (get_all_camera_images w) m imgs m' ->
  stepped m m' (sweep_steps (length (cameras (robot (self m))))) /\
  length imgs = length (cameras (robot (self m))).
Proof.
  intros Hnd H. unfold get_all_camera_images in H.
  apply yields_bind in H as (s & m0 & [-> ->]%yields_get_self & H).
  apply collect_images_steps in H as [Hst Hkeys]; [|auto|exact Hnd].
  unfold dict_keys in *. rewrite length_map in Hst. split; [exact Hst|].
  simpl in Hkeys. rewrite <- (length_map fst imgs), Hkeys, length_map. reflexivity.
Qed.

Lemma show_each_steps rows cols imgs : forall i m m',
  yields (show_each w rows cols i imgs) m tt m' ->
  stepped m m' (replicate (3 * length imgs) Display).
Proof.
  induction imgs as [|img imgs IH]; intros i m m' H; simpl in H.
  - apply yields_ret in H as [_ ->]. apply stepped_nil.
  - apply yields_bind in H as ([] & m1 & ->%yields_call & H).
    apply yields_bind in H as ([] & m2 & ->%yields_call & H).
    apply yields_bind in H as ([] & m3 & ->%yields_call & H).
    apply IH in H.
    replace (3 * length (img :: imgs))%nat with (3 + 3 * length imgs)%nat
      by (simpl; lia).
    eapply (stepped_app _ _ _ [Display; Display; Display] _); [|exact H].
    eapply (stepped_app _ _ _ [Display] [Display; Display]);
      [apply (stepped_one (PltSubplot rows cols (i + 1)))|].
    eapply (stepped_app _ _ _ [Display] [Display]);
      [apply (stepped_one (PltImshow img))|apply (stepped_one PltAxisOff)].
Qed.

Lemma view_imgs_steps imgs m m' :
  yields (view_imgs w imgs) m tt m' ->
  stepped m m' (viewer_steps (length (imgs_list imgs))).
Proof.
  unfold view_imgs. intros H.
  apply yields_bind in H as ([rows cols] & m0 & [_ ->]%yields_lift & H).
  apply yields_bind in H as ([] & m1 & H1%show_each_steps & H).
  apply yields_bind in H as ([] & m2 & ->%yields_call & ->%yields_call).
  unfold viewer_steps. rewrite replicate_add.
  eapply (stepped_app _ _ _ _ _ H1).
  eapply (stepped_app _ _ _ [Display] [Display]);
    [apply (stepped_one (PltPause (dec 1 1000)))|apply (stepped_one PltClf)].
Qed.

Lemma log_joint_steps state target j m m' :
  yields (log_joint w state target j) m tt m' -> stepped m m' [Log; Log].
Proof.
  unfold log_joint. intros H.
  apply yields_bind in H as (x & m0 & [_ ->]%yields_lift & H).
  apply yields_bind in H as ([] & m1 & ->%yields_call & H).
  apply yields_bind in H as (a & m2 & [_ ->]%yields_lift & ->%yields_call).
  eapply (stepped_app _ _ _ [Log] [Log]).
  - apply (stepped_one (RrLog "gr00t_so100/joint_positions" j x)).
  - apply (stepped_one (RrLog "gr00t_so100/action" j a)).
Qed.

Lemma execute_step_steps action i m m' :
  NoDup (dict_keys (cameras (robot (self m)))) ->
  yields (execute_step w action i) m tt m' ->
  stepped m m' (execute_steps (length (cameras (robot (self m))))).
Proof.
  intros Hnd H. unfold execute_step, set_target_state in H.
  apply yields_bind in H as (target & m0 & [Htarget ->]%yields_lift & H).
  apply concat_action_length in Htarget.
  apply yields_bind in H as ([] & m1 & ->%yields_call & H).
  apply yields_bind in H as ([] & m2 & ->%yields_call & H).
  apply yields_bind in H as (imgs & m3 & Hsweep & H).
  apply get_all_camera_images_steps in Hsweep as [Hsweep Hlen];
    [|rewrite !appended_self; exact Hnd].
  rewrite !appended_self in Hsweep, Hlen.
  apply yields_bind in H as ([] & m4 & Hview%view_imgs_steps & H).
  simpl in Hview. unfold dict_values in Hview. rewrite length_map, Hlen in Hview.
  apply yields_bind in H as (state & m5 & Hstate%get_current_state_steps & H).
  apply yields_bind in H as ([] & m6 & ->%yields_call & H).
  apply (yields_for_each_steps _ [Log; Log]) in H;
    [|intros j ma mb; apply log_joint_steps].
  rewrite range_length, Htarget in H.
  unfold execute_steps.
  eapply (stepped_app _ _ _ [Actuate; Pause] _).
  { eapply (stepped_app _ _ _ [Actuate] [Pause]);
      [apply (stepped_one (SendAction target))|apply (stepped_one (Sleep (dec 1 100)))]. }
  eapply (stepped_app _ _ _ _ _ Hsweep).
  eapply (stepped_app _ _ _ _ _ Hview).
  eapply (stepped_app _ _ _ _ _ Hstate).
  eapply (stepped_app _ _ _ [Log] (replicate 24 Log) (stepped_one RrSetTime _)).
  exact H.
Qed.

Lemma execute_loop_steps action (l : list Z) : forall m m',
  NoDup (dict_keys (cameras (robot (self m)))) ->
  yields (for_each l (execute_step w action)) m tt m' ->
  stepped m m'
    (concat (replicate (length l)
               (execute_steps (length (cameras (robot (self m))))))).
Proof.
  induction l as [|i l IH]; intros m m' Hnd H; simpl in H.
  - apply yields_ret in H as [_ ->]. apply stepped_nil.
  - apply yields_bind in H as ([] & m1 & H1 & H2).
    apply execute_step_steps in H1; [|exact Hnd].
    apply IH in H2; [|rewrite (stepped_self _ _ _ H1); exact Hnd].
    rewrite (stepped_self _ _ _ H1) in H2.
    exact (stepped_app _ _ _ _ _ H1 H2).
Qed.

Lemma iteration_steps_spec li H m m' :
  NoDup (dict_keys (cameras (robot (self m)))) ->
  yields (iteration w li H) m tt m' ->
  stepped m m' (iteration_steps (length (cameras (robot (self m)))) (Z.to_nat H)).
Proof.
  intros Hnd Hy. unfold iteration in Hy.
  apply yields_bind in Hy as (imgs & m1 & Hsweep & Hy).
  apply get_all_camera_images_steps in Hsweep as [Hsweep Hlen]; [|exact Hnd].
  pose proof (stepped_self _ _ _ Hsweep) as S1.
  apply yields_bind in Hy as ([] & m2 & Hview%view_imgs_steps & Hy).
  simpl in Hview. unfold dict_values in Hview. rewrite length_map, Hlen in Hview.
  pose proof (stepped_self _ _ _ Hview) as S2.
  apply yields_bind in Hy as (state & m3 & Hstate%get_current_state_steps & Hy).
  pose proof (stepped_self _ _ _ Hstate) as S3.
  apply yields_bind in Hy as (action & m4 & Hreq & Hy).
  unfold client_get_action in Hreq.
  apply yields_bind in Hreq as (obs & m3' & [_ ->]%yields_lift & Hreq).
  apply yields_call_with in Hreq as (_ & _ & ->).
  apply execute_loop_steps in Hy;
    [|rewrite appended_self, S3, S2, S1; exact Hnd].
  rewrite appended_self, S3, S2, S1 in Hy.
  unfold range in Hy. rewrite length_map, length_seq in Hy.
  unfold iteration_steps.
  eapply (stepped_app _ _ _ _ _ Hsweep).
  eapply (stepped_app _ _ _ _ _ Hview).
  eapply (stepped_app _ _ _ [Sense; Request] _); [|exact Hy].
  eapply (stepped_app _ _ _ _ [Request] Hstate).
  apply (stepped_one (PolicyGetAction obs)).
Qed.
End Order.

(** *** Reading the step list *)

Lemma in_order_tail (p : step) (pattern steps : list step) :
  in_order (p :: pattern) steps = true -> in_order pattern steps = true.
Proof.
  revert p pattern. induction steps as [|s steps IH]; intros p pattern H.
  - discriminate.
  - destruct pattern as [|q pattern]; [reflexivity|].
    simpl in H. simpl.
    destruct (decide (p = s)) as [_|_], (decide (q = s)) as [_|_].
    + exact (IH _ _ H).
    + exact H.
    + exact (IH _ _ (IH _ _ H)).
    + exact (IH _ _ H).
Qed.

Lemma in_order_complete (pattern steps : list step) :
  pattern `sublist_of` steps -> in_order pattern steps = true.
Proof.
  induction 1 as [|x l1 l2 _ IH|x l1 l2 _ IH].
  - reflexivity.
  - simpl. destruct (decide (x = x)); [exact IH|contradiction].
  - destruct l1 as [|p l1]; [reflexivity|].
    simpl. destruct (decide (p = x)); [|exact IH].
    apply (in_order_tail p). exact IH.
Qed.

Lemma viewer_steps_head (c : nat) :
  viewer_steps c = Display :: replicate (3 * c + 1) Display.
Proof.
  unfold viewer_steps. replace (3 * c + 2)%nat with (S (3 * c + 1)) by lia.
  reflexivity.
Qed.

Lemma claimed_order_occurs (c h : nat) :
  (1 <= h)%nat -> in_order CLAIMED_ORDER (iteration_steps c h) = true.
Proof.
  intros Hh. apply in_order_complete.
  destruct h as [|h]; [lia|].
  unfold iteration_steps, CLAIMED_ORDER. simpl replicate. simpl concat.
  apply sublist_inserts_l, sublist_inserts_l.
  simpl. apply sublist_skip, sublist_skip.
  apply sublist_skip, sublist_cons, sublist_inserts_r, sublist_inserts_l.
  rewrite viewer_steps_head. simpl.
  apply sublist_skip, sublist_inserts_l, sublist_cons, sublist_skip.
  apply sublist_nil_l.
Qed.

Lemma sweep_steps_elem (c : nat) (s : step) :
  s ∈ sweep_steps c -> s = Sense \/ s = Convert.
Proof.
  unfold sweep_steps. induction c as [|c IH]; simpl; intros H.
  - inversion H.
  - apply elem_of_cons in H as [->|H]; [auto|].
    apply elem_of_cons in H as [->|H]; [auto|]. apply IH. exact H.
Qed.

Lemma nothing_sent_without_horizon (c : nat) (s : step) :
  s ∈ iteration_steps c 0 -> s <> Actuate /\ s <> Log.
Proof.
  unfold iteration_steps. simpl. intros H.
  apply elem_of_app in H as [H|H].
  { apply sweep_steps_elem in H as [->| ->]; split; discriminate. }
  apply elem_of_app in H as [H|H].
  { apply elem_of_replicate_inv in H as ->. split; discriminate. }
  apply elem_of_cons in H as [->|H]; [split; discriminate|].
  apply list_elem_of_singleton in H as ->. split; discriminate.
Qed.

(** What the head of the outline of the rest becomes after a step [s]. *)
Lemma outline_cons (s : step) (steps : list step) :
  s <> Pause -> s <> Convert ->
  outline (s :: steps) =
    s :: match outline steps with
         | [] => []
         | s' :: o => if decide (s = s') then o else s' :: o
         end.
Proof.
  intros Hp Hc. simpl.
  destruct s; try contradiction;
    destruct (outline steps) as [|s' o]; try reflexivity;
    destruct (decide _) as [<-|]; reflexivity.
Qed.

Lemma outline_replicate (s : step) (n : nat) (steps : list step) :
  s <> Pause -> s <> Convert ->
  outline (replicate (S n) s ++ steps) = outline (s :: steps).
Proof.
  intros Hp Hc. induction n as [|n IH]; [reflexivity|].
  change (replicate (S (S n)) s ++ steps) with (s :: (replicate (S n) s ++ steps)).
  rewrite outline_cons, IH, outline_cons by assumption.
  destruct (outline steps) as [|s' o].
  - destruct (decide (s = s)); [reflexivity|contradiction].
  - destruct (decide (s = s')) as [<-|Hne].
    + destruct (decide (s = s)); [reflexivity|contradiction].
    + destruct (decide (s = s)); [reflexivity|contradiction].
Qed.

Lemma outline_sweep (c : nat) (steps : list step) :
  outline (sweep_steps (S c) ++ steps) = outline (Sense :: steps).
Proof.
  unfold sweep_steps. induction c as [|c IH]; [reflexivity|].
  change (concat (replicate (S (S c)) [Sense; Convert]) ++ steps)
    with (Sense :: Convert :: (concat (replicate (S c) [Sense; Convert]) ++ steps)).
  rewrite outline_cons by discriminate.
  change (outline (Convert :: ?l)) with (outline l).
  rewrite IH, outline_cons by discriminate.
  destruct (outline steps) as [|s' o].
  - destruct (decide (Sense = Sense)); [reflexivity|contradiction].
  - destruct (decide (Sense = s')) as [<-|Hne];
      destruct (decide (Sense = Sense)); try reflexivity; contradiction.
Qed.

Lemma outline_execute (c h : nat) :
  outline (concat (replicate h (execute_steps (S c))))
  = concat (replicate h [Actuate; Sense; Display; Sense; Log]).
Proof.
  induction h as [|h IH]; [reflexivity|].
  change (concat (replicate (S h) (execute_steps (S c))))
    with (execute_steps (S c) ++ concat (replicate h (execute_steps (S c)))).
  set (rest := concat (replicate h (execute_steps (S c)))) in *.
  unfold execute_steps. rewrite <- !app_assoc.
  change ([Actuate; Pause] ++ ?l) with (Actuate :: Pause :: l).
  rewrite outline_cons by discriminate.
  change (outline (Pause :: ?l)) with (outline l).
  rewrite outline_sweep, outline_cons by discriminate.
  unfold viewer_steps. replace (3 * S c + 2)%nat with (S (3 * c + 4)) by lia.
  rewrite outline_replicate, outline_cons by discriminate.
  change ([Sense] ++ ?l) with (Sense :: l).
  rewrite outline_cons by discriminate.
  rewrite (outline_replicate Log 24), outline_cons by discriminate.
  rewrite IH.
  destruct h; reflexivity.
Qed.

Lemma outline_iteration (c h : nat) :
  outline (iteration_steps (S c) h) = iteration_outline h.
Proof.
  unfold iteration_steps.
  rewrite outline_sweep, outline_cons by discriminate.
  unfold viewer_steps. replace (3 * S c + 2)%nat with (S (3 * c + 4)) by lia.
  rewrite outline_replicate, outline_cons by discriminate.
  change ([Sense; Request] ++ ?l) with (Sense :: Request :: l).
  set (rest := concat (replicate h (execute_steps (S c)))).
  rewrite !outline_cons by discriminate.
  subst rest. rewrite outline_execute.
  destruct h; reflexivity.
Qed.

Lemma view_imgs_needs_image (w : world) (imgs : imgs_arg) m m' :
  yields (view_imgs w imgs) m tt m' -> (1 <= length (imgs_list imgs))%nat.
Proof.
  unfold view_imgs. intros H.
  apply yields_bind in H as ([rows cols] & m0 & [Hgrid _]%yields_lift & _).
  destruct (length (imgs_list imgs)); [discriminate|lia].
Qed.

(** C1, as the code has it.  A pass of the outer loop that completes makes
    its library calls in this order: a sweep of the cameras (one capture and
    one conversion each), the viewer, the capture of the state, the policy
    query, and then for each of the [ACTION_HORIZON] steps: [send_action],
    [time.sleep], a sweep of the cameras, the viewer, the capture of the
    state and the rerun log.  In outline: sense, display, sense, request,
    then [ACTION_HORIZON] times actuate, sense, display, sense, log.  With a
    horizon of at least one the order read, request, send, display, log
    occurs in the pass; with a horizon of zero or less nothing is sent and
    nothing is logged. *)
Theorem iteration_step_order (w : world) (language_instruction : string)
    (ACTION_HORIZON : Z) (m m' : machine) :
  NoDup (dict_keys (cameras (robot (self m)))) ->
  yields (iteration w language_instruction ACTION_HORIZON) m tt m' ->
  exists seg,
    trace m' = trace m ++ seg /\
    map step_of seg
      = iteration_steps (length (cameras (robot (self m)))) (Z.to_nat ACTION_HORIZON) /\
    outline (map step_of seg) = iteration_outline (Z.to_nat ACTION_HORIZON) /\
    (1 <= ACTION_HORIZON -> in_order CLAIMED_ORDER (map step_of seg) = true) /\
    (ACTION_HORIZON <= 0 ->
     (Actuate ∉ map step_of seg) /\ (Log ∉ map step_of seg)).
Proof.
  intros Hnd Hy.
  destruct (iteration_steps_spec w _ _ _ _ Hnd Hy) as (seg & -> & Hsteps).
  assert (Hcam : (1 <= length (cameras (robot (self m))))%nat).
  { unfold iteration in Hy.
    apply yields_bind in Hy as (imgs & m1 & Hsweep & Hy).
    apply get_all_camera_images_steps in Hsweep as [_ Hlen]; [|exact Hnd].
    apply yields_bind in Hy as ([] & m2 & Hview%view_imgs_needs_image & _).
    simpl in Hview. unfold dict_values in Hview.
    rewrite length_map, Hlen in Hview. exact Hview. }
  exists seg. rewrite Hsteps. split; [apply appended_trace|].
  split; [reflexivity|]. split; [|split].
  - destruct (length (cameras (robot (self m)))) as [|c]; [lia|].
    apply outline_iteration.
  - intros Hh. apply claimed_order_occurs. lia.
  - intros Hh. replace (Z.to_nat ACTION_HORIZON) with 0%nat by lia.
    split; intros Hin; apply nothing_sent_without_horizon in Hin as [? ?];
      contradiction.
Qed.

Lemma iteration_step_order_witness :
  exists seg,
    trace (iteration Bench.calm LANGUAGE_INSTRUCTION 2
             (Bench.connected (Bench.boot Bench.so100))).2 = seg /\
    outline (map step_of seg) = iteration_outline 2 /\
    in_order CLAIMED_ORDER (map step_of seg) = true.
Proof.
  assert (Hnd : NoDup (dict_keys (cameras (robot (self
                  (Bench.connected (Bench.boot Bench.so100))))))).
  { apply (bool_decide_unpack _). vm_compute. exact I. }
  assert (Hy : yields (iteration Bench.calm LANGUAGE_INSTRUCTION 2)
                 (Bench.connected (Bench.boot Bench.so100)) tt
                 (iteration Bench.calm LANGUAGE_INSTRUCTION 2
                    (Bench.connected (Bench.boot Bench.so100))).2).
  { unfold yields. vm_compute. reflexivity. }
  destruct (iteration_step_order Bench.calm LANGUAGE_INSTRUCTION 2 _ _ Hnd Hy)
    as (seg & Htr & _ & Hout & Hord & _).
  exists seg. split; [exact Htr|]. split; [exact Hout|]. apply Hord. lia.
Defined.

(** C1 as stated fails on two counts.  With [--action_horizon 0] a pass
    completes without commanding the actuators, so the claimed order does
    not occur in it; and with the default horizon of 12 the pass displays
    the camera frames before it reads the state and requests an action, and
    then commands the actuators twelve times for one request. *)
Lemma iteration_order_differs :
  (let run := iteration Bench.calm LANGUAGE_INSTRUCTION 0
                (Bench.connected (Bench.boot Bench.so100)) in
   run.1 = Ok tt /\
   in_order CLAIMED_ORDER (map step_of (trace run.2)) = false) /\
  (let run := iteration Bench.calm LANGUAGE_INSTRUCTION 12
                (Bench.connected (Bench.boot Bench.so100)) in
   run.1 = Ok tt /\
   outline (map step_of (trace run.2)) = iteration_outline 12 /\
   outline (map step_of (trace run.2)) <> CLAIMED_ORDER).
Proof.
  split.
  - vm_compute. split; reflexivity.
  - split; [vm_compute; reflexivity|].
    split; [vm_compute; reflexivity|].
    vm_compute. discriminate.
Qed.


(** * Further properties *)

(** ** Sequences of library calls *)

Section Performs.
Variable w : world.

Lemma performs_ret : performs (ret tt) [].
Proof.
  intros m. unfold made. exists []. simpl. rewrite app_nil_r. repeat split. left. auto.
Qed.

Lemma performs_call (e : event) : performs (call w e) [e].
Proof.
  intros m. unfold made, call, call_with.
  destruct (fault w (ticks m)) as [x|]; simpl.
  - exists []. rewrite app_nil_r. repeat split.
    right. exists x, [e]. repeat split. discriminate.
  - exists [e]. repeat split. left. auto.
Qed.

Lemma performs_seq (c k : M unit) (es1 es2 : list event) :
  performs c es1 -> performs k es2 -> performs (c ;;; k) (es1 ++ es2).
Proof.
  intros Hc Hk m. unfold made, bind.
  destruct (Hc m) as (seg1 & Htr1 & Hself1 & H1).
  destruct (c m) as [[[]|e] m1]; simpl in *.
  - destruct H1 as [[_ ->]|(e & rest & Hr & _)]; [|discriminate].
    destruct (Hk m1) as (seg2 & Htr2 & Hself2 & H2).
    exists (es1 ++ seg2). rewrite Htr2, Htr1, Hself2, Hself1, <- app_assoc.
    repeat split.
    destruct H2 as [[Hok ->]|(e & rest & Hr & -> & Hne)].
    + left. auto.
    + right. exists e, rest. rewrite <- app_assoc. auto.
  - destruct H1 as [[Hok _]|(e' & rest & Hr & -> & Hne)]; [discriminate|].
    exists seg1. repeat split; try assumption.
    right. exists e', (rest ++ es2). rewrite <- app_assoc.
    repeat split; try assumption.
    destruct rest; [contradiction|discriminate].
Qed.

Lemma performs_for_each {A} (body : A -> M unit) (events : A -> list event)
    (l : list A) :
  (forall x, performs (body x) (events x)) ->
  performs (for_each l body) (flat_map events l).
Proof.
  intros Hbody. induction l as [|x l IH]; simpl.
  - apply performs_ret.
  - apply performs_seq; [apply Hbody|exact IH].
Qed.

Lemma performs_preset (bus : MotorsBus) :
  performs (set_so100_robot_preset w bus) (preset_events bus).
Proof.
  unfold set_so100_robot_preset, preset_events.
  repeat (apply (performs_seq _ _ [_]); [apply performs_call|]).
  apply performs_call.
Qed.

Lemma torque_events_flat_map (value : Z) (arms : dict MotorsBus) :
  flat_map (fun kv : string * MotorsBus => [BusWrite kv.2 "Torque_Enable" value]) arms
  = torque_events value arms.
Proof.
  unfold torque_events, dict_values.
  induction arms as [|[k a] arms IH]; simpl; [reflexivity|]. rewrite IH. reflexivity.
Qed.

Lemma performs_torque (value : Z) (arms : dict MotorsBus) :
  performs (for_each arms (fun '(arm_name, arm) =>
              call w (BusWrite arm "Torque_Enable" value)))
           (torque_events value arms).
Proof.
  rewrite <- torque_events_flat_map.
  apply performs_for_each. intros [name arm]. apply performs_call.
Qed.

Lemma performs_connect_calls (arms : dict MotorsBus) :
  performs (call w RobotConnect ;;;
            for_each arms (fun '(arm_name, arm) =>
              set_so100_robot_preset w arm ;;;
              call w (BusRead arm "Present_Position")))
           (connect_events arms).
Proof.
  unfold connect_events.
  rewrite <- (flat_map_dict_values
                (fun arm => preset_events arm ++ [BusRead arm "Present_Position"])).
  apply (performs_seq _ _ [RobotConnect]); [apply performs_call|].
  apply performs_for_each. intros [name arm].
  apply performs_seq; [apply performs_preset|apply performs_call].
Qed.

Lemma bind_assoc {A B C} (c : M A) (k : A -> M B) (h : B -> M C) (m : machine) :
  bind (bind c k) h m = bind c (fun a => bind (k a) h) m.
Proof. unfold bind. destruct (c m) as [[a|e] m1]; reflexivity. Qed.
End Performs.

(** ** Connecting and disconnecting under failures *)

Section Switching.
Variable w : world.

Lemma disable_connected m :
  is_connected (robot (self m)) = true ->
  disable w m =
    for_each (follower_arms (self m)) (fun '(arm_name, arm) =>
      call w (BusWrite arm "Torque_Enable" TorqueMode_DISABLED)) m.
Proof.
  intros Hc. unfold disable, bind, get_self. rewrite Hc. reflexivity.
Qed.

Lemma enable_connected m :
  is_connected (robot (self m)) = true ->
  enable w m =
    for_each (follower_arms (self m)) (fun '(arm_name, arm) =>
      call w (BusWrite arm "Torque_Enable" TorqueMode_ENABLED)) m.
Proof.
  intros Hc. unfold enable, bind, get_self. rewrite Hc. reflexivity.
Qed.

Lemma performs_disconnect_calls (arms : dict MotorsBus) :
  performs (for_each arms (fun '(arm_name, arm) =>
              call w (BusWrite arm "Torque_Enable" TorqueMode_DISABLED)) ;;;
            call w RobotDisconnect)
           (disconnect_events arms).
Proof.
  unfold disconnect_events.
  apply performs_seq; [apply performs_torque|apply performs_call].
Qed.

Lemma disconnect_body_connected m :
  is_connected (robot (self m)) = true ->
  disconnect_body w m =
    bind (for_each (follower_arms (self m)) (fun '(arm_name, arm) =>
            call w (BusWrite arm "Torque_Enable" TorqueMode_DISABLED)) ;;;
          call w RobotDisconnect)
         (fun _ => set_is_connected false) m.
Proof.
  intros Hc. rewrite bind_assoc. unfold disconnect_body.
  unfold bind at 1. unfold get_self. cbn beta iota. rewrite Hc.
  unfold bind at 1 3. rewrite (disable_connected m Hc). reflexivity.
Qed.
End Switching.

(** ** The context manager *)

Section Session.
Variable w : world.
Hypothesis Hcalm : calm w.

Lemma connect_calm m :
  is_connected (robot (self m)) = false ->
  connect w m =
    set_is_connected true (appended (connect_events (follower_arms (self m))) m).
Proof.
  intros Hc. unfold connect.
  unfold bind at 1. unfold get_self. cbn beta iota. rewrite Hc.
  unfold bind at 1. rewrite (calm_call _ _ _ Hcalm).
  unfold bind at 1.
  rewrite (calm_for_each _
             (fun kv => preset_events kv.2 ++ [BusRead kv.2 "Present_Position"])).
  - rewrite <- appended_app. unfold connect_events.
    rewrite <- (flat_map_dict_values
                  (fun arm => preset_events arm ++ [BusRead arm "Present_Position"])).
    reflexivity.
  - intros [name arm] ma. unfold bind.
    rewrite (calm_set_so100_robot_preset _ _ _ Hcalm), (calm_call _ _ _ Hcalm).
    rewrite appended_app. reflexivity.
Qed.

Lemma move_to_initial_pose_calm m :
  move_to_initial_pose w m =
    (Ok tt, appended (initial_pose_events (length (follower_arms (self m)))) m).
Proof.
  unfold move_to_initial_pose, capture_observation, bind, get_self.
  rewrite !(calm_call_with _ _ _ _ Hcalm), !(calm_call _ _ _ Hcalm). reflexivity.
Qed.

Lemma disconnect_calm_connected m :
  is_connected (robot (self m)) = true ->
  disconnect w m =
    set_is_connected false (appended (disconnect_events (follower_arms (self m))) m).
Proof.
  intros Hc. rewrite disconnect_unfold, (disconnect_body_connected w m Hc).
  unfold bind at 1. unfold bind at 1.
  rewrite (calm_for_each _
             (fun kv : string * MotorsBus =>
                [BusWrite kv.2 "Torque_Enable" TorqueMode_DISABLED])).
  - rewrite (calm_call _ _ _ Hcalm), <- appended_app, torque_events_flat_map.
    reflexivity.
  - intros [name arm] ma. apply (calm_call _ _ _ Hcalm).
Qed.
End Session.

(** X4.  Entering [activate] on a robot that is already connected never
    runs the body of the [with] statement: [connect] raises at once, and
    the [finally] clause disconnects the robot that was connected before.
    When no library call raises, the statement ends with
    [RobotDeviceAlreadyConnectedError], torque switched off on every
    follower arm, the robot disconnected and the flag cleared. *)
Theorem activate_on_connected_robot (w : world) (A : Type) (body body' : M A)
    (m : machine) :
  is_connected (robot (self m)) = true ->
  activate w body m = activate w body' m /\
  (activate w body m).2 = (disconnect w m).2 /\
  (calm w ->
   exists m',
     activate w body m = (Raise RobotDeviceAlreadyConnectedError, m') /\
     trace m' = trace m ++ disconnect_events (follower_arms (self m)) /\
     is_connected (robot (self m')) = false).
Proof.
  intros Hc.
  assert (E : forall b : M A,
    activate w b m =
      match disconnect w m with
      | (Ok _, m2) => (Raise RobotDeviceAlreadyConnectedError, m2)
      | (Raise e, m2) => (Raise e, m2)
      end).
  { intros b. unfold activate, try_finally.
    unfold bind at 1. unfold connect. unfold bind at 1. unfold get_self.
    cbn beta iota. rewrite Hc. reflexivity. }
  split; [rewrite !E; reflexivity|]. split.
  - rewrite E. destruct (disconnect w m) as [[[]|e] m2]; reflexivity.
  - intros Hcalm. rewrite E, (disconnect_calm_connected w Hcalm m Hc).
    unfold set_is_connected. eexists. split; [reflexivity|].
    cbn [trace self robot is_connected with_robot with_is_connected].
    split; [apply appended_trace|reflexivity].
Qed.

Lemma activate_on_connected_robot_witness :
  exists m',
    activate Bench.calm (ret tt) (Bench.connected (Bench.boot Bench.so100))
      = (Raise RobotDeviceAlreadyConnectedError, m') /\
    trace m' = [] ++ disconnect_events (follower_arms Bench.so100) /\
    is_connected (robot (self m')) = false.
Proof.
  destruct (activate_on_connected_robot Bench.calm unit (ret tt) (ret tt)
              (Bench.connected (Bench.boot Bench.so100)) eq_refl)
    as (_ & _ & H).
  apply H. intros n. reflexivity.
Defined.

(** X5.  When no library call raises and the robot is not connected, the
    body of [with robot.activate()] starts on a robot that was connected,
    given its presets and sent to the initial pose, in this order and with
    the flag set; whatever the body does, the statement then ends with
    [disconnect]. *)
Theorem activate_prepares_robot (w : world) (A : Type) (body : M A) (m : machine) :
  calm w ->
  is_connected (robot (self m)) = false ->
  exists m1,
    activate w body m = try_finally body (disconnect w) m1 /\
    trace m1 = trace m ++ connect_events (follower_arms (self m))
                       ++ initial_pose_events (length (follower_arms (self m))) /\
    self m1 = with_robot (with_is_connected true (robot (self m))) (self m) /\
    is_connected (robot (self (activate w body m).2)) = false.
Proof.
  intros Hcalm Hc.
  set (m0 := (set_is_connected true
                (appended (connect_events (follower_arms (self m))) m)).2).
  exists (appended (initial_pose_events (length (follower_arms (self m)))) m0).
  assert (E : activate w body m =
              try_finally body (disconnect w)
                (appended (initial_pose_events (length (follower_arms (self m)))) m0)).
  { unfold activate, try_finally. unfold bind at 1.
    rewrite (connect_calm w Hcalm m Hc). unfold set_is_connected at 1.
    unfold bind at 1. rewrite (move_to_initial_pose_calm w Hcalm).
    subst m0. cbn [snd self follower_arms with_robot set_is_connected].
    rewrite appended_self. reflexivity. }
  split; [exact E|]. split; [|split].
  - rewrite appended_trace. subst m0. cbn [snd trace set_is_connected].
    rewrite appended_trace, <- app_assoc. reflexivity.
  - rewrite appended_self. subst m0. cbn [snd self set_is_connected].
    rewrite appended_self. reflexivity.
  - rewrite E. unfold try_finally.
    destruct (body _) as [r m2].
    destruct (disconnect_calm w m2 Hcalm) as (m3 & -> & Hm3). exact Hm3.
Qed.

Lemma activate_prepares_robot_witness :
  exists m1,
    activate Bench.calm (ret tt) (Bench.boot Bench.so100)
      = try_finally (ret tt) (disconnect Bench.calm) m1 /\
    trace m1 = [] ++ connect_events (follower_arms Bench.so100)
                  ++ initial_pose_events 2.
Proof.
  destruct (activate_prepares_robot Bench.calm unit (ret tt) (Bench.boot Bench.so100)
              (fun n => eq_refl) eq_refl)
    as (m1 & E & Htr & _).
  exists m1. split; [exact E|exact Htr].
Defined.

(** ** The viewer *)

Lemma confined_start (P : event -> Prop) (m : machine) : confined P (trace m) m.
Proof. exists []. rewrite app_nil_r. split; [reflexivity|constructor]. Qed.

Lemma confined_logged (P : event -> Prop) t0 e m :
  P e -> confined P t0 m -> confined P t0 (logged e m).
Proof.
  intros He (seg & Htr & Hall). exists (seg ++ [e]). simpl.
  rewrite Htr, <- app_assoc. split; [reflexivity|].
  apply Forall_app. split; [exact Hall|]. constructor; [exact He|constructor].
Qed.

Lemma keeps_confined_call {A} (w : world) (P : event -> Prop) t0 (e : event)
    (answer : nat -> A) :
  P e -> keeps (confined P t0) (call_with w e answer).
Proof.
  intros He. apply keeps_call_with.
  - intros m H. exact H.
  - intros m. apply confined_logged. exact He.
Qed.

Lemma show_each_in_grid (w : world) t0 (rows cols : Z) (imgs : list (option image)) :
  forall i,
    0 <= i -> i + Z.of_nat (length imgs) <= rows * cols -> 1 <= cols <= 3 ->
    keeps (confined subplot_in_grid t0) (show_each w rows cols i imgs).
Proof.
  induction imgs as [|img imgs IH]; intros i Hi Hfit Hcols; simpl show_each.
  - apply keeps_ret.
  - simpl length in Hfit.
    apply keeps_bind; [apply keeps_confined_call; simpl; lia|]. intros ?.
    apply keeps_bind; [apply keeps_confined_call; exact I|]. intros ?.
    apply keeps_bind; [apply keeps_confined_call; exact I|]. intros ?.
    apply IH; lia.
Qed.

(** X6.  Whatever the plot calls do, every [plt.subplot(rows, cols, index)]
    that [view_imgs] makes has its index on the grid, between 1 and
    [rows * cols], and the grid has between one and three columns. *)
Theorem view_imgs_subplots_in_grid (w : world) (imgs : imgs_arg) (m : machine) :
  exists seg,
    trace (view_imgs w imgs m).2 = trace m ++ seg /\
    Forall subplot_in_grid seg.
Proof.
  enough (H : keeps (confined subplot_in_grid (trace m)) (view_imgs w imgs))
    by exact (H m (confined_start _ m)).
  unfold view_imgs. set (l := imgs_list imgs).
  destruct (length l) as [|n] eqn:Hlen.
  { intros m0 H0. exact H0. }
  assert (Hn : 1 <= Z.of_nat (S n)) by lia.
  assert (Hc : 0 < Z.min 3 (Z.of_nat (S n))) by lia.
  assert (Hgrid : view_grid (Z.of_nat (S n)) =
                  Ok ((Z.of_nat (S n) + Z.min 3 (Z.of_nat (S n)) - 1)
                        / Z.min 3 (Z.of_nat (S n)),
                      Z.min 3 (Z.of_nat (S n)))).
  { unfold view_grid, floordiv.
    destruct (Z.eqb_spec (Z.min 3 (Z.of_nat (S n))) 0); [lia|reflexivity]. }
  rewrite Hgrid.
  pose proof (ceil_div_bounds (Z.of_nat (S n)) _ Hc) as Hb.
  set (cols := Z.min 3 (Z.of_nat (S n))) in *.
  set (rows := (Z.of_nat (S n) + cols - 1) / cols) in *.
  change (keeps (confined subplot_in_grid (trace m))
            (show_each w rows cols 0 l ;;;
             call w (PltPause (dec 1 1000)) ;;; call w PltClf)).
  apply keeps_bind.
  - apply show_each_in_grid; [lia|rewrite Hlen; lia|lia].
  - intros ?. apply keeps_bind; [apply keeps_confined_call; exact I|].
    intros ?. apply keeps_confined_call. exact I.
Qed.

(** X7.  [view_imgs] divides by zero on an empty list or dictionary, before
    any plot call.  So on a robot without cameras a pass of the main loop
    raises [ZeroDivisionError] without a single library call, and so does
    the loop whenever it has a pass to make. *)
Theorem main_loop_needs_cameras (w : world) (language_instruction : string)
    (ACTIONS_TO_EXECUTE ACTION_HORIZON : Z) (m : machine) :
  (forall imgs, imgs_list imgs = [] ->
     view_imgs w imgs m = (Raise ZeroDivisionError, m)) /\
  (cameras (robot (self m)) = [] ->
   iteration w language_instruction ACTION_HORIZON m = (Raise ZeroDivisionError, m) /\
   (1 <= ACTIONS_TO_EXECUTE ->
    main_loop w language_instruction ACTIONS_TO_EXECUTE ACTION_HORIZON m
      = (Raise ZeroDivisionError, m))).
Proof.
  split.
  - intros imgs Hempty. unfold view_imgs. rewrite Hempty. reflexivity.
  - intros Hcam.
    assert (Hit : iteration w language_instruction ACTION_HORIZON m
                  = (Raise ZeroDivisionError, m)).
    { unfold iteration, get_all_camera_images.
      unfold bind at 1. unfold bind at 1. unfold get_self. cbn beta iota.
      rewrite Hcam. reflexivity. }
    split; [exact Hit|].
    intros HN. unfold main_loop, range.
    destruct (Z.to_nat ACTIONS_TO_EXECUTE) as [|k] eqn:Hk; [lia|].
    simpl. unfold bind at 1. rewrite Hit. reflexivity.
Qed.

Lemma main_loop_needs_cameras_witness :
  main_loop Bench.calm LANGUAGE_INSTRUCTION 350 12 (Bench.boot Blind.so100)
    = (Raise ZeroDivisionError, Bench.boot Blind.so100).
Proof.
  destruct (main_loop_needs_cameras Bench.calm LANGUAGE_INSTRUCTION 350 12
              (Bench.boot Blind.so100)) as [_ H].
  destruct (H eq_refl) as [_ Hloop]. apply Hloop. lia.
Defined.

(** ** Camera images *)

Lemma appended_ticks (seg : list event) (m : machine) :
  ticks (appended seg m) = (ticks m + length seg)%nat.
Proof.
  revert m. induction seg as [|e seg IH]; intros m; simpl; [lia|].
  change (ticks (appended seg (logged e m)) = (ticks m + S (length seg))%nat).
  rewrite IH. simpl. lia.
Qed.

Lemma dict_get_set_eq {V} (k : string) (v : V) (d : dict V) :
  dict_get k (dict_set k v d) = Some v.
Proof.
  induction d as [|[k' v'] d IH]; simpl.
  - destruct (decide (k = k)); [reflexivity|contradiction].
  - destruct (decide (k = k')) as [->|Hne]; simpl.
    + destruct (decide (k' = k')); [reflexivity|contradiction].
    + destruct (decide (k = k')); [contradiction|exact IH].
Qed.

Lemma dict_get_set_ne {V} (k k' : string) (v : V) (d : dict V) :
  k <> k' -> dict_get k' (dict_set k v d) = dict_get k' d.
Proof.
  intros Hne. induction d as [|[k0 v0] d IH]; simpl.
  - destruct (decide (k' = k)); [congruence|reflexivity].
  - destruct (decide (k = k0)) as [->|Hk]; simpl.
    + destruct (decide (k' = k0)); [congruence|reflexivity].
    + destruct (decide (k' = k0)); [reflexivity|exact IH].
Qed.

Lemma dict_get_None {V} (k : string) (d : dict V) :
  k ∉ dict_keys d -> dict_get k d = None.
Proof.
  induction d as [|[k' v] d IH]; simpl; intros Hk; [reflexivity|].
  apply not_elem_of_cons in Hk as [Hne Hk].
  destruct (decide (k = k')); [contradiction|auto].
Qed.

Lemma get_current_img_returns (w : world) (camera_name : string) (m : machine)
    (img : option image) (m' : machine) :
  is_Some (dict_get camera_name (cameras (robot (self m)))) ->
  yields (get_current_img w camera_name) m img m' ->
  exists f,
    observation_images (sensed w (ticks m))
      !! String.append "observation.images." camera_name = Some f /\
    img = Some (cvtColor_BGR2RGB f) /\
    m' = appended [CaptureObservation; CvtColor f] m.
Proof.
  intros [cam Hcam] H. unfold get_current_img in H.
  apply yields_bind in H as (s & m0 & [-> ->]%yields_get_self & H).
  rewrite Hcam in H. unfold get_observation, capture_observation in H.
  apply yields_bind in H as (obs & m1 & (_ & -> & ->)%yields_call_with & H).
  cbv zeta in H.
  destruct (observation_images (sensed w (ticks m))
              !! String.append "observation.images." camera_name) as [f|];
    [|discriminate].
  apply yields_bind in H as (f' & m2 & (_ & -> & ->)%yields_call_with & H).
  apply yields_ret in H as [-> ->].
  exists f. repeat split.
Qed.

(** X8.  [get_current_img] returns [None] without touching the robot when
    the camera is not one of the robot's cameras.  For a camera of the
    robot it captures an observation; when the observation has no image
    under ["observation.images.<camera>"] it raises [KeyError] with that
    key, before any conversion; and when it returns, the result is the image
    found under that key with its channels swapped by one [cv2.cvtColor]
    call. *)
Theorem get_current_img_cases (w : world) (camera_name : string) (m : machine) :
  let key := String.append "observation.images." camera_name in
  (dict_get camera_name (cameras (robot (self m))) = None ->
   get_current_img w camera_name m = (Ok None, m)) /\
  (is_Some (dict_get camera_name (cameras (robot (self m)))) ->
   fault w (ticks m) = None ->
   observation_images (sensed w (ticks m)) !! key = None ->
   get_current_img w camera_name m
     = (Raise (KeyError key), appended [CaptureObservation] m)) /\
  (is_Some (dict_get camera_name (cameras (robot (self m)))) ->
   forall img m', yields (get_current_img w camera_name) m img m' ->
     exists f,
       observation_images (sensed w (ticks m)) !! key = Some f /\
       img = Some (cvtColor_BGR2RGB f) /\
       m' = appended [CaptureObservation; CvtColor f] m).
Proof.
  intros key. split; [|split].
  - intros Hcam. unfold get_current_img, bind, get_self. rewrite Hcam. reflexivity.
  - intros [cam Hcam] Hfault Hnone.
    unfold get_current_img. unfold bind at 1. unfold get_self. cbn beta iota.
    rewrite Hcam. unfold bind at 1.
    unfold get_observation, capture_observation, call_with. rewrite Hfault.
    cbv zeta. fold key. rewrite Hnone. reflexivity.
  - intros Hcam img m' H. exact (get_current_img_returns w _ _ _ _ Hcam H).
Qed.

Lemma get_current_img_cases_witness :
  get_current_img Bench.calm "wrist" (Bench.boot Bench.so100)
    = (Ok None, Bench.boot Bench.so100) /\
  exists f,
    observation_images (sensed Bench.calm 0) !! "observation.images.main" = Some f /\
    (get_current_img Bench.calm "main" (Bench.boot Bench.so100)).1
      = Ok (Some (cvtColor_BGR2RGB f)).
Proof.
  destruct (get_current_img_cases Bench.calm "wrist" (Bench.boot Bench.so100))
    as (Hnone & _ & _).
  destruct (get_current_img_cases Bench.calm "main" (Bench.boot Bench.so100))
    as (_ & _ & Hsome).
  split; [apply Hnone; reflexivity|].
  destruct (Hsome (ex_intro _ _ eq_refl) _ _ eq_refl) as (f & Hf & Himg & _).
  exists f. split; [exact Hf|]. simpl. injection Himg as <-.
  vm_compute in Hf. injection Hf as <-. reflexivity.
Defined.

Section Sweep.
Variable w : world.

Lemma collect_images_result names : forall images m imgs m',
  (forall n, n ∈ names -> is_Some (dict_get n (cameras (robot (self m))))) ->
  NoDup (dict_keys images ++ names) ->
  yields (collect_images w names images) m imgs m' ->
  dict_keys imgs = dict_keys images ++ names /\
  ticks m' = (ticks m + 2 * length names)%nat /\
  self m' = self m /\
  (forall k v, dict_get k images = Some v -> dict_get k imgs = Some v) /\
  (forall j name, names !! j = Some name ->
     exists f,
       observation_images (sensed w (ticks m + 2 * j))
         !! String.append "observation.images." name = Some f /\
       dict_get name imgs = Some (Some (cvtColor_BGR2RGB f))).
Proof.
  induction names as [|n names IH]; intros images m imgs m' Hcam Hnd H;
    simpl in H.
  - apply yields_ret in H as [-> ->]. rewrite app_nil_r.
    repeat split; try done; simpl; lia.
  - apply yields_bind in H as (img & m1 & H1 & H2).
    destruct (get_current_img_returns w n m _ _ (Hcam n ltac:(left)) H1)
      as (f & Hf & -> & ->).
    assert (Hfresh : n ∉ dict_keys images).
    { apply NoDup_app in Hnd as (_ & Hdisj & _).
      intros Hn. apply (Hdisj n Hn). left. }
    assert (Hnd' : NoDup (dict_keys (dict_set n (Some (cvtColor_BGR2RGB f)) images)
                          ++ names)).
    { rewrite dict_set_fresh by exact Hfresh.
      unfold dict_keys in *. rewrite map_app, <- app_assoc. exact Hnd. }
    apply IH in H2 as (Hkeys & Hticks & Hself & Hold & Hnew); [|
      intros n' Hn'; rewrite appended_self; apply Hcam; right; exact Hn'|
      exact Hnd'].
    rewrite appended_ticks in Hticks. rewrite appended_self in Hself.
    split; [|split; [|split; [|split]]].
    + rewrite Hkeys, dict_set_fresh by exact Hfresh.
      unfold dict_keys. rewrite map_app, <- app_assoc. reflexivity.
    + rewrite Hticks. simpl. lia.
    + exact Hself.
    + intros k v Hk. apply Hold.
      rewrite dict_get_set_ne; [exact Hk|].
      intros ->. rewrite (dict_get_None _ _ Hfresh) in Hk. discriminate.
    + intros [|j] name Hj.
      * injection Hj as <-. exists f.
        replace (ticks m + 2 * 0)%nat with (ticks m) by lia.
        split; [exact Hf|]. apply Hold. apply dict_get_set_eq.
      * destruct (Hnew j name Hj) as (f' & Hf' & Hget).
        exists f'. split; [|exact Hget].
        rewrite appended_ticks in Hf'. simpl in Hf'.
        replace (ticks m + 2 * S j)%nat with (ticks m + 2 + 2 * j)%nat by lia.
        exact Hf'.
Qed.
End Sweep.

(** X9.  A [get_all_camera_images] that returns has made two library calls
    per camera, a capture and a conversion, camera after camera; its
    dictionary has the names of the robot's cameras as keys, in their order,
    and under each name the image of that camera from the capture made for
    it, with the channels swapped. *)
Theorem camera_sweep_result (w : world) (m : machine)
    (imgs : dict (option image)) (m' : machine) :
  NoDup (dict_keys (cameras (robot (self m)))) ->
  yields (get_all_camera_images w) m imgs m' ->
  dict_keys imgs = dict_keys (cameras (robot (self m))) /\
  ticks m' = (ticks m + 2 * length (cameras (robot (self m))))%nat /\
  (forall j name, dict_keys (cameras (robot (self m))) !! j = Some name ->
     exists f,
       observation_images (sensed w (ticks m + 2 * j))
         !! String.append "observation.images." name = Some f /\
       dict_get name imgs = Some (Some (cvtColor_BGR2RGB f))).
Proof.
  intros Hnd H. unfold get_all_camera_images in H.
  apply yields_bind in H as (s & m0 & [-> ->]%yields_get_self & H).
  apply collect_images_result in H as (Hkeys & Hticks & _ & _ & Hnew).
  - split; [exact Hkeys|]. split; [|exact Hnew].
    rewrite Hticks. unfold dict_keys. rewrite length_map. reflexivity.
  - intros n Hn. apply dict_get_key. exact Hn.
  - exact Hnd.
Qed.

Lemma camera_sweep_result_witness :
  exists imgs m',
    yields (get_all_camera_images Bench.calm) (Bench.boot Bench.so100) imgs m' /\
    dict_keys imgs = ["webcam"; "main"; "cv"] /\
    ticks m' = 6%nat.
Proof.
  assert (Hnd : NoDup (dict_keys (cameras (robot (self (Bench.boot Bench.so100)))))).
  { apply (bool_decide_unpack _). vm_compute. exact I. }
  eexists. eexists. split; [unfold yields; vm_compute; reflexivity|].
  destruct (camera_sweep_result Bench.calm (Bench.boot Bench.so100) _ _ Hnd eq_refl)
    as (Hkeys & Hticks & _).
  split; [exact Hkeys|exact Hticks].
Defined.

(** ** The policy clients *)






(** ** What the main loop sends *)

Section Quietly.
Variable w : world.
Variable I : machine -> Prop.
Hypothesis I_ticked : forall m, I m -> I (ticked m).
Hypothesis I_quiet :
  forall e m, quiet e = true -> step_of e <> Setup -> I m -> I (logged e m).

Lemma quietly_call {A} (e : event) (answer : nat -> A) :
  quiet e = true -> step_of e <> Setup -> keeps I (call_with w e answer).
Proof.
  intros Hq Hs. apply keeps_call_with; [exact I_ticked|].
  intros m. apply I_quiet; assumption.
Qed.

Lemma quietly_get_current_state : keeps I (get_current_state w).
Proof.
  apply keeps_bind; [|intros; apply keeps_ret].
  apply quietly_call; [reflexivity|discriminate].
Qed.

Lemma quietly_get_current_img name : keeps I (get_current_img w name).
Proof.
  apply keeps_bind; [apply keeps_get_self|]. intros s.
  destruct (dict_get name (cameras (robot s))); [|apply keeps_ret].
  apply keeps_bind; [apply quietly_call; [reflexivity|discriminate]|]. intros obs.
  cbv zeta.
  match goal with
  | |- context [observation_images obs !! ?k] =>
      destruct (observation_images obs !! k); [|apply keeps_raise]
  end.
  apply keeps_bind; [apply quietly_call; [reflexivity|discriminate]|].
  intros; apply keeps_ret.
Qed.

Lemma quietly_get_all_camera_images : keeps I (get_all_camera_images w).
Proof.
  apply keeps_bind; [apply keeps_get_self|]. intros s.
  generalize (@nil (string * option image)).
  induction (dict_keys (cameras (robot s))) as [|n names IH]; intros images; simpl.
  - apply keeps_ret.
  - apply keeps_bind; [apply quietly_get_current_img|]. intros img. apply IH.
Qed.

Lemma quietly_view_imgs imgs : keeps I (view_imgs w imgs).
Proof.
  apply keeps_bind; [apply keeps_lift|]. intros [rows cols].
  apply keeps_bind.
  - generalize 0. induction (imgs_list imgs) as [|img l IH]; intros i; simpl.
    + apply keeps_ret.
    + repeat (apply keeps_bind;
                [apply quietly_call; [reflexivity|discriminate]|intros ?]).
      apply IH.
  - intros ?. apply keeps_bind; [apply quietly_call; [reflexivity|discriminate]|].
    intros ?. apply quietly_call; [reflexivity|discriminate].
Qed.

Lemma quietly_client_get_action li imgs state :
  keeps I (client_get_action w li imgs state).
Proof.
  apply keeps_bind; [apply keeps_lift|]. intros obs.
  apply quietly_call; [reflexivity|discriminate].
Qed.

Lemma quietly_log_joint state target j : keeps I (log_joint w state target j).
Proof.
  apply keeps_bind; [apply keeps_lift|]. intros x.
  apply keeps_bind; [apply quietly_call; [reflexivity|discriminate]|]. intros ?.
  apply keeps_bind; [apply keeps_lift|]. intros y.
  apply quietly_call; [reflexivity|discriminate].
Qed.

(** The part of a pass of the inner loop that follows the sleep. *)
Lemma quietly_after_sleep target :
  keeps I (imgs <- get_all_camera_images w ;;
           view_imgs w (ImgDict imgs) ;;;
           state <- get_current_state w ;;
           call w RrSetTime ;;;
           for_each (range (Z.of_nat (length target))) (log_joint w state target)).
Proof.
  apply keeps_bind; [apply quietly_get_all_camera_images|]. intros imgs.
  apply keeps_bind; [apply quietly_view_imgs|]. intros ?.
  apply keeps_bind; [apply quietly_get_current_state|]. intros state.
  apply keeps_bind; [apply quietly_call; [reflexivity|discriminate]|]. intros ?.
  apply keeps_for_each. intros j. apply quietly_log_joint.
Qed.
End Quietly.

Lemma execute_step_confined (w : world) t0 action i :
  keeps (confined loop_event t0) (execute_step w action i).
Proof.
  assert (Hq : forall e m, quiet e = true -> step_of e <> Setup ->
                 confined loop_event t0 m -> confined loop_event t0 (logged e m)).
  { intros e m Hquiet Hs. apply confined_logged.
    destruct e; try exact Hs; discriminate. }
  unfold execute_step.
  destruct (concat_action action i) as [target|e] eqn:E;
    [|intros m Hm; exact Hm].
  pose proof (concat_action_length _ _ _ E) as Hlen.
  change (keeps (confined loop_event t0)
            (set_target_state w target ;;;
             call w (Sleep (dec 1 100)) ;;;
             imgs <- get_all_camera_images w ;;
             view_imgs w (ImgDict imgs) ;;;
             state <- get_current_state w ;;
             call w RrSetTime ;;;
             for_each (range (Z.of_nat (length target))) (log_joint w state target))).
  apply keeps_bind; [apply keeps_confined_call; exact Hlen|]. intros ?.
  apply keeps_bind; [apply keeps_confined_call; simpl; discriminate|]. intros ?.
  apply quietly_after_sleep; [intros m Hm; exact Hm|exact Hq].
Qed.

Lemma main_loop_confined (w : world) t0 li N H :
  keeps (confined loop_event t0) (main_loop w li N H).
Proof.
  assert (Hq : forall e m0, quiet e = true -> step_of e <> Setup ->
                 confined loop_event t0 m0 -> confined loop_event t0 (logged e m0)).
  { intros e m0 Hquiet Hs. apply confined_logged.
    destruct e; try exact Hs; discriminate. }
  unfold main_loop. apply keeps_for_each. intros _. unfold iteration.
  apply keeps_bind;
    [apply quietly_get_all_camera_images; [intros m0 H0; exact H0|exact Hq]|].
  intros imgs.
  apply keeps_bind; [apply quietly_view_imgs; [intros m0 H0; exact H0|exact Hq]|].
  intros ?.
  apply keeps_bind;
    [apply quietly_get_current_state; [intros m0 H0; exact H0|exact Hq]|].
  intros state.
  apply keeps_bind;
    [apply quietly_client_get_action; [intros m0 H0; exact H0|exact Hq]|].
  intros action. apply keeps_for_each. intros i. apply execute_step_confined.
Qed.

(** X13.  Whatever the library calls do, the main loop makes no set-up
    call: it never connects or disconnects the robot and never reads or
    writes a motor register; and every action it sends to the actuators has
    exactly twelve numbers. *)
Theorem main_loop_calls_confined (w : world) (language_instruction : string)
    (ACTIONS_TO_EXECUTE ACTION_HORIZON : Z) (m : machine) :
  exists seg,
    trace (main_loop w language_instruction ACTIONS_TO_EXECUTE ACTION_HORIZON m).2
      = trace m ++ seg /\
    (forall e, e ∈ seg -> step_of e <> Setup) /\
    (forall t, SendAction t ∈ seg -> length t = 12%nat).
Proof.
  pose proof (main_loop_confined w (trace m) language_instruction
                ACTIONS_TO_EXECUTE ACTION_HORIZON) as Hkeeps.
  destruct (Hkeeps m (confined_start _ m)) as (seg & Htr & Hall).
  exists seg. split; [exact Htr|].
  rewrite Forall_forall in Hall. split.
  - intros e He. specialize (Hall e He). destruct e; try exact Hall; discriminate.
  - intros t Ht. exact (Hall _ Ht).
Qed.

(** ** From the policy's answer to the actuators *)

Lemma stepped_ticks m m' steps :
  stepped m m' steps -> ticks m' = (ticks m + length steps)%nat.
Proof.
  intros (seg & -> & <-). rewrite appended_ticks, length_map. reflexivity.
Qed.

Lemma sent_targets_app (a b : list event) :
  sent_targets (a ++ b) = sent_targets a ++ sent_targets b.
Proof. apply omap_app. Qed.

Lemma policy_queries_app (a b : list event) :
  policy_queries (a ++ b) = policy_queries a ++ policy_queries b.
Proof. apply omap_app. Qed.

Lemma silent_steps (seg : list event) :
  Forall (fun s => s <> Actuate /\ s <> Request) (map step_of seg) ->
  sent_targets seg = [] /\ policy_queries seg = [].
Proof.
  induction seg as [|e seg IH]; intros Hall; [split; reflexivity|].
  apply Forall_cons in Hall as [[Ha Hr] Hall].
  destruct (IH Hall) as [IHs IHq].
  destruct e; simpl in *; try contradiction; auto.
Qed.

Lemma sweep_steps_silent (c : nat) :
  Forall (fun s => s <> Actuate /\ s <> Request) (sweep_steps c).
Proof.
  apply Forall_forall. intros s Hs.
  apply sweep_steps_elem in Hs as [-> | ->]; split; discriminate.
Qed.

Lemma after_send_silent (c : nat) :
  Forall (fun s => s <> Actuate /\ s <> Request)
    ([Pause] ++ sweep_steps c ++ viewer_steps c ++ [Sense] ++ replicate 25 Log).
Proof.
  repeat apply Forall_app_2; try apply sweep_steps_silent;
    try (apply Forall_replicate; split; discriminate);
    repeat constructor; discriminate.
Qed.

Lemma before_request_silent (c : nat) :
  Forall (fun s => s <> Actuate /\ s <> Request)
    (sweep_steps c ++ viewer_steps c ++ [Sense]).
Proof.
  repeat apply Forall_app_2; try apply sweep_steps_silent;
    try (apply Forall_replicate; split; discriminate);
    repeat constructor; discriminate.
Qed.

Section Flow.
Variable w : world.

Lemma execute_step_sends action i m m' :
  NoDup (dict_keys (cameras (robot (self m)))) ->
  yields (execute_step w action i) m tt m' ->
  exists target rest,
    concat_action action i = Ok target /\
    m' = appended (SendAction target :: rest) m /\
    sent_targets rest = [] /\ policy_queries rest = [].
Proof.
  intros Hnd H. unfold execute_step, set_target_state in H.
  apply yields_bind in H as (target & m0 & [Htarget ->]%yields_lift & H).
  pose proof (concat_action_length _ _ _ Htarget) as Hlen.
  apply yields_bind in H as ([] & m1 & ->%yields_call & H).
  apply yields_bind in H as ([] & m2 & ->%yields_call & H).
  apply yields_bind in H as (imgs & m3 & Hsweep & H).
  apply get_all_camera_images_steps in Hsweep as [Hsweep Himgs];
    [|rewrite !appended_self; exact Hnd].
  rewrite !appended_self in Hsweep, Himgs.
  apply yields_bind in H as ([] & m4 & Hview%view_imgs_steps & H).
  simpl in Hview. unfold dict_values in Hview. rewrite length_map, Himgs in Hview.
  apply yields_bind in H as (state & m5 & Hstate%get_current_state_steps & H).
  apply yields_bind in H as ([] & m6 & ->%yields_call & H).
  apply (yields_for_each_steps _ [Log; Log]) in H;
    [|intros j ma mb; apply log_joint_steps].
  rewrite range_length, Hlen in H.
  pose proof (stepped_app _ _ _ _ _ Hsweep
                (stepped_app _ _ _ _ _ Hview
                   (stepped_app _ _ _ _ _ Hstate
                      (stepped_app _ _ _ [Log] _ (stepped_one RrSetTime _) H))))
    as (seg & -> & Hsteps).
  exists target, (Sleep (dec 1 100) :: seg).
  split; [exact Htarget|]. split.
  - rewrite <- appended_app. reflexivity.
  - apply (silent_steps (Sleep (dec 1 100) :: seg)).
    simpl map. rewrite Hsteps. apply (after_send_silent _).
Qed.

Lemma execute_loop_sends action (l : list Z) : forall m m',
  NoDup (dict_keys (cameras (robot (self m)))) ->
  yields (for_each l (execute_step w action)) m tt m' ->
  exists seg,
    m' = appended seg m /\
    Forall2 (fun i t => concat_action action i = Ok t) l (sent_targets seg) /\
    policy_queries seg = [].
Proof.
  induction l as [|i l IH]; intros m m' Hnd H; simpl in H.
  - apply yields_ret in H as [_ ->]. exists []. repeat split. constructor.
  - apply yields_bind in H as ([] & m1 & H1 & H2).
    apply execute_step_sends in H1 as (target & rest & Ht & -> & Hs & Hq);
      [|exact Hnd].
    apply IH in H2 as (seg & -> & Hall & Hq'); [|rewrite appended_self; exact Hnd].
    exists ((SendAction target :: rest) ++ seg).
    split; [symmetry; apply appended_app|]. split.
    + rewrite sent_targets_app. simpl. rewrite Hs. simpl.
      constructor; assumption.
    + rewrite policy_queries_app. simpl. rewrite Hq, Hq'. reflexivity.
Qed.

Lemma sweep_steps_length (c : nat) : length (sweep_steps c) = (2 * c)%nat.
Proof.
  unfold sweep_steps. induction c as [|c IH]; simpl; [reflexivity|].
  rewrite IH. lia.
Qed.

Lemma iteration_flow li H m m' :
  NoDup (dict_keys (cameras (robot (self m)))) ->
  yields (iteration w li H) m tt m' ->
  let c := length (cameras (robot (self m))) in
  let n := (ticks m + 5 * c + 3)%nat in
  exists seg imgs obs,
    m' = appended seg m /\
    dict_keys imgs = dict_keys (cameras (robot (self m))) /\
    (forall j name, dict_keys (cameras (robot (self m))) !! j = Some name ->
       exists f,
         observation_images (sensed w (ticks m + 2 * j))
           !! String.append "observation.images." name = Some f /\
         dict_get name imgs = Some (Some (cvtColor_BGR2RGB f))) /\
    build_obs_dict li imgs
      {| dtype1 := float32; data1 := observation_state (sensed w (n - 1)) |} = Ok obs /\
    policy_queries seg = [obs] /\
    Forall2 (fun i t => concat_action (inferred w n obs) i = Ok t)
      (range H) (sent_targets seg).
Proof.
  intros Hnd Hy c n. unfold iteration in Hy.
  apply yields_bind in Hy as (imgs & m1 & Hsweep & Hy).
  assert (Hpinned :
    dict_keys imgs = dict_keys (cameras (robot (self m))) /\
    (forall j name, dict_keys (cameras (robot (self m))) !! j = Some name ->
       exists f,
         observation_images (sensed w (ticks m + 2 * j))
           !! String.append "observation.images." name = Some f /\
         dict_get name imgs = Some (Some (cvtColor_BGR2RGB f)))).
  { unfold get_all_camera_images in Hsweep.
    apply yields_bind in Hsweep as (s & m0 & [-> ->]%yields_get_self & Hsweep).
    apply collect_images_result in Hsweep as (Hk & _ & _ & _ & Hnew);
      [split; [exact Hk|exact Hnew]| |exact Hnd].
    intros k Hk. apply dict_get_key. exact Hk. }
  destruct Hpinned as [Hkeys Hframes].
  apply get_all_camera_images_steps in Hsweep as [Hsweep Hlen]; [|exact Hnd].
  apply yields_bind in Hy as ([] & m2 & Hview%view_imgs_steps & Hy).
  simpl in Hview. unfold dict_values in Hview. rewrite length_map, Hlen in Hview.
  fold c in Hsweep, Hview.
  pose proof (stepped_app _ _ _ _ _ Hsweep Hview) as H12.
  pose proof (stepped_ticks _ _ _ H12) as Hticks.
  rewrite length_app, sweep_steps_length in Hticks.
  unfold viewer_steps in Hticks. rewrite length_replicate in Hticks.
  pose proof (stepped_self _ _ _ H12) as Hself.
  destruct H12 as (seg12 & -> & Hsteps12).
  unfold get_current_state, get_observation, capture_observation in Hy.
  apply yields_bind in Hy as (state & m3 & Hstate & Hy).
  apply yields_bind in Hstate as (o & m3' & (_ & -> & ->)%yields_call_with & Hret).
  apply yields_ret in Hret as [-> ->].
  apply yields_bind in Hy as (action & m4 & Hreq & Hy).
  unfold client_get_action in Hreq.
  apply yields_bind in Hreq as (obs & m3' & [Hobs ->]%yields_lift & Hreq).
  apply yields_call_with in Hreq as (_ & -> & ->).
  apply execute_loop_sends in Hy as (seg5 & -> & Hall & Hq5);
    [|rewrite !appended_self; exact Hnd].
  rewrite appended_ticks in Hall. simpl length in Hall.
  replace (ticks (appended seg12 m) + 1)%nat with n in Hall by lia.
  replace (ticks (appended seg12 m)) with (n - 1)%nat in Hobs by lia.
  exists (seg12 ++ [CaptureObservation] ++ [PolicyGetAction obs] ++ seg5), imgs, obs.
  split; [rewrite !appended_app; reflexivity|].
  split; [exact Hkeys|]. split; [exact Hframes|]. split; [exact Hobs|].
  destruct (silent_steps (seg12 ++ [CaptureObservation])) as [Hs Hq].
  { rewrite map_app, Hsteps12, <- app_assoc. apply before_request_silent. }
  rewrite sent_targets_app in Hs. rewrite policy_queries_app in Hq.
  apply app_eq_nil in Hs as [Hs _]. apply app_eq_nil in Hq as [Hq _].
  split.
  - rewrite !policy_queries_app, Hq, Hq5. reflexivity.
  - rewrite !sent_targets_app, Hs. exact Hall.
Qed.
End Flow.

Lemma main_loop_flow (w : world) li H (l : list Z) : forall m m',
  NoDup (dict_keys (cameras (robot (self m)))) ->
  yields (for_each l (fun _ => iteration w li H)) m tt m' ->
  exists seg,
    m' = appended seg m /\
    length (policy_queries seg) = length l /\
    length (sent_targets seg) = (length l * Z.to_nat H)%nat.
Proof.
  induction l as [|i l IH]; intros m m' Hnd Hy; simpl in Hy.
  - apply yields_ret in Hy as [_ ->]. exists []. repeat split.
  - apply yields_bind in Hy as ([] & m1 & H1 & H2).
    apply iteration_flow in H1 as (seg1 & imgs & obs & -> & _ & _ & _ & Hq & Hs);
      [|exact Hnd].
    apply Forall2_length in Hs.
    unfold range in Hs. rewrite length_map, length_seq in Hs.
    apply IH in H2 as (seg2 & -> & Hq2 & Hs2); [|rewrite appended_self; exact Hnd].
    exists (seg1 ++ seg2). split; [symmetry; apply appended_app|].
    rewrite policy_queries_app, sent_targets_app, !length_app, Hq, Hq2, Hs2, <- Hs.
    simpl. split; lia.
Qed.

(** X15.  A main loop that completes has queried the policy once per pass,
    [ACTIONS_TO_EXECUTE] times in all, and has sent [ACTION_HORIZON]
    actions per query: the option named [actions_to_execute] counts policy
    queries, and the number of actions executed is its product with the
    horizon.  With a number of passes of zero or less it does nothing. *)
Theorem main_loop_query_and_send_counts (w : world) (language_instruction : string)
    (ACTIONS_TO_EXECUTE ACTION_HORIZON : Z) (m m' : machine) :
  NoDup (dict_keys (cameras (robot (self m)))) ->
  yields (main_loop w language_instruction ACTIONS_TO_EXECUTE ACTION_HORIZON) m tt m' ->
  exists seg,
    trace m' = trace m ++ seg /\
    length (policy_queries seg) = Z.to_nat ACTIONS_TO_EXECUTE /\
    length (sent_targets seg)
      = (Z.to_nat ACTIONS_TO_EXECUTE * Z.to_nat ACTION_HORIZON)%nat /\
    (ACTIONS_TO_EXECUTE <= 0 -> m' = m).
Proof.
  intros Hnd Hy. unfold main_loop in Hy.
  pose proof Hy as Hy0.
  apply main_loop_flow in Hy as (seg & -> & Hq & Hs); [|exact Hnd].
  unfold range in Hq, Hs. rewrite length_map, length_seq in Hq, Hs.
  exists seg. split; [apply appended_trace|]. split; [exact Hq|]. split; [exact Hs|].
  intros HN. unfold range in Hy0.
  replace (Z.to_nat ACTIONS_TO_EXECUTE) with 0%nat in Hy0 by lia.
  simpl in Hy0. apply yields_ret in Hy0 as [_ Hm]. exact Hm.
Qed.

Lemma main_loop_query_and_send_counts_witness :
  exists seg,
    trace (main_loop Bench.calm LANGUAGE_INSTRUCTION 2 3
             (Bench.connected (Bench.boot Bench.so100))).2 = [] ++ seg /\
    length (policy_queries seg) = 2%nat /\
    length (sent_targets seg) = 6%nat.
Proof.
  assert (Hnd : NoDup (dict_keys (cameras (robot (self
                  (Bench.connected (Bench.boot Bench.so100))))))).
  { apply (bool_decide_unpack _). vm_compute. exact I. }
  assert (Hy : yields (main_loop Bench.calm LANGUAGE_INSTRUCTION 2 3)
                 (Bench.connected (Bench.boot Bench.so100)) tt
                 (main_loop Bench.calm LANGUAGE_INSTRUCTION 2 3
                    (Bench.connected (Bench.boot Bench.so100))).2).
  { unfold yields. vm_compute. reflexivity. }
  destruct (main_loop_query_and_send_counts Bench.calm LANGUAGE_INSTRUCTION 2 3
              _ _ Hnd Hy) as (seg & Htr & Hq & Hs & _).
  exists seg. split; [exact Htr|]. split; [exact Hq|exact Hs].
Defined.

(** ** Leaving the context manager *)

Section Cleanup.
Variable w : world.

Lemma torque_off_clean (arms : dict MotorsBus) : forall m,
  (forall k, fault w (ticks m + k) = None) ->
  for_each arms (fun '(arm_name, arm) =>
    call w (BusWrite arm "Torque_Enable" TorqueMode_DISABLED)) m
  = (Ok tt, appended (torque_events TorqueMode_DISABLED arms) m).
Proof.
  induction arms as [|[name arm] arms IH]; intros m Hclean; [reflexivity|].
  simpl for_each. unfold bind, call, call_with.
  pose proof (Hclean 0%nat) as H0. rewrite Nat.add_0_r in H0. rewrite H0.
  rewrite IH; [reflexivity|].
  intros k. simpl. rewrite <- Nat.add_succ_r. apply Hclean.
Qed.

Lemma disconnect_clean m :
  (forall k, fault w (ticks m + k) = None) ->
  is_connected (robot (self m)) = true ->
  disconnect w m =
    set_is_connected false (appended (disconnect_events (follower_arms (self m))) m).
Proof.
  intros Hclean Hc. rewrite disconnect_unfold, (disconnect_body_connected w m Hc).
  unfold bind at 1. unfold bind at 1.
  rewrite (torque_off_clean _ m Hclean).
  unfold call, call_with. rewrite appended_ticks.
  rewrite (Hclean (length (torque_events TorqueMode_DISABLED (follower_arms (self m))))).
  unfold disconnect_events. rewrite appended_app. reflexivity.
Qed.
End Cleanup.

(** X16.  However the [try] part of [activate] or the body of the [with]
    statement ends, by returning or by any exception, if the robot is
    flagged connected at that point and no library call raises from then
    on, the statement switches the torque of every follower arm off,
    disconnects the robot, clears the flag, and ends as the body ended. *)
Theorem activate_cleans_up (w : world) (A : Type) (body : M A) (m : machine) :
  let left := (connect w ;;; move_to_initial_pose w ;;; body) m in
  (forall k, fault w (ticks left.2 + k) = None) ->
  is_connected (robot (self left.2)) = true ->
  (activate w body m).1 = left.1 /\
  trace (activate w body m).2
    = trace left.2 ++ disconnect_events (follower_arms (self left.2)) /\
  is_connected (robot (self (activate w body m).2)) = false.
Proof.
  intros left Hclean Hc. unfold activate, try_finally. fold left.
  destruct left as [r m1] eqn:E. simpl in *.
  rewrite (disconnect_clean w m1 Hclean Hc). unfold set_is_connected. simpl.
  rewrite appended_trace. auto.
Qed.

Lemma activate_cleans_up_witness :
  (activate Bench.calm (raise (A := unit) (KeyError "video.webcam"))
     (Bench.boot Bench.so100)).1 = Raise (KeyError "video.webcam") /\
  is_connected (robot (self (activate Bench.calm
                               (raise (A := unit) (KeyError "video.webcam"))
                               (Bench.boot Bench.so100)).2)) = false.
Proof.
  destruct (activate_cleans_up Bench.calm unit (raise (KeyError "video.webcam"))
              (Bench.boot Bench.so100) (fun k => eq_refl) eq_refl)
    as (Hr & _ & Hc).
  split; [exact Hr|exact Hc].
Defined.

(** ** What the main loop logs *)

Lemma logged_values_app (entity : string) (a b : list event) :
  logged_values entity (a ++ b) = logged_values entity a ++ logged_values entity b.
Proof. apply omap_app. Qed.

Lemma unlogged_steps (entity : string) (seg : list event) :
  Forall (fun s => s <> Log) (map step_of seg) -> logged_values entity seg = [].
Proof.
  induction seg as [|e seg IH]; intros Hall; [reflexivity|].
  apply Forall_cons in Hall as [Hl Hall].
  destruct e; simpl in *; try contradiction; auto.
Qed.

Lemma before_log_unlogged (c : nat) :
  Forall (fun s => s <> Log)
    (([Actuate] ++ [Pause]) ++ sweep_steps c ++ viewer_steps c).
Proof.
  repeat apply Forall_app_2;
    try (apply Forall_replicate; discriminate);
    try (repeat constructor; discriminate).
  apply Forall_forall. intros s Hs.
  apply sweep_steps_elem in Hs as [-> | ->]; discriminate.
Qed.

Section Logs.
Variable w : world.

Lemma log_joint_logs state target j m m' :
  yields (log_joint w state target j) m tt m' ->
  exists x a,
    seq_index (data1 state) j = Ok x /\
    seq_index target j = Ok a /\
    m' = appended [RrLog "gr00t_so100/joint_positions" j x;
                   RrLog "gr00t_so100/action" j a] m.
Proof.
  unfold log_joint. intros H.
  apply yields_bind in H as (x & m0 & [Hx ->]%yields_lift & H).
  apply yields_bind in H as ([] & m1 & ->%yields_call & H).
  apply yields_bind in H as (a & m2 & [Ha ->]%yields_lift & ->%yields_call).
  exists x, a. repeat split; assumption.
Qed.

Lemma log_loop_logs state target (l : list Z) : forall m m',
  yields (for_each l (log_joint w state target)) m tt m' ->
  exists seg,
    m' = appended seg m /\
    Forall2 (fun j p => p.1 = j /\ seq_index (data1 state) j = Ok p.2)
      l (logged_values "gr00t_so100/joint_positions" seg) /\
    Forall2 (fun j p => p.1 = j /\ seq_index target j = Ok p.2)
      l (logged_values "gr00t_so100/action" seg).
Proof.
  induction l as [|j l IH]; intros m m' H; simpl in H.
  - apply yields_ret in H as [_ ->]. exists []. repeat split; constructor.
  - apply yields_bind in H as ([] & m1 & H1 & H2).
    apply log_joint_logs in H1 as (x & a & Hx & Ha & ->).
    apply IH in H2 as (seg & -> & Hjp & Hact).
    exists ([RrLog "gr00t_so100/joint_positions" j x;
             RrLog "gr00t_so100/action" j a] ++ seg).
    split; [symmetry; apply appended_app|].
    rewrite !logged_values_app. split.
    + change (logged_values "gr00t_so100/joint_positions"
                [RrLog "gr00t_so100/joint_positions" j x;
                 RrLog "gr00t_so100/action" j a]) with [(j, x)].
      constructor; [split; [reflexivity|exact Hx]|exact Hjp].
    + change (logged_values "gr00t_so100/action"
                [RrLog "gr00t_so100/joint_positions" j x;
                 RrLog "gr00t_so100/action" j a]) with [(j, a)].
      constructor; [split; [reflexivity|exact Ha]|exact Hact].
Qed.
End Logs.

(** X17.  A pass of the inner loop that completes logs to rerun, for
    j = 0, ..., 11 in this order, the j-th number of the action it has just
    sent under [gr00t_so100/action<j>] and the j-th joint position under
    [gr00t_so100/joint_positions<j>]; the joint positions are those of the
    state captured after the action was sent and the frames were shown, not
    of the state the policy was queried with. *)
Theorem execute_step_logs (w : world) (action : action_chunk) (i : Z)
    (m m' : machine) :
  NoDup (dict_keys (cameras (robot (self m)))) ->
  yields (execute_step w action i) m tt m' ->
  let c := length (cameras (robot (self m))) in
  let n := (ticks m + 5 * c + 4)%nat in
  exists seg target,
    trace m' = trace m ++ seg /\
    concat_action action i = Ok target /\
    Forall2 (fun j p => p.1 = j /\ seq_index target j = Ok p.2)
      (range 12) (logged_values "gr00t_so100/action" seg) /\
    Forall2 (fun j p => p.1 = j /\
                        seq_index (observation_state (sensed w n)) j = Ok p.2)
      (range 12) (logged_values "gr00t_so100/joint_positions" seg).
Proof.
  intros Hnd H c n. unfold execute_step, set_target_state in H.
  apply yields_bind in H as (target & m0 & [Htarget ->]%yields_lift & H).
  pose proof (concat_action_length _ _ _ Htarget) as Hlen.
  apply yields_bind in H as ([] & m1 & ->%yields_call & H).
  apply yields_bind in H as ([] & m2 & ->%yields_call & H).
  apply yields_bind in H as (imgs & m3 & Hsweep & H).
  apply get_all_camera_images_steps in Hsweep as [Hsweep Himgs];
    [|rewrite !appended_self; exact Hnd].
  rewrite !appended_self in Hsweep, Himgs.
  apply yields_bind in H as ([] & m4 & Hview%view_imgs_steps & H).
  simpl in Hview. unfold dict_values in Hview. rewrite length_map, Himgs in Hview.
  fold c in Hsweep, Hview.
  pose proof (stepped_app _ _ _ _ _
                (stepped_app _ _ _ [Actuate] [Pause]
                   (stepped_one (SendAction target) m)
                   (stepped_one (Sleep (dec 1 100)) _))
                (stepped_app _ _ _ _ _ Hsweep Hview)) as Hpre.
  pose proof (stepped_ticks _ _ _ Hpre) as Hticks.
  rewrite !length_app, sweep_steps_length in Hticks.
  unfold viewer_steps in Hticks. rewrite length_replicate in Hticks.
  simpl length in Hticks.
  destruct Hpre as (pre & -> & Hsteps).
  unfold get_current_state, get_observation, capture_observation in H.
  apply yields_bind in H as (state & m5 & Hstate & H).
  apply yields_bind in Hstate as (o & m5' & (_ & -> & ->)%yields_call_with & Hret).
  apply yields_ret in Hret as [-> ->].
  apply yields_bind in H as ([] & m6 & ->%yields_call & H).
  apply log_loop_logs in H as (logs & -> & Hjp & Hact).
  rewrite Hlen in Hjp, Hact. simpl data1 in Hjp.
  replace (ticks (appended pre m)) with n in Hjp by lia.
  exists (pre ++ [CaptureObservation] ++ [RrSetTime] ++ logs), target.
  split; [rewrite <- appended_trace, !appended_app; reflexivity|].
  split; [exact Htarget|].
  assert (Hun : forall entity,
            logged_values entity (pre ++ [CaptureObservation] ++ [RrSetTime]) = []).
  { intros entity. rewrite logged_values_app.
    rewrite (unlogged_steps entity pre); [reflexivity|].
    rewrite Hsteps. apply before_log_unlogged. }
  replace (pre ++ [CaptureObservation] ++ [RrSetTime] ++ logs)
    with ((pre ++ [CaptureObservation] ++ [RrSetTime]) ++ logs)
    by (rewrite <- !app_assoc; reflexivity).
  rewrite (logged_values_app "gr00t_so100/action"
             (pre ++ [CaptureObservation] ++ [RrSetTime]) logs).
  rewrite (logged_values_app "gr00t_so100/joint_positions"
             (pre ++ [CaptureObservation] ++ [RrSetTime]) logs).
  rewrite !Hun. simpl. split; assumption.
Qed.

Lemma execute_step_logs_witness :
  exists seg target,
    trace (execute_step Bench.calm Bench.chunk 0
             (Bench.connected (Bench.boot Bench.so100))).2 = [] ++ seg /\
    concat_action Bench.chunk 0 = Ok target /\
    Forall2 (fun j p => p.1 = j /\ seq_index target j = Ok p.2)
      (range 12) (logged_values "gr00t_so100/action" seg) /\
    Forall2 (fun j p => p.1 = j /\
                        seq_index (observation_state Bench.reading) j = Ok p.2)
      (range 12) (logged_values "gr00t_so100/joint_positions" seg).
Proof.
  assert (Hnd : NoDup (dict_keys (cameras (robot (self
                  (Bench.connected (Bench.boot Bench.so100))))))).
  { apply (bool_decide_unpack _). vm_compute. exact I. }
  assert (Hy : yields (execute_step Bench.calm Bench.chunk 0)
                 (Bench.connected (Bench.boot Bench.so100)) tt
                 (execute_step Bench.calm Bench.chunk 0
                    (Bench.connected (Bench.boot Bench.so100))).2).
  { unfold yields. vm_compute. reflexivity. }
  exact (execute_step_logs Bench.calm Bench.chunk 0 _ _ Hnd Hy).
Defined.

(** ** Looking arms up in the index map *)

Lemma total_motors_cons (name : string) (arm : MotorsBus) (arms : dict MotorsBus) :
  total_motors ((name, arm) :: arms)
  = Z.of_nat (length (motor_names arm)) + total_motors arms.
Proof. reflexivity. Qed.

Lemma total_motors_nonneg (arms : dict MotorsBus) : 0 <= total_motors arms.
Proof.
  induction arms as [|[k a] arms IH]; [reflexivity|].
  rewrite total_motors_cons. lia.
Qed.

Lemma index_entries_get (arms : dict MotorsBus) : forall start name,
  match dict_get name arms with
  | None => dict_get name (index_entries arms start) = None
  | Some arm =>
      exists e,
        dict_get name (index_entries arms start) = Some e /\
        idx_motor_names e = motor_names arm /\
        idx_end e = idx_start e + Z.of_nat (length (motor_names arm)) /\
        start <= idx_start e /\
        idx_end e <= start + total_motors arms
  end.
Proof.
  induction arms as [|[k a] arms IH]; intros start name; simpl; [reflexivity|].
  destruct (decide (name = k)) as [->|Hne].
  - eexists. split; [reflexivity|]. simpl.
    pose proof (total_motors_nonneg arms).
    rewrite total_motors_cons. repeat split; lia.
  - specialize (IH (start + Z.of_nat (length (motor_names a))) name).
    destruct (dict_get name arms) as [arm|]; [|exact IH].
    destruct IH as (e & He & Hn & Hend & Hlo & Hhi).
    exists e. rewrite total_motors_cons. repeat split; try assumption; lia.
Qed.

Lemma index_entries_last (arms : dict MotorsBus) : forall start name e,
  last (index_entries arms start) = Some (name, e) ->
  idx_end e = start + total_motors arms.
Proof.
  induction arms as [|[k a] arms IH]; intros start name e H; [discriminate|].
  rewrite total_motors_cons.
  destruct arms as [|[k' a'] arms].
  - simpl in H. injection H as <- <-. simpl. unfold total_motors. simpl. lia.
  - change (last (index_entries ((k', a') :: arms)
                    (start + Z.of_nat (length (motor_names a)))) = Some (name, e)) in H.
    rewrite (IH _ _ _ H). lia.
Qed.

(** X18.  [SO100Robot(...)] raises [FileNotFoundError] when the calibration
    directory does not exist, whatever [enable_camera] is.  When it
    returns, its [follower_arms] and [leader_arms] are the robot's own, and
    the index map answers by arm name: for a follower arm it gives that
    arm's motor names and a range of as many indices, inside
    [0, total number of motors]; a name that is no follower arm is not in
    the map; and the last range ends at the total number of motors. *)
Theorem init_index_by_name
    (path_exists : string -> bool)
    (So100RobotConfig_new : string -> So100RobotConfig)
    (make_robot_from_config : So100RobotConfig -> ManipulatorRobot)
    (enable_camera_arg : bool) :
  (path_exists CALIBRATION_PATH = false ->
   SO100Robot_init path_exists So100RobotConfig_new make_robot_from_config
     enable_camera_arg = Raise FileNotFoundError) /\
  (forall s,
     SO100Robot_init path_exists So100RobotConfig_new make_robot_from_config
       enable_camera_arg = Ok s ->
     path_exists CALIBRATION_PATH = true /\
     enable_camera s = enable_camera_arg /\
     follower_arms s = robot_follower_arms (robot s) /\
     leader_arms s = robot_leader_arms (robot s) /\
     (NoDup (dict_keys (follower_arms s)) ->
      (forall name arm, dict_get name (follower_arms s) = Some arm ->
         exists e,
           dict_get name (motor_indices s) = Some e /\
           idx_motor_names e = motor_names arm /\
           idx_end e = idx_start e + Z.of_nat (length (motor_names arm)) /\
           0 <= idx_start e /\
           idx_end e <= total_motors (follower_arms s)) /\
      (forall name, dict_get name (follower_arms s) = None ->
         dict_get name (motor_indices s) = None) /\
      (forall name e, last (motor_indices s) = Some (name, e) ->
         idx_end e = total_motors (follower_arms s)))).
Proof.
  split.
  - intros Hp. unfold SO100Robot_init. rewrite Hp. reflexivity.
  - intros s Hinit. unfold SO100Robot_init in Hinit.
    destruct (path_exists CALIBRATION_PATH); [|discriminate].
    injection Hinit as <-. cbn [enable_camera follower_arms leader_arms robot
                                 motor_indices negb].
    repeat split.
    + intros name arm Hget. rewrite build_motor_indices_app by exact H.
      pose proof (index_entries_get (robot_follower_arms
                    (make_robot_from_config
                       (if negb enable_camera_arg
                        then with_cameras [] (So100RobotConfig_new CALIBRATION_PATH)
                        else So100RobotConfig_new CALIBRATION_PATH))) 0 name) as Hi.
      rewrite Hget in Hi. destruct Hi as (e & He & Hn & Hend & Hlo & Hhi).
      exists e. simpl. auto.
    + intros name Hget. rewrite build_motor_indices_app by exact H.
      pose proof (index_entries_get (robot_follower_arms
                    (make_robot_from_config
                       (if negb enable_camera_arg
                        then with_cameras [] (So100RobotConfig_new CALIBRATION_PATH)
                        else So100RobotConfig_new CALIBRATION_PATH))) 0 name) as Hi.
      rewrite Hget in Hi. exact Hi.
    + intros name e Hlast. rewrite build_motor_indices_app in Hlast by exact H.
      simpl in Hlast. apply index_entries_last in Hlast. lia.
Qed.

Lemma init_index_by_name_witness :
  exists e,
    dict_get "cv" (motor_indices Bench.so100) = Some e /\
    idx_motor_names e = Bench.SO100_MOTORS /\
    idx_end e <= total_motors (follower_arms Bench.so100).
Proof.
  destruct (init_index_by_name (fun _ => true) Bench.default_config Bench.make_robot
              true) as [_ Hok].
  destruct (Hok Bench.so100 eq_refl) as (_ & _ & _ & _ & Hindex).
  assert (Hnd : NoDup (dict_keys (follower_arms Bench.so100))).
  { apply (bool_decide_unpack _). vm_compute. exact I. }
  destruct (Hindex Hnd) as (Hget & _ & _).
  destruct (Hget "cv" Bench.cv_bus eq_refl) as (e & He & Hn & _ & _ & Hhi).
  exists e. auto.
Defined.

(** ** The whole session *)

Section SessionOrder.
Variable w : world.

Lemma made_setup_only (c : M unit) (m : machine) (events : list event) :
  made c m events ->
  Forall (fun e => step_of e = Setup) events ->
  exists seg, trace (c m).2 = trace m ++ seg /\ sent_targets seg = [].
Proof.
  intros (seg & Htr & _ & H) Hall. exists seg. split; [exact Htr|].
  assert (Hseg : Forall (fun e => step_of e = Setup) seg).
  { destruct H as [[_ ->]|(e & rest & _ & -> & _)]; [exact Hall|].
    apply Forall_app in Hall as [Hall _]. exact Hall. }
  apply silent_steps. rewrite Forall_map.
  eapply Forall_impl; [exact Hseg|]. simpl. intros e ->. split; discriminate.
Qed.

Lemma disconnect_events_setup (arms : dict MotorsBus) :
  Forall (fun e => step_of e = Setup) (disconnect_events arms).
Proof.
  unfold disconnect_events, torque_events. apply Forall_app_2.
  - rewrite Forall_map. apply Forall_forall. reflexivity.
  - repeat constructor.
Qed.

Lemma connect_events_setup (arms : dict MotorsBus) :
  Forall (fun e => step_of e = Setup) (connect_events arms).
Proof.
  unfold connect_events. constructor; [reflexivity|].
  induction (dict_values arms) as [|arm l IH]; simpl; [constructor|].
  repeat (constructor; [reflexivity|]). exact IH.
Qed.

Lemma disconnect_sends_nothing m :
  exists seg, trace (disconnect w m).2 = trace m ++ seg /\ sent_targets seg = [].
Proof.
  destruct (is_connected (robot (self m))) eqn:Hc.
  - rewrite disconnect_unfold, (disconnect_body_connected w m Hc).
    set (calls := for_each (follower_arms (self m)) (fun '(arm_name, arm) =>
                    call w (BusWrite arm "Torque_Enable" TorqueMode_DISABLED)) ;;;
                  call w RobotDisconnect).
    assert (Hmade : made calls m (disconnect_events (follower_arms (self m))))
      by apply performs_disconnect_calls.
    destruct (made_setup_only _ _ _ Hmade (disconnect_events_setup _))
      as (seg & Htr & Hs).
    exists seg. split; [|exact Hs].
    unfold bind. destruct (calls m) as [[[]|e] m1]; simpl in *; [exact Htr|].
    destruct (is_Exception e); exact Htr.
  - rewrite (disconnect_noop w m Hc). exists []. rewrite app_nil_r. auto.
Qed.

Lemma extends_call_with {A} t0 (e : event) (answer : nat -> A) :
  keeps (confined (fun _ => True) t0) (call_with w e answer).
Proof. apply keeps_confined_call. exact I. Qed.

Lemma extends_move_to_initial_pose t0 :
  keeps (confined (fun _ => True) t0) (move_to_initial_pose w).
Proof.
  unfold move_to_initial_pose.
  apply keeps_bind; [apply keeps_get_self|]. intros s.
  apply keeps_bind; [apply extends_call_with|]. intros obs.
  apply keeps_bind; [apply extends_call_with|]. intros obs'.
  apply keeps_bind; [apply extends_call_with|]. intros ?.
  apply extends_call_with.
Qed.

Lemma extends_main_loop t0 li N H :
  keeps (confined (fun _ => True) t0) (main_loop w li N H).
Proof.
  intros m (seg0 & Htr0 & _).
  destruct (main_loop_confined w (trace m) li N H m (confined_start _ m))
    as (seg & Htr & _).
  exists (seg0 ++ seg). rewrite Htr, Htr0, <- app_assoc.
  split; [reflexivity|]. apply Forall_forall. auto.
Qed.
End SessionOrder.

(** X19.  Whatever the library calls do, the script run on a robot that is
    not connected never commands the actuators before the robot is
    connected and every follower arm has its presets: either nothing at all
    was sent, or the calls of the session start with the complete list of
    connection calls. *)
Theorem main_connects_before_sending (w : world)
    (ACTIONS_TO_EXECUTE ACTION_HORIZON : Z) (m : machine) :
  is_connected (robot (self m)) = false ->
  exists seg,
    trace (main w ACTIONS_TO_EXECUTE ACTION_HORIZON m).2 = trace m ++ seg /\
    (sent_targets seg = [] \/
     exists rest, seg = connect_events (follower_arms (self m)) ++ rest).
Proof.
  intros Hc. unfold main, activate, try_finally.
  set (loop := main_loop w LANGUAGE_INSTRUCTION ACTIONS_TO_EXECUTE ACTION_HORIZON).
  set (calls := call w RobotConnect ;;;
                for_each (follower_arms (self m)) (fun '(arm_name, arm) =>
                  set_so100_robot_preset w arm ;;;
                  call w (BusRead arm "Present_Position"))).
  set (rest_of_try := move_to_initial_pose w ;;; loop).
  assert (E : connect w m = (calls ;;; set_is_connected true) m).
  { unfold calls. rewrite bind_assoc. unfold connect. unfold bind at 1.
    unfold get_self. cbn beta iota. rewrite Hc. reflexivity. }
  assert (Hmade : made calls m (connect_events (follower_arms (self m))))
    by apply performs_connect_calls.
  unfold bind at 1. rewrite E. unfold bind at 1.
  destruct Hmade as (seg1 & Htr1 & _ & H1).
  destruct (calls m) as [[[]|e] m1]; simpl in *.
  - destruct H1 as [[_ ->]|(e & rest & Hr & _)]; [|discriminate].
    set (m2 := {| self := with_robot (with_is_connected true (robot (self m1))) (self m1);
                  ticks := ticks m1; trace := trace m1 |}).
    assert (H2 : confined (fun _ => True) (trace m1) m2)
      by exact (confined_start _ m2).
    assert (H3 : confined (fun _ => True) (trace m1)
                   (rest_of_try m2).2).
    { revert H2. unfold rest_of_try.
      apply keeps_bind; [apply extends_move_to_initial_pose|].
      intros ?. apply extends_main_loop. }
    destruct (rest_of_try m2) as [r m3]. simpl in H3.
    destruct H3 as (seg3 & Htr3 & _).
    destruct (disconnect_sends_nothing w m3) as (seg4 & Htr4 & _).
    exists (connect_events (follower_arms (self m)) ++ seg3 ++ seg4).
    split; [|right; eauto].
    destruct (disconnect w m3) as [[[]|e] m4]; simpl in *;
      rewrite Htr4, Htr3, Htr1, <- !app_assoc; reflexivity.
  - destruct H1 as [[Hok _]|(e' & rest & Hr & Hev & Hne)]; [discriminate|].
    destruct (disconnect_sends_nothing w m1) as (seg4 & Htr4 & Hs4).
    exists (seg1 ++ seg4). split.
    + destruct (disconnect w m1) as [[[]|e0] m4]; simpl in *;
        rewrite Htr4, Htr1, <- app_assoc; reflexivity.
    + left. rewrite sent_targets_app, Hs4, app_nil_r.
      assert (Hsetup : Forall (fun e => step_of e = Setup) seg1).
      { pose proof (connect_events_setup (follower_arms (self m))) as Hall.
        rewrite Hev in Hall. apply Forall_app in Hall as [Hall _]. exact Hall. }
      apply silent_steps. rewrite Forall_map.
      eapply Forall_impl; [exact Hsetup|]. simpl. intros e0 ->. split; discriminate.
Qed.

Lemma main_connects_before_sending_witness :
  exists seg,
    trace (main (Bench.failing_at 5 (LibraryError "overload")) 350 12
             (Bench.boot Bench.so100)).2 = [] ++ seg /\
    (sent_targets seg = [] \/
     exists rest, seg = connect_events (follower_arms Bench.so100) ++ rest).
Proof.
  apply (main_connects_before_sending (Bench.failing_at 5 (LibraryError "overload"))
           350 12 (Bench.boot Bench.so100)).
  reflexivity.
Defined.


(** * Exact call sequences *)

Section Exact.
Variable w : world.

Lemma clear_for_weaken m k k' : (k' <= k)%nat -> clear_for w m k -> clear_for w m k'.
Proof. intros Hle Hc j Hj. apply Hc. lia. Qed.

Lemma clear_for_shift m seg k :
  clear_for w m (length seg + k) -> clear_for w (appended seg m) k.
Proof.
  intros Hc j Hj. rewrite appended_ticks, <- Nat.add_assoc. apply Hc. lia.
Qed.

Lemma runs_calls_ret : runs_calls w (ret tt) [].
Proof.
  intros m. split; [reflexivity|]. intros k e Hk. simpl in Hk. lia.
Qed.

Lemma runs_calls_call (e : event) : runs_calls w (call w e) [e].
Proof.
  intros m. unfold call, call_with. split.
  - intros Hc. specialize (Hc 0%nat ltac:(simpl; lia)).
    rewrite Nat.add_0_r in Hc. rewrite Hc. reflexivity.
  - intros k x Hk [_ Hf]. simpl in Hk. assert (k = 0%nat) as -> by lia.
    rewrite Nat.add_0_r in Hf. rewrite Hf. reflexivity.
Qed.

Lemma runs_calls_seq (c k : M unit) (es1 es2 : list event) :
  runs_calls w c es1 -> runs_calls w k es2 -> runs_calls w (c ;;; k) (es1 ++ es2).
Proof.
  intros Hc Hk m. destruct (Hc m) as [Hc1 Hc2]. unfold bind. split.
  - rewrite length_app. intros Hclear.
    rewrite Hc1 by (revert Hclear; apply clear_for_weaken; lia).
    destruct (Hk (appended es1 m)) as [Hk1 _].
    rewrite Hk1 by (apply clear_for_shift; exact Hclear).
    rewrite appended_app. reflexivity.
  - rewrite length_app. intros n e Hn [Hclear Hf].
    destruct (Nat.lt_ge_cases n (length es1)) as [Hlt|Hge].
    + rewrite (Hc2 n e Hlt (conj Hclear Hf)).
      rewrite take_app_le by lia. reflexivity.
    + rewrite Hc1 by (revert Hclear; apply clear_for_weaken; lia).
      destruct (Hk (appended es1 m)) as [_ Hk2].
      assert (Hff : first_fault_at w (appended es1 m) (n - length es1) e).
      { split.
        - apply clear_for_shift. revert Hclear. apply clear_for_weaken. lia.
        - rewrite appended_ticks.
          replace (ticks m + length es1 + (n - length es1))%nat
            with (ticks m + n)%nat by lia. exact Hf. }
      rewrite (Hk2 (n - length es1)%nat e ltac:(lia) Hff).
      rewrite take_app_ge by lia. rewrite appended_app. reflexivity.
Qed.

Lemma runs_calls_for_each {A} (body : A -> M unit) (events : A -> list event)
    (l : list A) :
  (forall x, runs_calls w (body x) (events x)) ->
  runs_calls w (for_each l body) (flat_map events l).
Proof.
  intros Hbody. induction l as [|x l IH]; simpl.
  - apply runs_calls_ret.
  - apply runs_calls_seq; [apply Hbody|exact IH].
Qed.


Lemma runs_calls_torque (value : Z) (arms : dict MotorsBus) :
  runs_calls w (for_each arms (fun '(arm_name, arm) =>
                  call w (BusWrite arm "Torque_Enable" value)))
             (torque_events value arms).
Proof.
  rewrite <- torque_events_flat_map.
  apply runs_calls_for_each. intros [name arm]. apply runs_calls_call.
Qed.


Lemma runs_calls_disconnect (arms : dict MotorsBus) :
  runs_calls w (for_each arms (fun '(arm_name, arm) =>
                  call w (BusWrite arm "Torque_Enable" TorqueMode_DISABLED)) ;;;
                call w RobotDisconnect)
             (disconnect_events arms).
Proof.
  unfold disconnect_events.
  apply runs_calls_seq; [apply runs_calls_torque|apply runs_calls_call].
Qed.


Lemma disconnect_exact m :
  is_connected (robot (self m)) = true ->
  (clear_for w m (length (disconnect_events (follower_arms (self m)))) ->
   disconnect w m =
     set_is_connected false
       (appended (disconnect_events (follower_arms (self m))) m)) /\
  (forall k e, (k < length (disconnect_events (follower_arms (self m))))%nat ->
     first_fault_at w m k e ->
     disconnect w m =
       (if is_Exception e then Ok tt else Raise e,
        ticked (appended (take k (disconnect_events (follower_arms (self m)))) m))).
Proof.
  intros Hc. rewrite disconnect_unfold, (disconnect_body_connected w m Hc).
  set (calls := for_each (follower_arms (self m)) (fun '(arm_name, arm) =>
                  call w (BusWrite arm "Torque_Enable" TorqueMode_DISABLED)) ;;;
                call w RobotDisconnect).
  assert (Hruns : runs_calls w calls (disconnect_events (follower_arms (self m))))
    by apply runs_calls_disconnect.
  destruct (Hruns m) as [H1 H2]. unfold bind. split.
  - intros Hclear. rewrite (H1 Hclear). reflexivity.
  - intros k e Hk Hf. rewrite (H2 k e Hk Hf).
    destruct (is_Exception e); reflexivity.
Qed.

Lemma torque_writes_only (value : Z) (arms : dict MotorsBus) (k : nat) :
  RobotDisconnect ∉ take k (torque_events value arms).
Proof.
  intros Hin. apply elem_of_take in Hin as (i & Hi & _).
  unfold torque_events in Hi. rewrite list_lookup_fmap in Hi.
  destruct (dict_values arms !! i); discriminate.
Qed.
End Exact.

(** ** Connecting, disconnecting and torque under failures *)

Lemma torque_events_length (value : Z) (arms : dict MotorsBus) :
  length (torque_events value arms) = length arms.
Proof. unfold torque_events, dict_values. rewrite !length_fmap. reflexivity. Qed.

Lemma disconnect_events_take (arms : dict MotorsBus) (k : nat) :
  (k < length (disconnect_events arms))%nat ->
  take k (disconnect_events arms) = take k (torque_events 0 arms).
Proof.
  unfold disconnect_events. rewrite length_app. simpl. intros Hk.
  rewrite take_app_le by lia. reflexivity.
Qed.

Lemma failing_at_first (n : nat) (e : exn) (m : machine) :
  ticks m = 0%nat -> first_fault_at (Bench.failing_at n e) m n e.
Proof.
  intros Ht. split.
  - intros j Hj. rewrite Ht. simpl. destruct (decide (j = n)); [lia|reflexivity].
  - rewrite Ht. simpl. destruct (decide (n = n)); [reflexivity|congruence].
Qed.

Lemma calm_clear_for (w : world) (m : machine) (k : nat) :
  calm w -> clear_for w m k.
Proof. intros Hcalm j _. apply Hcalm. Qed.



(** X2.  [disconnect] on a connected robot makes these calls in order: a
    write of [Torque_Enable = 0] to every follower arm, then
    [robot.disconnect()].  When none of them raises, these are exactly the
    calls made, and the flag is cleared.  When call number [k] (from 0) is
    the first to raise, exactly the [k] calls before it were made, all of
    them torque writes: [robot.disconnect()] was not called with a torque
    write outstanding.  The call then returns if the exception is an
    [Exception] and passes it on otherwise. *)
Theorem disconnect_torque_off_first (w : world) (m : machine) :
  is_connected (robot (self m)) = true ->
  disconnect_events (follower_arms (self m))
    = map (fun arm => BusWrite arm "Torque_Enable" 0)
          (dict_values (follower_arms (self m))) ++ [RobotDisconnect] /\
  (clear_for w m (length (disconnect_events (follower_arms (self m)))) ->
   disconnect w m =
     set_is_connected false
       (appended (disconnect_events (follower_arms (self m))) m)) /\
  (forall k e, (k < length (disconnect_events (follower_arms (self m))))%nat ->
     first_fault_at w m k e ->
     disconnect w m =
       (if is_Exception e then Ok tt else Raise e,
        ticked (appended (take k (disconnect_events (follower_arms (self m)))) m)) /\
     RobotDisconnect ∉ take k (disconnect_events (follower_arms (self m)))).
Proof.
  intros Hc. destruct (disconnect_exact w m Hc) as [Hok Hfail].
  split; [reflexivity|]. split; [exact Hok|].
  intros k e Hk Hf. split; [exact (Hfail k e Hk Hf)|].
  rewrite disconnect_events_take by exact Hk. apply torque_writes_only.
Qed.

Lemma disconnect_torque_off_first_witness :
  disconnect Bench.calm (Bench.connected (Bench.boot Bench.so100))
  = set_is_connected false
      (appended [BusWrite Bench.main_bus "Torque_Enable" 0;
                 BusWrite Bench.cv_bus "Torque_Enable" 0;
                 RobotDisconnect]
                (Bench.connected (Bench.boot Bench.so100))) /\
  disconnect (Bench.failing_at 2 KeyboardInterrupt)
             (Bench.connected (Bench.boot Bench.so100))
  = (Raise KeyboardInterrupt,
     ticked (appended [BusWrite Bench.main_bus "Torque_Enable" 0;
                       BusWrite Bench.cv_bus "Torque_Enable" 0]
                      (Bench.connected (Bench.boot Bench.so100)))).
Proof.
  split.
  - destruct (disconnect_torque_off_first Bench.calm
                (Bench.connected (Bench.boot Bench.so100)) eq_refl)
      as (_ & Hok & _).
    apply Hok. apply calm_clear_for. intros n. reflexivity.
  - destruct (disconnect_torque_off_first (Bench.failing_at 2 KeyboardInterrupt)
                (Bench.connected (Bench.boot Bench.so100)) eq_refl)
      as (_ & _ & Hfail).
    apply (Hfail 2%nat KeyboardInterrupt).
    + vm_compute. lia.
    + apply failing_at_first. reflexivity.
Defined.

(** X3.  [enable] and [disable] do nothing on a robot that is not
    connected.  On a connected robot they write [Torque_Enable] to every
    follower arm, in order, 1 for [enable] and 0 for [disable]: when no
    write raises, these are exactly the calls made; when write number [k]
    (from 0) is the first to raise, exactly the [k] writes before it were
    made and the exception is passed on. *)
Theorem torque_switch (w : world) (m : machine) :
  (is_connected (robot (self m)) = false ->
   enable w m = (Ok tt, m) /\ disable w m = (Ok tt, m)) /\
  (is_connected (robot (self m)) = true ->
   (clear_for w m (length (follower_arms (self m))) ->
    enable w m = (Ok tt, appended (torque_events 1 (follower_arms (self m))) m) /\
    disable w m = (Ok tt, appended (torque_events 0 (follower_arms (self m))) m)) /\
   (forall k e, (k < length (follower_arms (self m)))%nat ->
      first_fault_at w m k e ->
      enable w m =
        (Raise e, ticked (appended (take k (torque_events 1 (follower_arms (self m)))) m)) /\
      disable w m =
        (Raise e, ticked (appended (take k (torque_events 0 (follower_arms (self m)))) m)))).
Proof.
  split.
  - intros Hc. unfold enable, disable, bind, get_self. rewrite Hc. auto.
  - intros Hc.
    rewrite (enable_connected w m Hc), (disable_connected w m Hc).
    destruct (runs_calls_torque w TorqueMode_ENABLED (follower_arms (self m)) m)
      as [Hon1 Hon2].
    destruct (runs_calls_torque w TorqueMode_DISABLED (follower_arms (self m)) m)
      as [Hoff1 Hoff2].
    rewrite torque_events_length in Hon1, Hon2, Hoff1, Hoff2.
    split.
    + intros Hclear. split; [exact (Hon1 Hclear)|exact (Hoff1 Hclear)].
    + intros k e Hk Hf. split; [exact (Hon2 k e Hk Hf)|exact (Hoff2 k e Hk Hf)].
Qed.

Lemma torque_switch_witness :
  enable Bench.calm (Bench.connected (Bench.boot Bench.so100))
  = (Ok tt, appended [BusWrite Bench.main_bus "Torque_Enable" 1;
                      BusWrite Bench.cv_bus "Torque_Enable" 1]
                     (Bench.connected (Bench.boot Bench.so100))) /\
  disable (Bench.failing_at 1 (LibraryError "overload"))
          (Bench.connected (Bench.boot Bench.so100))
  = (Raise (LibraryError "overload"),
     ticked (appended [BusWrite Bench.main_bus "Torque_Enable" 0]
                      (Bench.connected (Bench.boot Bench.so100)))) /\
  disable Bench.calm (Bench.boot Bench.so100) = (Ok tt, Bench.boot Bench.so100).
Proof.
  destruct (torque_switch Bench.calm (Bench.connected (Bench.boot Bench.so100)))
    as [_ Hon].
  destruct (torque_switch (Bench.failing_at 1 (LibraryError "overload"))
              (Bench.connected (Bench.boot Bench.so100))) as [_ Hfail].
  destruct (torque_switch Bench.calm (Bench.boot Bench.so100)) as [Hoff _].
  destruct (Hon eq_refl) as [Hon' _].
  destruct (Hfail eq_refl) as [_ Hfail'].
  split; [|split].
  - apply Hon'. apply calm_clear_for. intros n. reflexivity.
  - apply (Hfail' 1%nat (LibraryError "overload")).
    + vm_compute. lia.
    + apply failing_at_first. reflexivity.
  - apply (Hoff eq_refl).
Defined.

(** C9, as the code has it.  [disconnect] never lets an exception that
    derives from [Exception] escape: it returns normally whenever the
    library calls raise only such exceptions, and an exception that does
    escape is not an [Exception].  On a robot that is not connected it does
    nothing, so after a [disconnect] that left the flag clear (as it does
    when no library call raises) a second one changes nothing.  On a
    connected robot: when none of its calls raises, it has made the torque
    writes and [robot.disconnect()] and cleared the flag; when one of them
    raises, the calls stop there, the flag stays set, an exception that is
    an [Exception] is swallowed and any other one is passed on to the
    caller.  The [activate] context manager always ends by running
    [disconnect] on the machine its [try] part or the body of the [with]
    statement left, whether they returned or raised, and when that
    [disconnect] returns, the outcome of the [with] statement is theirs. *)
Theorem disconnect_catches_only_Exception (w : world) (m : machine) :
  (forall e, (disconnect w m).1 = Raise e -> is_Exception e = false) /\
  (only_Exceptions w -> (disconnect w m).1 = Ok tt) /\
  (is_connected (robot (self m)) = false -> disconnect w m = (Ok tt, m)) /\
  (is_connected (robot (self (disconnect w m).2)) = false ->
   disconnect w (disconnect w m).2 = (Ok tt, (disconnect w m).2)) /\
  (calm w -> is_connected (robot (self (disconnect w m).2)) = false) /\
  (is_connected (robot (self m)) = true ->
   (clear_for w m (length (disconnect_events (follower_arms (self m)))) ->
    disconnect w m =
      set_is_connected false
        (appended (disconnect_events (follower_arms (self m))) m)) /\
   (forall k e, (k < length (disconnect_events (follower_arms (self m))))%nat ->
      first_fault_at w m k e ->
      disconnect w m =
        (if is_Exception e then Ok tt else Raise e,
         ticked (appended (take k (disconnect_events (follower_arms (self m)))) m)) /\
      is_connected (robot (self (disconnect w m).2)) = true)) /\
  (forall (A : Type) (body : M A),
     let left := (connect w ;;; move_to_initial_pose w ;;; body) m in
     (activate w body m).2 = (disconnect w left.2).2 /\
     ((disconnect w left.2).1 = Ok tt -> (activate w body m).1 = left.1)).
Proof.
  split; [|split; [|split; [|split; [|split; [|split]]]]].
  - intros e. rewrite disconnect_unfold.
    destruct (disconnect_body w m) as [[[]|e'] m1]; simpl; [discriminate|].
    destruct (is_Exception e') eqn:He; simpl; [discriminate|].
    intros H. injection H as <-. exact He.
  - intros Hexc. rewrite disconnect_unfold.
    pose proof (faulty_disconnect_body w m I) as Hf.
    destruct (disconnect_body w m) as [[[]|e'] m1]; simpl in *; [reflexivity|].
    destruct Hf as [n Hn]. rewrite (Hexc n e' Hn). reflexivity.
  - apply disconnect_noop.
  - apply disconnect_noop.
  - intros Hcalm. destruct (disconnect_calm w m Hcalm) as (m' & -> & Hm'). exact Hm'.
  - intros Hc. destruct (disconnect_exact w m Hc) as [Hok Hfail].
    split; [exact Hok|].
    intros k e Hk Hf. rewrite (Hfail k e Hk Hf). split; [reflexivity|].
    simpl. rewrite appended_self. exact Hc.
  - intros A body left. subst left. unfold activate, try_finally.
    destruct ((connect w;;; move_to_initial_pose w;;; body) m) as [r m1]. simpl.
    destruct (disconnect w m1) as [[[]|e] m2]; simpl; [auto|].
    split; [reflexivity|discriminate].
Qed.

Lemma disconnect_catches_only_Exception_witness :
  disconnect (Bench.failing_at 1 (LibraryError "port closed"))
             (Bench.connected (Bench.boot Bench.so100))
  = (Ok tt,
     ticked (appended [BusWrite Bench.main_bus "Torque_Enable" 0]
                      (Bench.connected (Bench.boot Bench.so100)))) /\
  disconnect (Bench.failing_at 1 KeyboardInterrupt)
             (Bench.connected (Bench.boot Bench.so100))
  = (Raise KeyboardInterrupt,
     ticked (appended [BusWrite Bench.main_bus "Torque_Enable" 0]
                      (Bench.connected (Bench.boot Bench.so100)))) /\
  is_connected (robot (self (disconnect (Bench.failing_at 1 KeyboardInterrupt)
                               (Bench.connected (Bench.boot Bench.so100))).2)) = true.
Proof.
  destruct (disconnect_catches_only_Exception
              (Bench.failing_at 1 (LibraryError "port closed"))
              (Bench.connected (Bench.boot Bench.so100)))
    as (_ & _ & _ & _ & _ & Hexc & _).
  destruct (disconnect_catches_only_Exception
              (Bench.failing_at 1 KeyboardInterrupt)
              (Bench.connected (Bench.boot Bench.so100)))
    as (_ & _ & _ & _ & _ & Hkbd & _).
  destruct (Hexc eq_refl) as [_ Hexc'].
  destruct (Hkbd eq_refl) as [_ Hkbd'].
  split; [|].
  - apply (Hexc' 1%nat (LibraryError "port closed")).
    + vm_compute. lia.
    + apply failing_at_first. reflexivity.
  - apply (Hkbd' 1%nat KeyboardInterrupt).
    + vm_compute. lia.
    + apply failing_at_first. reflexivity.
Defined.

(** ** The observation and the actions of a pass *)

(** X14.  In a pass of the outer loop that completes, the policy is
    queried once.  Its observation is built from the images of the camera
    sweep that opens the pass (under each camera name the frame of that
    camera from the capture made for it, with the channels swapped) and
    from the state captured last before the query.  The actions sent to the
    actuators are the steps 0, 1, ..., ACTION_HORIZON - 1 of the chunk the
    policy answered, each as the concatenation of its four modalities, in
    this order, each sent once. *)
Theorem iteration_sends_policy_steps (w : world) (language_instruction : string)
    (ACTION_HORIZON : Z) (m m' : machine) :
  NoDup (dict_keys (cameras (robot (self m)))) ->
  yields (iteration w language_instruction ACTION_HORIZON) m tt m' ->
  let c := length (cameras (robot (self m))) in
  let n := (ticks m + 5 * c + 3)%nat in
  exists seg imgs obs,
    trace m' = trace m ++ seg /\
    dict_keys imgs = dict_keys (cameras (robot (self m))) /\
    (forall j name, dict_keys (cameras (robot (self m))) !! j = Some name ->
       exists f,
         observation_images (sensed w (ticks m + 2 * j))
           !! String.append "observation.images." name = Some f /\
         dict_get name imgs = Some (Some (cvtColor_BGR2RGB f))) /\
    build_obs_dict language_instruction imgs
      {| dtype1 := float32; data1 := observation_state (sensed w (n - 1)) |} = Ok obs /\
    policy_queries seg = [obs] /\
    Forall2 (fun i t => concat_action (inferred w n obs) i = Ok t)
      (range ACTION_HORIZON) (sent_targets seg).
Proof.
  intros Hnd Hy c n.
  destruct (iteration_flow w _ _ _ _ Hnd Hy) as (seg & imgs & obs & -> & H).
  exists seg, imgs, obs. split; [apply appended_trace|exact H].
Qed.

Lemma iteration_sends_policy_steps_witness :
  exists seg imgs obs,
    trace (iteration Bench.calm LANGUAGE_INSTRUCTION 2
             (Bench.connected (Bench.boot Bench.so100))).2 = [] ++ seg /\
    dict_keys imgs = ["webcam"; "main"; "cv"] /\
    dict_get "webcam" imgs = Some (Some (Rgb 0)) /\
    dict_get "main" imgs = Some (Some (Rgb 1)) /\
    dict_get "cv" imgs = Some (Some (Rgb 2)) /\
    build_obs_dict LANGUAGE_INSTRUCTION imgs
      {| dtype1 := float32; data1 := observation_state Bench.reading |} = Ok obs /\
    policy_queries seg = [obs] /\
    Forall2 (fun i t => concat_action Bench.chunk i = Ok t) [0; 1] (sent_targets seg).
Proof.
  assert (Hnd : NoDup (dict_keys (cameras (robot (self
                  (Bench.connected (Bench.boot Bench.so100))))))).
  { apply (bool_decide_unpack _). vm_compute. exact I. }
  assert (Hy : yields (iteration Bench.calm LANGUAGE_INSTRUCTION 2)
                 (Bench.connected (Bench.boot Bench.so100)) tt
                 (iteration Bench.calm LANGUAGE_INSTRUCTION 2
                    (Bench.connected (Bench.boot Bench.so100))).2).
  { unfold yields. vm_compute. reflexivity. }
  destruct (iteration_sends_policy_steps Bench.calm LANGUAGE_INSTRUCTION 2 _ _ Hnd Hy)
    as (seg & imgs & obs & Htr & Hkeys & Hframes & Hobs & Hq & Hs).
  exists seg, imgs, obs.
  destruct (Hframes 0%nat "webcam" eq_refl) as (f0 & Hf0 & Hg0).
  destruct (Hframes 1%nat "main" eq_refl) as (f1 & Hf1 & Hg1).
  destruct (Hframes 2%nat "cv" eq_refl) as (f2 & Hf2 & Hg2).
  vm_compute in Hf0, Hf1, Hf2.
  injection Hf0 as <-. injection Hf1 as <-. injection Hf2 as <-.
  split; [exact Htr|]. split; [exact Hkeys|].
  split; [exact Hg0|]. split; [exact Hg1|]. split; [exact Hg2|].
  split; [exact Hobs|]. split; [exact Hq|exact Hs].
Defined.

(** ** The checks of the inner loop *)

Lemma seq_index_out_of_range {A} (l : list A) (i : Z) :
  i < - Z.of_nat (length l) \/ Z.of_nat (length l) <= i ->
  seq_index l i = Raise IndexError.
Proof.
  intros Hi. unfold seq_index. cbv zeta.
  destruct (Z.ltb_spec i 0) as [Hneg|Hpos].
  - destruct (Z.ltb_spec (i + Z.of_nat (length l)) 0); [reflexivity|lia].
  - destruct (Z.ltb_spec i 0); [lia|].
    destruct (l !! Z.to_nat i) as [v|] eqn:Hv; [|reflexivity].
    apply lookup_lt_Some in Hv. lia.
Qed.

Lemma seq_index_from_end {A} (l : list A) (i : Z) :
  - Z.of_nat (length l) <= i < 0 ->
  seq_index l i = seq_index l (i + Z.of_nat (length l)) /\
  exists v, seq_index l i = Ok v.
Proof.
  intros Hi.
  assert (E : seq_index l i = seq_index l (i + Z.of_nat (length l))).
  { unfold seq_index. cbv zeta.
    destruct (Z.ltb_spec i 0); [|lia].
    destruct (Z.ltb_spec (i + Z.of_nat (length l)) 0); [lia|].
    destruct (Z.ltb_spec (i + Z.of_nat (length l)) 0); [lia|reflexivity]. }
  split; [exact E|]. rewrite E. apply seq_index_in_range. lia.
Qed.

(** X12.  A pass of the inner loop checks the action before it commands
    the actuators: when the step cannot be read or has the wrong shape, the
    pass raises without a single library call; when it can, the first call
    of the pass is the [send_action] of that step.  A chunk without
    ["action.main_arm"] raises [KeyError].  A step index [i] raises
    [IndexError] when it lies outside [-len, len), [len] being the number
    of steps of the chunk; an index in [-len, 0) counts from the end, as
    [i + len] does.  Four pieces that do not add up to twelve numbers raise
    [AssertionError]. *)
Theorem execute_step_guards (w : world) (action : action_chunk) (i : Z)
    (m : machine) :
  (forall e, concat_action action i = Raise e ->
     execute_step w action i m = (Raise e, m)) /\
  (forall target e, concat_action action i = Ok target ->
     (fault w (ticks m) = Some e ->
      execute_step w action i m = (Raise e, ticked m)) /\
     (fault w (ticks m) = None -> fault w (S (ticks m)) = Some e ->
      execute_step w action i m
        = (Raise e, ticked (logged (SendAction target) m)))) /\
  (action !! "action.main_arm" = None ->
   concat_action action i = Raise (KeyError "action.main_arm")) /\
  (forall steps, action !! "action.main_arm" = Some steps ->
     (i < - Z.of_nat (length steps) \/ Z.of_nat (length steps) <= i ->
      concat_action action i = Raise IndexError) /\
     (- Z.of_nat (length steps) <= i < 0 ->
      action_index action "action.main_arm" i
        = action_index action "action.main_arm" (i + Z.of_nat (length steps)) /\
      exists v, action_index action "action.main_arm" i = Ok v)) /\
  (forall a g a' g',
     action_index action "action.main_arm" i = Ok a ->
     action_index action "action.main_gripper" i = Ok g ->
     action_index action "action.cv_arm" i = Ok a' ->
     action_index action "action.cv_gripper" i = Ok g' ->
     (step_width a + step_width g + step_width a' + step_width g' <> 12)%nat ->
     concat_action action i = Raise AssertionError).
Proof.
  split; [|split; [|split; [|split]]].
  - intros e He. unfold execute_step, bind, lift. rewrite He. reflexivity.
  - intros target e Ht. split.
    + intros Hf. unfold execute_step, set_target_state.
      unfold bind at 1. unfold lift. rewrite Ht.
      unfold bind at 1. unfold call at 1. unfold call_with.
      rewrite Hf. reflexivity.
    + intros Hf Hnext. unfold execute_step, set_target_state.
      unfold bind at 1. unfold lift. rewrite Ht.
      unfold bind at 1. unfold call at 1. unfold call_with. rewrite Hf.
      unfold bind at 1. unfold call at 1. unfold call_with.
      cbn [ticks logged]. rewrite Hnext. reflexivity.
  - intros Hnone. unfold concat_action, MODALITY_KEYS, modality_parts, action_index.
    rewrite Hnone. reflexivity.
  - intros steps Hsteps. split.
    + intros Hi.
      unfold concat_action, MODALITY_KEYS, modality_parts, action_index.
      rewrite Hsteps, (seq_index_out_of_range steps i Hi). reflexivity.
    + intros Hi. unfold action_index. rewrite Hsteps.
      apply seq_index_from_end. exact Hi.
  - intros a g a' g' Ha Hg Ha' Hg' Hsum.
    unfold concat_action, MODALITY_KEYS, modality_parts.
    rewrite Ha, Hg, Ha', Hg'. simpl. rewrite app_nil_r, !length_app.
    unfold step_width in Hsum.
    destruct (decide _) as [Hlen|_]; [lia|reflexivity].
Qed.

Lemma execute_step_guards_witness :
  execute_step Bench.calm Bench.chunk 16 (Bench.boot Bench.so100)
    = (Raise IndexError, Bench.boot Bench.so100) /\
  execute_step Bench.calm Bench.chunk (-17) (Bench.boot Bench.so100)
    = (Raise IndexError, Bench.boot Bench.so100) /\
  action_index Bench.chunk "action.main_arm" (-1)
    = action_index Bench.chunk "action.main_arm" 15 /\
  execute_step (Bench.failing_at 1 (LibraryError "overload")) Bench.chunk 0
               (Bench.boot Bench.so100)
    = (Raise (LibraryError "overload"),
       ticked (logged (SendAction (replicate 5 (dec 0 1) ++ [dec 1 2] ++
                                   replicate 5 (dec 0 1) ++ [dec 1 2]))
                      (Bench.boot Bench.so100))).
Proof.
  destruct (execute_step_guards Bench.calm Bench.chunk 16 (Bench.boot Bench.so100))
    as (Hraise & _ & _ & Hindex & _).
  destruct (execute_step_guards Bench.calm Bench.chunk (-17) (Bench.boot Bench.so100))
    as (Hraise' & _ & _ & Hindex' & _).
  destruct (execute_step_guards Bench.calm Bench.chunk (-1) (Bench.boot Bench.so100))
    as (_ & _ & _ & Hend & _).
  destruct (execute_step_guards (Bench.failing_at 1 (LibraryError "overload"))
              Bench.chunk 0 (Bench.boot Bench.so100))
    as (_ & Hsend & _).
  split; [|split; [|split]].
  - apply Hraise. apply (Hindex (replicate 16 Bench.arm_row) eq_refl).
    right. simpl. lia.
  - apply Hraise'. apply (Hindex' (replicate 16 Bench.arm_row) eq_refl).
    left. simpl. lia.
  - apply (Hend (replicate 16 Bench.arm_row) eq_refl). simpl. lia.
  - apply (Hsend _ (LibraryError "overload") eq_refl); reflexivity.
Defined.

(** ** Pacing of completed runs *)

Lemma pacing_calls_app (a b : list event) :
  pacing_calls (a ++ b) = pacing_calls a ++ pacing_calls b.
Proof. apply List.filter_app. Qed.

Lemma slept_app (a b : list event) : slept (a ++ b) = slept a ++ slept b.
Proof. apply omap_app. Qed.

Lemma unpaced_steps (seg : list event) :
  Forall (fun s => s <> Actuate /\ s <> Pause) (map step_of seg) ->
  pacing_calls seg = [] /\ slept seg = [] /\ sent_targets seg = [].
Proof.
  induction seg as [|e seg IH]; intros Hall; [repeat split|].
  apply Forall_cons in Hall as [[Ha Hp] Hall].
  destruct (IH Hall) as (IH1 & IH2 & IH3).
  destruct e; simpl in *; try contradiction; auto.
Qed.

Lemma sweep_steps_unpaced (c : nat) :
  Forall (fun s => s <> Actuate /\ s <> Pause) (sweep_steps c).
Proof.
  apply Forall_forall. intros s Hs.
  apply sweep_steps_elem in Hs as [-> | ->]; split; discriminate.
Qed.

Lemma after_sleep_unpaced (c : nat) :
  Forall (fun s => s <> Actuate /\ s <> Pause)
    (sweep_steps c ++ viewer_steps c ++ [Sense] ++ replicate 25 Log).
Proof.
  repeat apply Forall_app_2; try apply sweep_steps_unpaced;
    try (apply Forall_replicate; split; discriminate);
    repeat constructor; discriminate.
Qed.

Lemma before_send_unpaced (c : nat) :
  Forall (fun s => s <> Actuate /\ s <> Pause)
    (sweep_steps c ++ viewer_steps c ++ [Sense] ++ [Request]).
Proof.
  repeat apply Forall_app_2; try apply sweep_steps_unpaced;
    try (apply Forall_replicate; split; discriminate);
    repeat constructor; discriminate.
Qed.

Lemma send_then_sleep_app (a b : list event) :
  send_then_sleep a -> send_then_sleep b -> send_then_sleep (a ++ b).
Proof.
  unfold send_then_sleep. intros Ha Hb.
  rewrite pacing_calls_app, sent_targets_app, flat_map_app, Ha, Hb. reflexivity.
Qed.

Section Paces.
Variable w : world.

Lemma execute_step_paces action i m m' :
  NoDup (dict_keys (cameras (robot (self m)))) ->
  yields (execute_step w action i) m tt m' ->
  exists target rest,
    m' = appended (SendAction target :: Sleep PACE :: rest) m /\
    pacing_calls rest = [] /\ slept rest = [] /\ sent_targets rest = [].
Proof.
  intros Hnd H. unfold execute_step, set_target_state in H.
  apply yields_bind in H as (target & m0 & [Htarget ->]%yields_lift & H).
  pose proof (concat_action_length _ _ _ Htarget) as Hlen.
  apply yields_bind in H as ([] & m1 & ->%yields_call & H).
  apply yields_bind in H as ([] & m2 & ->%yields_call & H).
  apply yields_bind in H as (imgs & m3 & Hsweep & H).
  apply get_all_camera_images_steps in Hsweep as [Hsweep Himgs];
    [|rewrite !appended_self; exact Hnd].
  rewrite !appended_self in Hsweep, Himgs.
  apply yields_bind in H as ([] & m4 & Hview%view_imgs_steps & H).
  simpl in Hview. unfold dict_values in Hview. rewrite length_map, Himgs in Hview.
  apply yields_bind in H as (state & m5 & Hstate%get_current_state_steps & H).
  apply yields_bind in H as ([] & m6 & ->%yields_call & H).
  apply (yields_for_each_steps _ [Log; Log]) in H;
    [|intros j ma mb; apply log_joint_steps].
  rewrite range_length, Hlen in H.
  pose proof (stepped_app _ _ _ _ _ Hsweep
                (stepped_app _ _ _ _ _ Hview
                   (stepped_app _ _ _ _ _ Hstate
                      (stepped_app _ _ _ [Log] _ (stepped_one RrSetTime _) H))))
    as (seg & -> & Hsteps).
  exists target, seg. split.
  - change (SendAction target :: Sleep PACE :: seg)
      with ([SendAction target] ++ [Sleep PACE] ++ seg).
    rewrite !appended_app. reflexivity.
  - apply unpaced_steps. rewrite Hsteps. apply (after_sleep_unpaced _).
Qed.

Lemma execute_loop_paces action (l : list Z) : forall m m',
  NoDup (dict_keys (cameras (robot (self m)))) ->
  yields (for_each l (execute_step w action)) m tt m' ->
  exists seg,
    m' = appended seg m /\
    send_then_sleep seg /\
    slept seg = replicate (length l) PACE /\
    length (sent_targets seg) = length l.
Proof.
  induction l as [|i l IH]; intros m m' Hnd H; simpl in H.
  - apply yields_ret in H as [_ ->]. exists []. repeat split.
  - apply yields_bind in H as ([] & m1 & H1 & H2).
    apply execute_step_paces in H1 as (target & rest & -> & Hp & Hz & Hs);
      [|exact Hnd].
    apply IH in H2 as (seg & -> & Hpair & Hslept & Hsent);
      [|rewrite appended_self; exact Hnd].
    exists ((SendAction target :: Sleep PACE :: rest) ++ seg).
    split; [symmetry; apply appended_app|]. split; [|split].
    + apply send_then_sleep_app; [|exact Hpair].
      unfold send_then_sleep. simpl. rewrite Hs. fold (pacing_calls rest).
      rewrite Hp. reflexivity.
    + rewrite slept_app. simpl. rewrite Hz, Hslept. reflexivity.
    + rewrite sent_targets_app, length_app. simpl. rewrite Hs, Hsent. reflexivity.
Qed.

Lemma iteration_paces li H m m' :
  NoDup (dict_keys (cameras (robot (self m)))) ->
  yields (iteration w li H) m tt m' ->
  exists seg,
    m' = appended seg m /\
    send_then_sleep seg /\
    slept seg = replicate (Z.to_nat H) PACE /\
    length (sent_targets seg) = Z.to_nat H.
Proof.
  intros Hnd Hy. unfold iteration in Hy.
  apply yields_bind in Hy as (imgs & m1 & Hsweep & Hy).
  apply get_all_camera_images_steps in Hsweep as [Hsweep Hlen]; [|exact Hnd].
  apply yields_bind in Hy as ([] & m2 & Hview%view_imgs_steps & Hy).
  simpl in Hview. unfold dict_values in Hview. rewrite length_map, Hlen in Hview.
  apply yields_bind in Hy as (state & m3 & Hstate%get_current_state_steps & Hy).
  apply yields_bind in Hy as (action & m4 & Hreq & Hy).
  unfold client_get_action in Hreq.
  apply yields_bind in Hreq as (obs & m3' & [Hobs ->]%yields_lift & Hreq).
  apply yields_call_with in Hreq as (_ & -> & ->).
  pose proof (stepped_app _ _ _ _ _ Hsweep
                (stepped_app _ _ _ _ _ Hview
                   (stepped_app _ _ _ _ _ Hstate
                      (stepped_one (PolicyGetAction obs) _)))) as Hpre.
  pose proof (stepped_self _ _ _ Hpre) as Hself.
  destruct Hpre as (pre & Hm & Hsteps).
  rewrite Hm in Hy.
  apply execute_loop_paces in Hy as (seg & -> & Hpair & Hslept & Hsent);
    [|rewrite appended_self; exact Hnd].
  destruct (unpaced_steps pre) as (Hp & Hz & Hs).
  { rewrite Hsteps. apply (before_send_unpaced _). }
  unfold range in Hslept, Hsent. rewrite length_map, length_seq in Hslept, Hsent.
  exists (pre ++ seg). split; [symmetry; apply appended_app|]. split; [|split].
  - apply send_then_sleep_app; [|exact Hpair].
    unfold send_then_sleep. rewrite Hp, Hs. reflexivity.
  - rewrite slept_app, Hz. exact Hslept.
  - rewrite sent_targets_app, Hs. exact Hsent.
Qed.

Lemma main_loop_paces li H (l : list Z) : forall m m',
  NoDup (dict_keys (cameras (robot (self m)))) ->
  yields (for_each l (fun _ => iteration w li H)) m tt m' ->
  exists seg,
    m' = appended seg m /\
    send_then_sleep seg /\
    slept seg = replicate (length l * Z.to_nat H) PACE /\
    length (sent_targets seg) = (length l * Z.to_nat H)%nat /\
    map step_of seg
      = concat (replicate (length l)
                  (iteration_steps (length (cameras (robot (self m)))) (Z.to_nat H))).
Proof.
  induction l as [|i l IH]; intros m m' Hnd Hy; simpl in Hy.
  - apply yields_ret in Hy as [_ ->]. exists []. repeat split.
  - apply yields_bind in Hy as ([] & m1 & H1 & H2).
    pose proof (iteration_steps_spec w _ _ _ _ Hnd H1) as (seg0 & Hm0 & Hsteps).
    apply iteration_paces in H1 as (seg1 & -> & Hpair1 & Hz1 & Hs1); [|exact Hnd].
    assert (seg0 = seg1) as ->.
    { apply (f_equal trace) in Hm0. rewrite !appended_trace in Hm0.
      apply app_inv_head in Hm0. symmetry. exact Hm0. }
    apply IH in H2 as (seg2 & -> & Hpair2 & Hz2 & Hs2 & Hsteps2);
      [|rewrite appended_self; exact Hnd].
    rewrite appended_self in Hsteps2.
    exists (seg1 ++ seg2). split; [symmetry; apply appended_app|].
    split; [apply send_then_sleep_app; assumption|]. split; [|split].
    + rewrite slept_app, Hz1, Hz2, <- replicate_add. reflexivity.
    + rewrite sent_targets_app, length_app, Hs1, Hs2. reflexivity.
    + rewrite map_app, Hsteps, Hsteps2. reflexivity.
Qed.
End Paces.

(** C5.  The main loop makes its calls one after the other, each returning
    before the next is made; it starts no thread and takes no lock, so the
    calls it makes form one sequence.  Whatever the library calls do, and
    for every number of passes and every horizon: each [send_action] of
    that sequence that is not its last call is followed at once by
    [time.sleep(0.01)], so a sleep of 0.01 seconds lies between any two
    actuator commands, and the loop has no other [time.sleep].  And a loop
    that completes has made, pass after pass, the calls of a plain
    sequential pass: [ACTIONS_TO_EXECUTE * ACTION_HORIZON] actuator
    commands, each paired with the sleep of 0.01 seconds after it, these
    being all the sleeps of the loop. *)
Theorem main_loop_paced_by_sleep (w : world) (language_instruction : string)
    (ACTIONS_TO_EXECUTE ACTION_HORIZON : Z) (m : machine) :
  (exists seg,
     trace (main_loop w language_instruction ACTIONS_TO_EXECUTE ACTION_HORIZON m).2
       = trace m ++ seg /\
     sleep_follows_send seg /\
     sleep_between_sends seg /\
     sleeps_fixed seg) /\
  (forall m',
     NoDup (dict_keys (cameras (robot (self m)))) ->
     yields (main_loop w language_instruction ACTIONS_TO_EXECUTE ACTION_HORIZON)
       m tt m' ->
     exists seg,
       trace m' = trace m ++ seg /\
       map step_of seg
         = concat (replicate (Z.to_nat ACTIONS_TO_EXECUTE)
                     (iteration_steps (length (cameras (robot (self m))))
                        (Z.to_nat ACTION_HORIZON))) /\
       send_then_sleep seg /\
       length (sent_targets seg)
         = (Z.to_nat ACTIONS_TO_EXECUTE * Z.to_nat ACTION_HORIZON)%nat /\
       slept seg
         = replicate (Z.to_nat ACTIONS_TO_EXECUTE * Z.to_nat ACTION_HORIZON) PACE).
Proof.
  split.
  - assert (H0 : pacing (trace m) false m).
    { exists []. rewrite app_nil_r. repeat split. intros d Hd. inversion Hd. }
    pose proof (main_loop_paced w (trace m) language_instruction
                  ACTIONS_TO_EXECUTE ACTION_HORIZON m H0) as Hexit.
    assert (Hp : exists p, pacing (trace m) p
      (main_loop w language_instruction ACTIONS_TO_EXECUTE ACTION_HORIZON m).2).
    { destruct (main_loop w language_instruction ACTIONS_TO_EXECUTE ACTION_HORIZON m)
        as [[[]|e] m']; simpl in *; [exists false; exact Hexit|exact Hexit]. }
    destruct Hp as (p & seg & Htr & Hpace & Hfixed).
    exists seg. split; [exact Htr|].
    pose proof (pace_sound seg p Hpace) as Hfollows.
    split; [exact Hfollows|].
    split; [apply sleep_follows_between; exact Hfollows|exact Hfixed].
  - intros m' Hnd Hy. unfold main_loop in Hy.
    apply main_loop_paces in Hy as (seg & -> & Hpair & Hz & Hs & Hsteps);
      [|exact Hnd].
    unfold range in Hz, Hs, Hsteps. rewrite length_map, length_seq in Hz, Hs, Hsteps.
    exists seg. split; [apply appended_trace|]. repeat split; assumption.
Qed.

Lemma main_loop_paced_by_sleep_witness :
  exists seg,
    trace (main_loop Bench.calm LANGUAGE_INSTRUCTION 2 3
             (Bench.connected (Bench.boot Bench.so100))).2 = [] ++ seg /\
    send_then_sleep seg /\
    length (sent_targets seg) = 6%nat /\
    slept seg = [PACE; PACE; PACE; PACE; PACE; PACE].
Proof.
  assert (Hnd : NoDup (dict_keys (cameras (robot (self
                  (Bench.connected (Bench.boot Bench.so100))))))).
  { apply (bool_decide_unpack _). vm_compute. exact I. }
  assert (Hy : yields (main_loop Bench.calm LANGUAGE_INSTRUCTION 2 3)
                 (Bench.connected (Bench.boot Bench.so100)) tt
                 (main_loop Bench.calm LANGUAGE_INSTRUCTION 2 3
                    (Bench.connected (Bench.boot Bench.so100))).2).
  { unfold yields. vm_compute. reflexivity. }
  destruct (main_loop_paced_by_sleep Bench.calm LANGUAGE_INSTRUCTION 2 3
              (Bench.connected (Bench.boot Bench.so100))) as [_ Hdone].
  destruct (Hdone _ Hnd Hy) as (seg & Htr & _ & Hpair & Hs & Hz).
  exists seg. split; [exact Htr|]. split; [exact Hpair|]. split; [exact Hs|exact Hz].
Defined.

(** ** The plot calls of the viewer *)





(** ** Cameras and rendering *)

Lemma iteration_without_cameras (w : world) li H m :
  cameras (robot (self m)) = [] ->
  iteration w li H m = (Raise ZeroDivisionError, m).
Proof.
  intros Hcam. unfold iteration, get_all_camera_images.
  unfold bind at 1. unfold bind at 1. unfold get_self. cbn beta iota.
  rewrite Hcam. reflexivity.
Qed.

Lemma main_loop_without_cameras (w : world) li N H m :
  cameras (robot (self m)) = [] -> 1 <= N ->
  main_loop w li N H m = (Raise ZeroDivisionError, m).
Proof.
  intros Hcam HN. unfold main_loop, range.
  destruct (Z.to_nat N) as [|k] eqn:Hk; [lia|].
  simpl. unfold bind at 1.
  rewrite (iteration_without_cameras w li H m Hcam). reflexivity.
Qed.

Lemma iteration_renders (w : world) li H m m' :
  NoDup (dict_keys (cameras (robot (self m)))) ->
  yields (iteration w li H) m tt m' ->
  cameras (robot (self m)) <> [] /\
  exists seg, trace m' = trace m ++ seg /\ Display ∈ map step_of seg.
Proof.
  intros Hnd Hy. split.
  - intros Hcam. unfold yields in Hy.
    rewrite (iteration_without_cameras w li H m Hcam) in Hy. discriminate.
  - destruct (iteration_steps_spec w _ _ _ _ Hnd Hy) as (seg & -> & Hsteps).
    exists seg. split; [apply appended_trace|].
    rewrite Hsteps. unfold iteration_steps, viewer_steps.
    apply elem_of_app. right. apply elem_of_app. left.
    apply elem_of_replicate. split; [reflexivity|lia].
Qed.

(** C4, as the code has it.  The cameras are optional for the robot
    object, rendering is not optional for the script.  Provided the library
    builds one camera device per entry of the configuration:
    [SO100Robot(enable_camera=False)] empties the camera configuration and
    builds the robot from the emptied configuration, so the robot has no
    camera and [get_all_camera_images] returns the empty dictionary without
    calling the library; [SO100Robot(enable_camera=True)] builds the robot
    from the configuration as the library made it, cameras included.  But
    on the robot without cameras every pass of the main loop raises
    [ZeroDivisionError] in [view_imgs] before any library call, and so does
    the loop when it has a pass to make; and a pass that completes, on any
    robot, has made plot calls and had at least one camera. *)
Theorem cameras_optional_rendering_required
    (path_exists : string -> bool)
    (So100RobotConfig_new : string -> So100RobotConfig)
    (make_robot_from_config : So100RobotConfig -> ManipulatorRobot) :
  (forall c, dict_keys (cameras (make_robot_from_config c)) = dict_keys (cfg_cameras c)) ->
  (forall s,
     SO100Robot_init path_exists So100RobotConfig_new make_robot_from_config false
       = Ok s ->
     config s = with_cameras [] (So100RobotConfig_new CALIBRATION_PATH) /\
     robot s = make_robot_from_config (config s) /\
     cfg_cameras (config s) = [] /\
     cameras (robot s) = [] /\
     (forall w m, self m = s -> get_all_camera_images w m = (Ok [], m)) /\
     (forall w li H m, self m = s ->
        iteration w li H m = (Raise ZeroDivisionError, m)) /\
     (forall w li N H m, self m = s -> 1 <= N ->
        main_loop w li N H m = (Raise ZeroDivisionError, m))) /\
  (forall s,
     SO100Robot_init path_exists So100RobotConfig_new make_robot_from_config true
       = Ok s ->
     config s = So100RobotConfig_new CALIBRATION_PATH /\
     robot s = make_robot_from_config (config s) /\
     dict_keys (cameras (robot s))
       = dict_keys (cfg_cameras (So100RobotConfig_new CALIBRATION_PATH))) /\
  (forall w li H m m',
     NoDup (dict_keys (cameras (robot (self m)))) ->
     yields (iteration w li H) m tt m' ->
     cameras (robot (self m)) <> [] /\
     exists seg, trace m' = trace m ++ seg /\ Display ∈ map step_of seg).
Proof.
  intros Hlib. split; [|split].
  - intros s Hinit. unfold SO100Robot_init in Hinit.
    destruct (negb (path_exists CALIBRATION_PATH)); [discriminate|].
    injection Hinit as <-. cbn [config robot negb].
    assert (Hnone : cameras (make_robot_from_config
                      (with_cameras [] (So100RobotConfig_new CALIBRATION_PATH))) = []).
    { specialize (Hlib (with_cameras [] (So100RobotConfig_new CALIBRATION_PATH))).
      simpl in Hlib. unfold dict_keys in Hlib.
      destruct (cameras _); [reflexivity|discriminate]. }
    split; [reflexivity|]. split; [reflexivity|]. split; [reflexivity|].
    split; [exact Hnone|]. split; [|split].
    + intros w m Hm. unfold get_all_camera_images, bind, get_self.
      rewrite Hm. cbn [robot]. rewrite Hnone. reflexivity.
    + intros w li H m Hm. apply iteration_without_cameras.
      rewrite Hm. exact Hnone.
    + intros w li N H m Hm HN. apply main_loop_without_cameras; [|exact HN].
      rewrite Hm. exact Hnone.
  - intros s Hinit. unfold SO100Robot_init in Hinit.
    destruct (negb (path_exists CALIBRATION_PATH)); [discriminate|].
    injection Hinit as <-. cbn [config robot negb].
    repeat split. apply Hlib.
  - intros w li H m m'. apply iteration_renders.
Qed.

Lemma cameras_optional_rendering_required_witness :
  get_all_camera_images Bench.calm (Bench.boot Blind.so100)
    = (Ok [], Bench.boot Blind.so100) /\
  iteration Bench.calm LANGUAGE_INSTRUCTION 12 (Bench.boot Blind.so100)
    = (Raise ZeroDivisionError, Bench.boot Blind.so100) /\
  dict_keys (cameras (robot Bench.so100)) = ["webcam"; "main"; "cv"] /\
  exists seg,
    trace (iteration Bench.calm LANGUAGE_INSTRUCTION 1
             (Bench.connected (Bench.boot Bench.so100))).2 = [] ++ seg /\
    Display ∈ map step_of seg.
Proof.
  destruct (cameras_optional_rendering_required (fun _ => true) Bench.default_config
              Bench.make_robot (fun c => eq_refl)) as (Hoff & Hon & Hrender).
  destruct (Hoff Blind.so100 eq_refl) as (_ & _ & _ & _ & Hget & Hpass & _).
  destruct (Hon Bench.so100 eq_refl) as (_ & _ & Hkeys).
  split; [apply Hget; reflexivity|].
  split; [apply Hpass; reflexivity|].
  split; [exact Hkeys|].
  assert (Hnd : NoDup (dict_keys (cameras (robot (self
                  (Bench.connected (Bench.boot Bench.so100))))))).
  { apply (bool_decide_unpack _). vm_compute. exact I. }
  assert (Hy : yields (iteration Bench.calm LANGUAGE_INSTRUCTION 1)
                 (Bench.connected (Bench.boot Bench.so100)) tt
                 (iteration Bench.calm LANGUAGE_INSTRUCTION 1
                    (Bench.connected (Bench.boot Bench.so100))).2).
  { unfold yields. vm_compute. reflexivity. }
  destruct (Hrender Bench.calm LANGUAGE_INSTRUCTION 1 _ _ Hnd Hy) as [_ Hseg].
  exact Hseg.
Defined.

(** C4 as stated fails on its first words.  The script offers no run
    without rendering: built with [enable_camera=False], the robot
    connects, moves to its initial pose, and the first pass of the main
    loop raises [ZeroDivisionError] in [view_imgs], with the default
    options as with any others; the robot is disconnected, and the policy
    was never queried. *)
Lemma rendering_is_not_optional :
  Bench.build false = Ok Blind.so100 /\
  cameras (robot Blind.so100) = [] /\
  (main Bench.calm 350 12 (Bench.boot Blind.so100)).1 = Raise ZeroDivisionError /\
  trace (main Bench.calm 350 12 (Bench.boot Blind.so100)).2
    = connect_events (follower_arms Blind.so100)
      ++ initial_pose_events 2
      ++ disconnect_events (follower_arms Blind.so100) /\
  policy_queries (trace (main Bench.calm 350 12 (Bench.boot Blind.so100)).2) = [].
Proof.
  split; [reflexivity|]. split; [reflexivity|].
  split; [vm_compute; reflexivity|].
  split; vm_compute; reflexivity.
Qed.
